(** * build.go: version resolution, toolchain gate and archive assembly

    A shallow embedding of the release-build script [build.go] (package
    [main]).  Go values are modelled as follows:

    - [[]byte] is [list byte]; a Go [string] is [string]; the conversions
      [string(bs)] and [[]byte(s)] are [string_of_list_byte] and
      [list_byte_of_string];
    - a function returning [(T, error)] returns [res T];
    - a function that may call [log.Fatal] (print, then [os.Exit(1)])
      returns [proc T];
    - the file system is a finite map from paths to files, threaded through
      the functions that write to it; the operations that may fail are
      named by [op], and an environment says which of them fail;
    - library functions ([regexp], [bytes], [strings], [crypto/md5],
      [archive/tar], [archive/zip]) are modelled from their documentation,
      as far as the script depends on them. *)

From Stdlib Require Import ZArith NArith List String Ascii Bool Lia.
From Stdlib Require Import Strings.Byte.
From Stdlib Require Import Floats Uint63.
From stdpp Require Import gmap strings list fin_maps.

Local Open Scope nat_scope.

(** ** Bytes *)

Abbreviation bytes := (list byte).

(** [[]byte("...")] of a literal. *)
Abbreviation B := list_byte_of_string.

Definition byte_in (lo hi : N) (b : byte) : bool :=
  (N.leb lo (Byte.to_N b) && N.leb (Byte.to_N b) hi)%bool.

(** The class [[0-9]], which is also Go's [\d]. *)
Definition isDigit (b : byte) : bool := byte_in 48 57 b.

(** The class [[0-9a-f]]. *)
Definition isLowerHex (b : byte) : bool :=
  (byte_in 48 57 b || byte_in 97 102 b)%bool.

(** [s[a:b]] for [a <= b <= len(s)]. *)
Definition slice (s : bytes) (a b : nat) : bytes := take (b - a) (drop a s).

(** ** Results of fallible code *)

(** The operations of the environment that may fail. *)
Inductive op : Type :=
| OpCreate (path : string)
| OpOpen (path : string)
| OpStat (path : string)
| OpFileClose (path : string)
| OpReadAll (path : string)
| OpCopy (src : string)
| OpTarWriteHeader (name : string)
| OpTarClose
| OpGzipClose
| OpZipFileInfoHeader (path : string)
| OpZipCreateHeader (name : string)
| OpZipWrite (name : string)
| OpZipClose
| OpFprintf (path : string)
| OpMkdir (path : string)
| OpCommand (cmd : string) (args : list string).

Inductive error : Type :=
| ENOENT (path : string)        (* open: no such file *)
| EIO (o : op).                 (* the operation failed *)

(** A Go result [(T, error)]. *)
Inductive res (A : Type) : Type :=
| Ok (a : A)
| Err (e : error).
Arguments Ok {A} a.
Arguments Err {A} e.

(** What [log.Fatal] and [log.Fatalf] print before the process exits. *)
Inductive fatal : Type :=
| FatalErr (e : error)                (* log.Fatal(err) *)
| FatalGoTooOld (f : float)           (* "*** Go version %.01f is less than required ..." *)
| FatalUnknownCommand (cmd : string). (* "Unknown command %q" *)

(** A computation that may end the process: [log.Fatal(err)] prints [err]
    and calls [os.Exit(1)]. *)
Inductive proc (A : Type) : Type :=
| Done (a : A)
| Exit (status : Z) (logged : fatal).
Arguments Done {A} a.
Arguments Exit {A} status logged.

Definition log_Fatal {A} (e : error) : proc A := Exit 1 (FatalErr e).

Definition res_bind {A C} (r : res A) (k : A -> res C) : res C :=
  match r with Ok a => k a | Err e => Err e end.

Definition proc_bind {A C} (p : proc A) (k : A -> proc C) : proc C :=
  match p with Done a => k a | Exit st e => Exit st e end.

(** [v, err := f(); if err != nil { log.Fatal(err) }] *)
Definition or_fatal {A} (r : res A) : proc A :=
  match r with Ok a => Done a | Err e => log_Fatal e end.

Notation "'try!' x <- e ; k" := (res_bind e (fun x => k))
  (at level 10, x name, e at level 100, k at level 200).
Notation "'run!' x <- e ; k" := (proc_bind e (fun x => k))
  (at level 10, x name, e at level 100, k at level 200).
Notation "'opt!' x <- e ; k" := (match e with Some x => k | None => None end)
  (at level 10, x name, e at level 100, k at level 200).

(** ** Package regexp

    Both patterns of the script are sequences of character classes with
    bounded or unbounded greedy repetition, and one of them has a capture
    group.  A pattern is a list of instructions; [exec] is the
    leftmost-first (greedy, backtracking) match anchored at the current
    position, which is the match Go's engine selects.  The engine reads
    runes, the model bytes: every byte these patterns accept is ASCII, and
    an ASCII byte is always a rune of its own, so the matches are the
    same. *)

Inductive inst : Type :=
| Chars (cls : byte -> bool) (lo : nat) (hi : option nat)   (* cls{lo,hi} *)
| Save.                                                     (* ( or ) *)

Definition regex := list inst.

Definition lit (c : byte) : inst := Chars (Byte.eqb c) 1 (Some 1).

Definition lits (s : string) : regex := map lit (B s).

(** Length of the longest prefix of [s] inside the class. *)
Fixpoint span (cls : byte -> bool) (s : bytes) : nat :=
  match s with
  | c :: s' => if cls c then S (span cls s') else 0
  | [] => 0
  end.

(** Try [k j], then [k (j-1)], ... down to [k lo]: the greedy order. *)
Fixpoint try_down {A} (k : nat -> option A) (lo j : nat) : option A :=
  if j <? lo then None
  else match k j with
       | Some r => Some r
       | None => match j with
                 | O => None
                 | S j' => try_down k lo j'
                 end
       end.

Definition cap (hi : option nat) (n : nat) : nat :=
  match hi with Some h => Nat.min h n | None => n end.

(** [exec re s pos]: match [re] against [s], which starts at offset [pos]
    of the input; the result is the offsets saved at the group boundaries
    and the offset where the match ends. *)
Fixpoint exec (re : regex) (s : bytes) (pos : nat) : option (list nat * nat) :=
  match re with
  | [] => Some ([], pos)
  | Save :: re' =>
      opt! r <- exec re' s pos; Some (pos :: fst r, snd r)
  | Chars cls lo hi :: re' =>
      try_down (fun j => exec re' (drop j s) (pos + j)) lo (cap hi (span cls s))
  end.

(** The leftmost match at or after the current position: where it starts,
    the saved offsets and where it ends. *)
Fixpoint find (re : regex) (s : bytes) (pos : nat) : option (nat * list nat * nat) :=
  match exec re s pos with
  | Some (caps, e) => Some (pos, caps, e)
  | None => match s with
            | [] => None
            | _ :: s' => find re s' (S pos)
            end
  end.

(** Pairs up saved offsets into the sub-slices of the groups. *)
Fixpoint groups (src : bytes) (caps : list nat) : list bytes :=
  match caps with
  | a :: b :: caps' => slice src a b :: groups src caps'
  | _ => []
  end.

(** [re.FindSubmatch(src)]: [nil] when there is no match, else the match
    followed by the text of each group. *)
Definition FindSubmatch (re : regex) (src : bytes) : list bytes :=
  match find re src 0 with
  | Some (start, caps, e) => slice src start e :: groups src caps
  | None => []
  end.

(** [re.ReplaceAllFunc(src, repl)], as the library's loop does it: matches
    are taken left to right without overlap, the text between them is
    copied, an empty match directly after a match is not replaced.  [skip]
    counts the bytes of the current match still to pass, [after] says that
    a match has just ended here.

    [repl] is handed the matched part of [src] itself, not a copy, and may
    write to it: it yields the slice it returns and the bytes it leaves in
    the matched part, or panics ([None]).  The result is the new slice and
    [src] as it is left. *)
Fixpoint replaceAll (re : regex) (repl : bytes -> option (bytes * bytes))
    (skip : nat) (after : bool) (s : bytes) : option (bytes * bytes) :=
  match skip with
  | S k =>
      match s with
      | [] => Some ([], [])
      | _ :: s' => replaceAll re repl k true s'
      end
  | O =>
      match exec re s 0 with
      | Some (_, O) =>
          opt! r <- (if after then Some ([], []) else repl []);
          match s with
          | [] => Some (fst r, [])
          | c :: s' =>
              opt! rest <- replaceAll re repl 0 false s';
              Some (fst r ++ c :: fst rest, c :: snd rest)
          end
      | Some (_, S l) =>
          opt! r <- repl (take (S l) s);
          match s with
          | [] => Some r
          | _ :: s' =>
              opt! rest <- replaceAll re repl l true s';
              Some (fst r ++ fst rest, snd r ++ snd rest)
          end
      | None =>
          match s with
          | [] => Some ([], [])
          | c :: s' =>
              opt! rest <- replaceAll re repl 0 false s';
              Some (c :: fst rest, c :: snd rest)
          end
      end
  end.

Definition ReplaceAllFunc (re : regex) (src : bytes)
    (repl : bytes -> option (bytes * bytes)) : option (bytes * bytes) :=
  replaceAll re repl 0 false src.

(** [versionRe = regexp.MustCompile(`-[0-9]{1,3}-g[0-9a-f]{5,10}`)] *)
Definition versionRe : regex :=
  [ lit "-"; Chars isDigit 1 (Some 3); lit "-"; lit "g";
    Chars isLowerHex 5 (Some 10) ].

(** [regexp.MustCompile(`go version go(\d+\.\d+)`)] *)
Definition goVersionRe : regex :=
  lits "go version go" ++
  [ Save; Chars isDigit 1 None; lit "."; Chars isDigit 1 None; Save ].


(** ** Package bytes and strings *)

Fixpoint has_prefix (p s : bytes) : bool :=
  match p, s with
  | [], _ => true
  | a :: p', c :: s' => Byte.eqb a c && has_prefix p' s'
  | _ :: _, [] => false
  end.

(** [bytes.HasSuffix(s, suffix)] *)
Definition bytes_HasSuffix (s suffix : bytes) : bool :=
  (length suffix <=? length s) &&
  has_prefix suffix (drop (length s - length suffix) s).

(** [strings.HasSuffix(s, suffix)] *)
Definition strings_HasSuffix (s suffix : string) : bool :=
  bytes_HasSuffix (B s) (B suffix).

(** The replacement loop of [bytes.Replace] for a non-empty [old]:
    occurrences are taken left to right without overlap; [left] is the
    number of replacements still allowed ([None]: no limit), [skip] the
    bytes of the current occurrence still to pass. *)
Fixpoint replace_loop (old new : bytes) (left : option nat) (skip : nat)
    (s : bytes) : bytes :=
  match s with
  | [] => []
  | c :: s' =>
      match skip with
      | S k => replace_loop old new left k s'
      | O =>
          match left with
          | Some O => c :: s'
          | _ =>
              if has_prefix old s
              then new ++ replace_loop old new (option_map Nat.pred left)
                                       (length old - 1) s'
              else c :: replace_loop old new left 0 s'
          end
      end
  end.

(** [bytes.Replace(s, old, new, n)]; [n < 0] means no limit.  The script
    only passes non-empty literals for [old]; for an empty [old] Go
    inserts [new] at rune boundaries, which is not modelled: the slice is
    returned as it is. *)
Definition bytes_Replace (s old new : bytes) (n : Z) : bytes :=
  match old with
  | [] => s
  | _ :: _ =>
      replace_loop old new (if (n <? 0)%Z then None else Some (Z.to_nat n)) 0 s
  end.

(** [strings.Replace(s, old, new, n)] *)
Definition strings_Replace (s old new : string) (n : Z) : string :=
  string_of_list_byte (bytes_Replace (B s) (B old) (B new) n).

(** The UTF-8 encodings of the code points for which [unicode.IsSpace]
    holds: the six ASCII ones, U+0085, U+00A0, U+1680, U+2000..U+200A,
    U+2028, U+2029, U+202F, U+205F and U+3000. *)
Definition space_encodings : list bytes :=
  [ [x09]; [x0a]; [x0b]; [x0c]; [x0d]; [x20];
    [xc2; x85]; [xc2; xa0]; [xe1; x9a; x80];
    [xe2; x80; x80]; [xe2; x80; x81]; [xe2; x80; x82]; [xe2; x80; x83];
    [xe2; x80; x84]; [xe2; x80; x85]; [xe2; x80; x86]; [xe2; x80; x87];
    [xe2; x80; x88]; [xe2; x80; x89]; [xe2; x80; x8a];
    [xe2; x80; xa8]; [xe2; x80; xa9]; [xe2; x80; xaf];
    [xe2; x81; x9f]; [xe3; x80; x80] ].

(** Width of the space rune that [s] starts with, 0 when there is none. *)
Definition leading_width (encs : list bytes) (s : bytes) : nat :=
  match List.find (fun e => has_prefix e s) encs with
  | Some e => length e
  | None => 0
  end.

(** [bytes.TrimLeftFunc(s, unicode.IsSpace)]; [fuel] bounds the number of
    runes removed, [length s] is always enough. *)
Fixpoint trim_left (encs : list bytes) (fuel : nat) (s : bytes) : bytes :=
  match fuel with
  | O => s
  | S fuel' =>
      match leading_width encs s with
      | O => s
      | w => trim_left encs fuel' (drop w s)
      end
  end.

(** [bytes.TrimSpace(s)]: leading, then trailing white space is removed;
    the trailing runes are decoded backwards, which on valid encodings of
    space runes is a prefix test on the reversed slice. *)
Definition bytes_TrimSpace (s : bytes) : bytes :=
  let t := trim_left space_encodings (length s) s in
  rev (trim_left (map (@rev byte) space_encodings) (length t) (rev t)).

(** ** Integer conversions *)

Definition uint32 (z : Z) : Z := (z mod 2 ^ 32)%Z.
Definition uint64 (z : Z) : Z := (z mod 2 ^ 64)%Z.
Definition int64 (z : Z) : Z := ((z + 2 ^ 63) mod 2 ^ 64 - 2 ^ 63)%Z.
Definition uint32max : Z := (2 ^ 32 - 1)%Z.

(** ** The environment: files, faults, commands *)

(** A regular file: its bytes, and what [Stat] reports besides the size. *)
Record inode : Type := {
  f_data : bytes;
  f_mode : Z;          (* os.FileMode, a uint32 *)
  f_modTime : Z        (* seconds since the epoch *)
}.

(** [os.FileInfo] *)
Record FileInfo : Type := {
  fi_Name : string;
  fi_Size : Z;
  fi_Mode : Z;
  fi_ModTime : Z
}.

(** An open file: the path it was opened by and the file behind it. *)
Record File : Type := {
  fd_path : string;
  fd_file : inode
}.

Record env : Type := {
  fault : op -> bool;                          (* which operations fail *)
  output : string -> list string -> bytes;     (* what a command prints *)
  umask : Z;
  clock : Z
}.

Definition attempt (E : env) (o : op) : res unit :=
  if fault E o then Err (EIO o) else Ok tt.

(** [os.Open(path)] *)
Definition os_Open (E : env) (fs : gmap string inode) (path : string) : res File :=
  match fs !! path with
  | None => Err (ENOENT path)
  | Some f =>
      try! _ <- attempt E (OpOpen path);
      Ok {| fd_path := path; fd_file := f |}
  end.

(** [os.Create(path)]: the file is created with mode 0666 before umask, or
    truncated when it exists. *)
Definition os_Create (E : env) (fs : gmap string inode) (path : string)
    : res (gmap string inode) :=
  try! _ <- attempt E (OpCreate path);
  let mode := match fs !! path with
              | Some f => f_mode f
              | None => Z.land 438 (Z.lnot (umask E))
              end in
  Ok (<[path := {| f_data := []; f_mode := mode; f_modTime := clock E |}]> fs).

(** [ioutil.ReadAll(fd)] *)
Definition ioutil_ReadAll (E : env) (fd : File) : res bytes :=
  try! _ <- attempt E (OpReadAll (fd_path fd));
  Ok (f_data (fd_file fd)).

(** [filepath.Base(path)] with [/] as the separator. *)
Definition is_sep (b : byte) : bool := Byte.eqb b "/"%byte.

Fixpoint drop_while (p : byte -> bool) (s : bytes) : bytes :=
  match s with
  | c :: s' => if p c then drop_while p s' else s
  | [] => []
  end.

Fixpoint take_while (p : byte -> bool) (s : bytes) : bytes :=
  match s with
  | c :: s' => if p c then c :: take_while p s' else []
  | [] => []
  end.

Definition filepath_Base (path : string) : string :=
  match B path with
  | [] => "."
  | p =>
      let stripped := drop_while is_sep (rev p) in
      match rev (take_while (fun b => negb (is_sep b)) stripped) with
      | [] => "/"
      | last => string_of_list_byte last
      end
  end.

(** [fd.Stat()] *)
Definition File_Stat (E : env) (fd : File) : res FileInfo :=
  try! _ <- attempt E (OpStat (fd_path fd));
  Ok {| fi_Name := filepath_Base (fd_path fd);
        fi_Size := Z.of_nat (length (f_data (fd_file fd)));
        fi_Mode := f_mode (fd_file fd);
        fi_ModTime := f_modTime (fd_file fd) |}.

(** [io.Copy(dst, fd)]: the bytes that reach [dst]. *)
Definition io_Copy (E : env) (fd : File) : res bytes :=
  try! _ <- attempt E (OpCopy (fd_path fd));
  Ok (f_data (fd_file fd)).

(** [runError(cmd, args...)]: the trimmed combined output and the error. *)
Definition runError (E : env) (cmd : string) (args : list string)
    : bytes * option error :=
  (bytes_TrimSpace (output E cmd args),
   if fault E (OpCommand cmd args) then Some (EIO (OpCommand cmd args)) else None).

(** [run(cmd, args...)] *)
Definition run (E : env) (cmd : string) (args : list string) : proc bytes :=
  let '(bs, err) := runError E cmd args in
  match err with
  | Some e => log_Fatal e
  | None => Done (bytes_TrimSpace bs)
  end.

(** ** Version resolution *)

(** [getReleaseVersion()] *)
Definition getReleaseVersion (E : env) (fs : gmap string inode) : res string :=
  try! fd <- os_Open E fs "RELEASE";
  try! bs <- ioutil_ReadAll E fd;
  Ok (string_of_list_byte (bytes_TrimSpace bs)).

(** The function literal passed to [ReplaceAllFunc]:
    [func(s []byte) []byte { s[0] = '+'; return s }].  Indexing an empty
    slice panics.  The write goes to the bytes of [v] under the match, and
    the slice returned is that same part of [v]. *)
Definition plus_for_hyphen (s : bytes) : option (bytes * bytes) :=
  match s with
  | [] => None
  | _ :: s' => Some ("+"%byte :: s', "+"%byte :: s')
  end.

(** [getGitVersion()]; [None] is a run-time panic.  [v] is assigned the
    slice [ReplaceAllFunc] returns; the old [v], written to by the
    function literal, is not used again. *)
Definition getGitVersion (E : env) : option (res string) :=
  let '(v, err) := runError E "git" ["describe"; "--always"; "--dirty"] in
  match err with
  | Some e => Some (Err e)
  | None =>
      opt! v' <- ReplaceAllFunc versionRe v plus_for_hyphen;
      Some (Ok (string_of_list_byte (fst v')))
  end.

(** [getVersion()]; [None] is a run-time panic. *)
Definition getVersion (E : env) (fs : gmap string inode) : option string :=
  match getReleaseVersion E fs with
  | Ok ver => Some ver
  | Err _ =>
      opt! r <- getGitVersion E;
      match r with
      | Ok ver => Some ver
      | Err _ => Some "unknown-dev"
      end
  end.

(** ** The toolchain gate *)

(** [const minGoVersion = 1.3]; in the comparison with a [float64] it is
    the nearest binary64 value. *)
Definition minGoVersion : float := 0x1.4cccccccccccdp+0%float.

Inductive logline : Type :=
| LogCouldntParse (vs : string)     (* "*** Couldn't parse Go version out of %q. ..." *)
| LogUnknownGoVersion (ver : bytes). (* "*** Unknown Go version %q. ..." *)

(** What [main] goes on to call, one after the other, once the gate has
    let it pass. *)
Inductive step : Type :=
| StepInstall (pkg : string) (tags : list string)
| StepBuild (pkg : string) (tags : list string)
| StepVet (pkg : string)
| StepLint (pkg : string)
| StepSetup | StepTest (pkg : string) | StepAssets | StepXdr
| StepTranslate | StepTransifex | StepDeps
| StepBuildTar | StepBuildZip | StepBuildDeb | StepClean.

Section Gate.

(** [strconv.ParseFloat(s, 64)]: the nearest [float64], [None] when it
    reports an error. *)
Variable ParseFloat : string -> option float.

(** [checkRequiredGoVersion()]: the lines it logs when it returns. *)
Definition checkRequiredGoVersion (E : env) : proc (list logline) :=
  run! ver <- run E "go" ["version"];
  match FindSubmatch goVersionRe ver with
  | [_; m1] =>
      let vs := string_of_list_byte m1 in
      match ParseFloat vs with
      | None => Done [LogCouldntParse vs]
      | Some f =>
          if (f <? minGoVersion)%float
          then Exit 1 (FatalGoTooOld f)
          else Done []
      end
  | _ => Done [LogUnknownGoVersion ver]
  end.

Definition upgrade_tags (noupgrade : bool) : list string :=
  if noupgrade then ["noupgrade"] else [].

(** The [switch cmd] of [main]: the steps of the commands in order, up to
    the first unknown command. *)
Fixpoint dispatch (noupgrade : bool) (cmds : list string)
    : list step * option fatal :=
  match cmds with
  | [] => ([], None)
  | cmd :: cmds' =>
      let then_ (ss : list step) :=
        let '(rest, f) := dispatch noupgrade cmds' in (ss ++ rest, f) in
      if String.eqb cmd "setup" then then_ [StepSetup]
      else if String.eqb cmd "install"
        then then_ [StepInstall "./cmd/..." (upgrade_tags noupgrade)]
      else if String.eqb cmd "build"
        then then_ [StepBuild "./cmd/syncthing" (upgrade_tags noupgrade)]
      else if String.eqb cmd "test" then then_ [StepTest "./..."]
      else if String.eqb cmd "assets" then then_ [StepAssets]
      else if String.eqb cmd "xdr" then then_ [StepXdr]
      else if String.eqb cmd "translate" then then_ [StepTranslate]
      else if String.eqb cmd "transifex" then then_ [StepTransifex]
      else if String.eqb cmd "deps" then then_ [StepDeps]
      else if String.eqb cmd "tar" then then_ [StepBuildTar]
      else if String.eqb cmd "zip" then then_ [StepBuildZip]
      else if String.eqb cmd "deb" then then_ [StepBuildDeb]
      else if String.eqb cmd "clean" then then_ [StepClean]
      else if String.eqb cmd "vet"
        then then_ [StepVet "./cmd/syncthing"; StepVet "./internal/..."]
      else if String.eqb cmd "lint"
        then then_ [StepLint "./cmd/syncthing"; StepLint "./internal/..."]
      else ([], Some (FatalUnknownCommand cmd))
  end.

(** [main()] from [checkRequiredGoVersion()] on: the lines the gate
    logged, the steps called and how the dispatch ended.  The steps are
    those called when none of them ends the process itself. *)
Definition main (E : env) (noupgrade : bool) (args : list string)
    : proc (list logline * list step * option fatal) :=
  run! warnings <- checkRequiredGoVersion E;
  match args with
  | [] =>
      Done (warnings,
            [ StepInstall "./cmd/..." (upgrade_tags noupgrade);
              StepVet "./cmd/syncthing"; StepVet "./internal/...";
              StepLint "./cmd/syncthing"; StepLint "./internal/..." ],
            None)
  | _ => let '(ss, f) := dispatch noupgrade args in Done (warnings, ss, f)
  end.

End Gate.

(** ** Archives *)

(** [type archiveFile struct { src, dst string; perm os.FileMode }] *)
Record archiveFile : Type := {
  src : string;
  dst : string;
  perm : Z
}.

(** [tar.Header], the fields the script sets. *)
Record tar_Header : Type := {
  Name : string;
  Size : Z;
  Mode : Z;
  ModTime : Z
}.

(** [zip.FileHeader], the fields the script and [FileInfoHeader] set. *)
Record zip_FileHeader : Type := {
  zName : string;
  Method : Z;
  UncompressedSize : Z;       (* uint32 *)
  UncompressedSize64 : Z;     (* uint64 *)
  zMode : Z;
  zModTime : Z
}.

Definition zip_Store : Z := 0.
Definition zip_Deflate : Z := 8.

(** [zip.FileInfoHeader(info)] *)
Definition zip_FileInfoHeader (E : env) (path : string) (info : FileInfo)
    : res zip_FileHeader :=
  try! _ <- attempt E (OpZipFileInfoHeader path);
  let size64 := uint64 (fi_Size info) in
  Ok {| zName := fi_Name info;
        Method := zip_Store;
        UncompressedSize :=
          if (uint32max <? size64)%Z then uint32max else uint32 size64;
        UncompressedSize64 := size64;
        zMode := fi_Mode info;
        zModTime := fi_ModTime info |}.

(** [of.Write(bs)] on the writer of a zip entry: the bytes that reached
    the entry and the error. *)
Definition zip_Write (E : env) (name : string) (bs : bytes)
    : bytes * option error :=
  if fault E (OpZipWrite name)
  then ([], Some (EIO (OpZipWrite name)))
  else (bs, None).

(** A [zip.Writer] keeps the first error of a write to its stream (its
    [bufio.Writer] and the [flate] compressor of the entry both do), and
    every later [CreateHeader] and [Close] returns it.  The state of the
    writer is that error, if there is one.

    [zw.CreateHeader(fh)], which first closes the entry before. *)
Definition zip_CreateHeader (E : env) (zw : option error) (name : string)
    : res unit :=
  match zw with
  | Some e => Err e
  | None => attempt E (OpZipCreateHeader name)
  end.

(** [zw.Close()] *)
Definition zip_Close (E : env) (zw : option error) : res unit :=
  match zw with
  | Some e => Err e
  | None => attempt E OpZipClose
  end.

(** The loop of [tarGz]: the entries written to the tar stream, each a
    header and the bytes copied after it. *)
Fixpoint tarGz_loop (E : env) (fs : gmap string inode)
    (files : list archiveFile) : proc (list (tar_Header * bytes)) :=
  match files with
  | [] => Done []
  | f :: files' =>
      run! sf <- or_fatal (os_Open E fs (src f));
      run! info <- or_fatal (File_Stat E sf);
      let h := {| Name := dst f;
                  Size := fi_Size info;
                  Mode := int64 (fi_Mode info);
                  ModTime := fi_ModTime info |} in
      run! _ <- or_fatal (attempt E (OpTarWriteHeader (Name h)));
      run! data <- or_fatal (io_Copy E sf);
      (* sf.Close(): the result is dropped *)
      run! rest <- tarGz_loop E fs files';
      Done ((h, data) :: rest)
  end.

(** [tarGz(out, files)]: the archive as the list of its entries. *)
Definition tarGz (E : env) (fs : gmap string inode) (out : string)
    (files : list archiveFile) : proc (list (tar_Header * bytes)) :=
  run! fs' <- or_fatal (os_Create E fs out);
  run! entries <- tarGz_loop E fs' files;
  run! _ <- or_fatal (attempt E OpTarClose);
  run! _ <- or_fatal (attempt E OpGzipClose);
  run! _ <- or_fatal (attempt E (OpFileClose out));
  Done entries.

(** The loop of [zipFile], from the state [zw] of the writer on: the
    entries and the state of the writer at the end. *)
Fixpoint zipFile_loop (E : env) (fs : gmap string inode) (zw : option error)
    (files : list archiveFile)
    : proc (list (zip_FileHeader * bytes) * option error) :=
  match files with
  | [] => Done ([], zw)
  | f :: files' =>
      run! sf <- or_fatal (os_Open E fs (src f));
      run! info <- or_fatal (File_Stat E sf);
      run! fh <- or_fatal (zip_FileInfoHeader E (src f) info);
      let fh := {| zName := dst f; Method := zip_Deflate;
                   UncompressedSize := UncompressedSize fh;
                   UncompressedSize64 := UncompressedSize64 fh;
                   zMode := zMode fh; zModTime := zModTime fh |} in
      if strings_HasSuffix (dst f) ".txt" then
        (* Text file. Read it and convert line endings. *)
        run! bs <- or_fatal (ioutil_ReadAll E sf);
        let bs := bytes_Replace bs [x0a] [x0a; x0d] (-1) in
        let fh := {| zName := zName fh; Method := Method fh;
                     UncompressedSize := uint32 (Z.of_nat (length bs));
                     UncompressedSize64 := uint64 (Z.of_nat (length bs));
                     zMode := zMode fh; zModTime := zModTime fh |} in
        run! _ <- or_fatal (zip_CreateHeader E zw (zName fh));
        (* of.Write(bs): the results are dropped, the writer keeps the error *)
        let w := zip_Write E (zName fh) bs in
        run! rest <- zipFile_loop E fs (snd w) files';
        Done ((fh, fst w) :: fst rest, snd rest)
      else
        (* Binary file. Copy verbatim. *)
        run! _ <- or_fatal (zip_CreateHeader E zw (zName fh));
        run! data <- or_fatal (io_Copy E sf);
        run! rest <- zipFile_loop E fs None files';
        Done ((fh, data) :: fst rest, snd rest)
  end.

(** [zipFile(out, files)]: the archive as the list of its entries. *)
Definition zipFile (E : env) (fs : gmap string inode) (out : string)
    (files : list archiveFile) : proc (list (zip_FileHeader * bytes)) :=
  run! fs' <- or_fatal (os_Create E fs out);
  run! entries <- zipFile_loop E fs' None files;
  run! _ <- or_fatal (zip_Close E (snd entries));
  run! _ <- or_fatal (attempt E (OpFileClose out));
  Done (fst entries).

(** ** Manifests *)

(** [buildArch()] *)
Definition buildArch (goos goarch : string) : string :=
  let os := if String.eqb goos "darwin" then "macosx" else goos in
  os +:+ "-" +:+ goarch.

(** [archiveName()] *)
Definition archiveName (goos goarch version : string) : string :=
  "syncthing-" +:+ buildArch goos goarch +:+ "-" +:+ version.

Definition archive_base (goos goarch version : string) (noupgrade : bool) : string :=
  let name := archiveName goos goarch version in
  if noupgrade then name +:+ "-noupgrade" else name.

Definition entry (s d : string) : archiveFile := {| src := s; dst := d; perm := 0 |}.

(** The manifest of [buildTar()]; [etc] and [extra] are what
    [listFiles("etc")] and [listFiles("extra")] return. *)
Definition buildTar_files (name : string) (etc extra : list string)
    : list archiveFile :=
  [ entry "README.md" (name +:+ "/README.txt");
    entry "LICENSE" (name +:+ "/LICENSE.txt");
    entry "AUTHORS" (name +:+ "/AUTHORS.txt");
    entry "syncthing" (name +:+ "/syncthing");
    entry "syncthing.md5" (name +:+ "/syncthing.md5") ]
  ++ map (fun file => entry file (name +:+ "/" +:+ file)) etc
  ++ map (fun file => entry file (name +:+ "/" +:+ filepath_Base file)) extra.

(** The manifest of [buildZip()]. *)
Definition buildZip_files (name : string) (extra : list string)
    : list archiveFile :=
  [ entry "README.md" (name +:+ "/README.txt");
    entry "LICENSE" (name +:+ "/LICENSE.txt");
    entry "AUTHORS" (name +:+ "/AUTHORS.txt");
    entry "syncthing.exe" (name +:+ "/syncthing.exe");
    entry "syncthing.exe.md5" (name +:+ "/syncthing.exe.md5") ]
  ++ map (fun file => entry file (name +:+ "/" +:+ filepath_Base file)) extra.

(** [buildTar()] from the manifest on (the binary and its checksum are
    built before). *)
Definition buildTar (E : env) (fs : gmap string inode)
    (goos goarch version : string) (noupgrade : bool)
    (etc extra : list string) : proc (list (tar_Header * bytes)) :=
  let name := archive_base goos goarch version noupgrade in
  tarGz E fs (name +:+ ".tar.gz") (buildTar_files name etc extra).

(** [buildZip()] from the manifest on. *)
Definition buildZip (E : env) (fs : gmap string inode)
    (goos goarch version : string) (noupgrade : bool)
    (extra : list string) : proc (list (zip_FileHeader * bytes)) :=
  let name := archive_base goos goarch version noupgrade in
  zipFile E fs (name +:+ ".zip") (buildZip_files name extra).

(** ** Control files of the deb tree *)

Definition nl : string := String (ascii_of_nat 10) "".
Definition tab : string := String (ascii_of_nat 9) "".

Definition control_template : string :=
  "Package: syncthing" +:+ nl +:+
  "Architecture: {{arch}}" +:+ nl +:+
  "Depends: libc6" +:+ nl +:+
  "Version: {{version}}" +:+ nl +:+
  "Maintainer: Syncthing Release Management <release@syncthing.net>" +:+ nl +:+
  "Description: Open Source Continuous File Synchronization" +:+ nl +:+
  tab +:+ "Syncthing does bidirectional synchronization of files between two or" +:+ nl +:+
  tab +:+ "more computers." +:+ nl.

Definition changelog_template : string :=
  "syncthing ({{version}}); urgency=medium" +:+ nl +:+
  nl +:+
  "  * Packaging of {{version}}." +:+ nl +:+
  nl +:+
  " -- Jakob Borg <jakob@nym.se>  {{date}}" +:+ nl.

(** [debarch := goarch; if debarch == "386" { debarch = "i386" }] *)
Definition debarch (goarch : string) : string :=
  if String.eqb goarch "386" then "i386" else goarch.

(** [version[1:]]; slicing an empty string from 1 panics. *)
Definition from1 (version : string) : option string :=
  match version with
  | EmptyString => None
  | String _ rest => Some rest
  end.

(** The templating of [buildDeb()]: the control file and the changelog;
    [date] is [time.Now().Format(time.RFC1123)], [None] is a run-time
    panic. *)
Definition deb_templates (goarch version date : string)
    : option (string * string) :=
  let debarch := debarch goarch in
  let control := strings_Replace control_template "{{arch}}" debarch (-1) in
  opt! v <- from1 version;
  let control := strings_Replace control "{{version}}" v (-1) in
  let changelog := strings_Replace changelog_template "{{arch}}" debarch (-1) in
  opt! v <- from1 version;
  let changelog := strings_Replace changelog "{{version}}" v (-1) in
  let changelog := strings_Replace changelog "{{date}}" date (-1) in
  Some (control, changelog).

(** ** Package crypto/md5 (RFC 1321) *)

Local Open Scope Z_scope.

Definition w32 (z : Z) : Z := z mod 2 ^ 32.

Definition rotl32 (x : Z) (c : Z) : Z :=
  w32 (Z.lor (Z.shiftl x c) (Z.shiftr x (32 - c))).

Definition not32 (x : Z) : Z := Z.lxor x 4294967295.

Definition md5_shifts : list Z :=
  [ 7; 12; 17; 22; 7; 12; 17; 22; 7; 12; 17; 22; 7; 12; 17; 22;
    5; 9; 14; 20; 5; 9; 14; 20; 5; 9; 14; 20; 5; 9; 14; 20;
    4; 11; 16; 23; 4; 11; 16; 23; 4; 11; 16; 23; 4; 11; 16; 23;
    6; 10; 15; 21; 6; 10; 15; 21; 6; 10; 15; 21; 6; 10; 15; 21 ].

Definition md5_table : list Z :=
  [ 0xd76aa478; 0xe8c7b756; 0x242070db; 0xc1bdceee;
    0xf57c0faf; 0x4787c62a; 0xa8304613; 0xfd469501;
    0x698098d8; 0x8b44f7af; 0xffff5bb1; 0x895cd7be;
    0x6b901122; 0xfd987193; 0xa679438e; 0x49b40821;
    0xf61e2562; 0xc040b340; 0x265e5a51; 0xe9b6c7aa;
    0xd62f105d; 0x02441453; 0xd8a1e681; 0xe7d3fbc8;
    0x21e1cde6; 0xc33707d6; 0xf4d50d87; 0x455a14ed;
    0xa9e3e905; 0xfcefa3f8; 0x676f02d9; 0x8d2a4c8a;
    0xfffa3942; 0x8771f681; 0x6d9d6122; 0xfde5380c;
    0xa4beea44; 0x4bdecfa9; 0xf6bb4b60; 0xbebfbc70;
    0x289b7ec6; 0xeaa127fa; 0xd4ef3085; 0x04881d05;
    0xd9d4d039; 0xe6db99e5; 0x1fa27cf8; 0xc4ac5665;
    0xf4292244; 0x432aff97; 0xab9423a7; 0xfc93a039;
    0x655b59c3; 0x8f0ccc92; 0xffeff47d; 0x85845dd1;
    0x6fa87e4f; 0xfe2ce6e0; 0xa3014314; 0x4e0811a1;
    0xf7537e82; 0xbd3af235; 0x2ad7d2bb; 0xeb86d391 ].

Definition byte_of_Z (z : Z) : byte :=
  match Byte.of_N (Z.to_N (z mod 256)) with
  | Some b => b
  | None => x00
  end.

Definition Z_of_byte (b : byte) : Z := Z.of_N (Byte.to_N b).

(** Little-endian bytes of a word, and back. *)
Fixpoint le_bytes (n : nat) (z : Z) : bytes :=
  match n with
  | O => []
  | S n' => byte_of_Z z :: le_bytes n' (Z.shiftr z 8)
  end.

Fixpoint le_word (bs : bytes) : Z :=
  match bs with
  | [] => 0
  | b :: bs' => Z_of_byte b + 256 * le_word bs'
  end.

(** The message followed by 0x80, zeros up to 56 modulo 64, and the
    length in bits as 8 bytes. *)
Definition md5_pad (msg : bytes) : bytes :=
  let len := length msg in
  msg ++ [x80]
      ++ repeat x00 ((55 + 64 - len mod 64) mod 64)%nat
      ++ le_bytes 8 (8 * Z.of_nat len).

Definition md5_state : Type := Z * Z * Z * Z.

Definition md5_round (M : list Z) (st : md5_state) (i : nat) : md5_state :=
  let '(a, b, c, d) := st in
  let '(f, g) :=
    if (i <? 16)%nat then (Z.lor (Z.land b c) (Z.land (not32 b) d), i)
    else if (i <? 32)%nat then
      (Z.lor (Z.land d b) (Z.land (not32 d) c), ((5 * i + 1) mod 16)%nat)
    else if (i <? 48)%nat then (Z.lxor (Z.lxor b c) d, ((3 * i + 5) mod 16)%nat)
    else (Z.lxor c (Z.lor b (not32 d)), ((7 * i) mod 16)%nat) in
  let f := w32 (f + a + nth i md5_table 0 + nth g M 0) in
  (d, w32 (b + rotl32 f (nth i md5_shifts 0)), b, c).

(** One operation of [md5_round], with the function of the round, the
    index of the word, the shift and the constant given. *)
Definition md5_step (f : Z -> Z -> Z -> Z) (M : list Z) (st : md5_state)
    (k : nat) (s t : Z) : md5_state :=
  let '(a, b, c, d) := st in
  (d, w32 (b + rotl32 (w32 (a + f b c d + nth k M 0%Z + t)) s), b, c)%Z.

(** The 16 little-endian words of a 64-byte block. *)
Fixpoint words (n : nat) (block : bytes) : list Z :=
  match n with
  | O => []
  | S n' => le_word (take 4 block) :: words n' (drop 4 block)
  end.

Definition md5_block (st : md5_state) (block : bytes) : md5_state :=
  let '(a0, b0, c0, d0) := st in
  let '(a, b, c, d) := fold_left (md5_round (words 16 block)) (seq 0 64) st in
  (w32 (a0 + a), w32 (b0 + b), w32 (c0 + c), w32 (d0 + d)).

Fixpoint md5_blocks (n : nat) (st : md5_state) (data : bytes) : md5_state :=
  match n with
  | O => st
  | S n' => md5_blocks n' (md5_block st (take 64 data)) (drop 64 data)
  end.

(** [h := md5.New(); h.Write(msg); h.Sum(nil)] *)
Definition md5_Sum (msg : bytes) : bytes :=
  let padded := md5_pad msg in
  let '(a, b, c, d) :=
    md5_blocks (length padded / 64)%nat
      (0x67452301, 0xefcdab89, 0x98badcfe, 0x10325476) padded in
  le_bytes 4 a ++ le_bytes 4 b ++ le_bytes 4 c ++ le_bytes 4 d.

Local Close Scope Z_scope.

(** ** The checksum sidecar *)

Definition hex_digit (n : N) : byte :=
  nth (N.to_nat n) (B "0123456789abcdef") x00.

(** [fmt.Sprintf("%x", bs)] *)
Definition fmt_hex (bs : bytes) : bytes :=
  flat_map (fun b => [hex_digit (Byte.to_N b / 16); hex_digit (Byte.to_N b mod 16)]) bs.

(** [md5File(file)]: the error it returns and the file system it leaves. *)
Definition md5File (E : env) (fs : gmap string inode) (file : string)
    : res unit * gmap string inode :=
  match os_Open E fs file with
  | Err e => (Err e, fs)
  | Ok fd =>
      match io_Copy E fd with
      | Err e => (Err e, fs)
      | Ok data =>
          let sum := md5_Sum data in
          let side := file +:+ ".md5" in
          match os_Create E fs side with
          | Err e => (Err e, fs)
          | Ok fs1 =>
              match attempt E (OpFprintf side) with
              | Err e => (Err e, fs1)
              | Ok _ =>
                  let fs2 :=
                    alter (fun f => {| f_data := fmt_hex sum ++ [x0a];
                                       f_mode := f_mode f;
                                       f_modTime := f_modTime f |}) side fs1 in
                  (attempt E (OpFileClose side), fs2)
              end
          end
      end
  end.

(** The call in [build]: [if err := md5File(binary); err != nil { log.Fatal(err) }]. *)
Definition build_checksum (E : env) (fs : gmap string inode) (binary : string)
    : proc (gmap string inode) :=
  let '(r, fs') := md5File E fs binary in
  run! _ <- or_fatal r;
  Done fs'.

(** ** MD5 as RFC 1321 words it *)

Local Open Scope Z_scope.

(** 3.4: the four auxiliary functions on words. *)
Definition rfc_F (x y z : Z) : Z := Z.lor (Z.land x y) (Z.land (not32 x) z).
Definition rfc_G (x y z : Z) : Z := Z.lor (Z.land x z) (Z.land y (not32 z)).
Definition rfc_H (x y z : Z) : Z := Z.lxor (Z.lxor x y) z.
Definition rfc_I (x y z : Z) : Z := Z.lxor y (Z.lor x (not32 z)).

(** The buffer is the four registers A, B, C, D. *)
Inductive rfc_reg : Type := RegA | RegB | RegC | RegD.

(** An operation [[abcd k s i]]: the register it assigns (its operands
    are the registers from that one on, in the cyclic order A, B, C, D),
    the index [k] of the word of the block, the rotation [s] and the
    constant [T[i]], as the appendix of the RFC lists it. *)
Inductive rfc_operation : Type :=
| Op (r : rfc_reg) (k : nat) (s : Z) (t : Z).

(** [a = b + ((a + f(b,c,d) + X[k] + T[i]) <<< s)] *)
Definition rfc_op (f : Z -> Z -> Z -> Z) (a b c d x s t : Z) : Z :=
  w32 (b + rotl32 (w32 (a + f b c d + x + t)) s).

Definition rfc_apply (f : Z -> Z -> Z -> Z) (X : nat -> Z)
    (st : Z * Z * Z * Z) (o : rfc_operation) : Z * Z * Z * Z :=
  let '(a, b, c, d) := st in
  let '(Op r k s t) := o in
  match r with
  | RegA => (rfc_op f a b c d (X k) s t, b, c, d)
  | RegD => (a, b, c, rfc_op f d a b c (X k) s t)
  | RegC => (a, b, rfc_op f c d a b (X k) s t, d)
  | RegB => (a, rfc_op f b c d a (X k) s t, c, d)
  end.

(** Round 1, with [F]. *)
Definition rfc_round1 : list rfc_operation :=
  [ Op RegA 0 7 0xd76aa478; Op RegD 1 12 0xe8c7b756; Op RegC 2 17 0x242070db; Op RegB 3 22 0xc1bdceee;
    Op RegA 4 7 0xf57c0faf; Op RegD 5 12 0x4787c62a; Op RegC 6 17 0xa8304613; Op RegB 7 22 0xfd469501;
    Op RegA 8 7 0x698098d8; Op RegD 9 12 0x8b44f7af; Op RegC 10 17 0xffff5bb1; Op RegB 11 22 0x895cd7be;
    Op RegA 12 7 0x6b901122; Op RegD 13 12 0xfd987193; Op RegC 14 17 0xa679438e; Op RegB 15 22 0x49b40821 ].

(** Round 2, with [G]. *)
Definition rfc_round2 : list rfc_operation :=
  [ Op RegA 1 5 0xf61e2562; Op RegD 6 9 0xc040b340; Op RegC 11 14 0x265e5a51; Op RegB 0 20 0xe9b6c7aa;
    Op RegA 5 5 0xd62f105d; Op RegD 10 9 0x02441453; Op RegC 15 14 0xd8a1e681; Op RegB 4 20 0xe7d3fbc8;
    Op RegA 9 5 0x21e1cde6; Op RegD 14 9 0xc33707d6; Op RegC 3 14 0xf4d50d87; Op RegB 8 20 0x455a14ed;
    Op RegA 13 5 0xa9e3e905; Op RegD 2 9 0xfcefa3f8; Op RegC 7 14 0x676f02d9; Op RegB 12 20 0x8d2a4c8a ].

(** Round 3, with [H]. *)
Definition rfc_round3 : list rfc_operation :=
  [ Op RegA 5 4 0xfffa3942; Op RegD 8 11 0x8771f681; Op RegC 11 16 0x6d9d6122; Op RegB 14 23 0xfde5380c;
    Op RegA 1 4 0xa4beea44; Op RegD 4 11 0x4bdecfa9; Op RegC 7 16 0xf6bb4b60; Op RegB 10 23 0xbebfbc70;
    Op RegA 13 4 0x289b7ec6; Op RegD 0 11 0xeaa127fa; Op RegC 3 16 0xd4ef3085; Op RegB 6 23 0x04881d05;
    Op RegA 9 4 0xd9d4d039; Op RegD 12 11 0xe6db99e5; Op RegC 15 16 0x1fa27cf8; Op RegB 2 23 0xc4ac5665 ].

(** Round 4, with [I]. *)
Definition rfc_round4 : list rfc_operation :=
  [ Op RegA 0 6 0xf4292244; Op RegD 7 10 0x432aff97; Op RegC 14 15 0xab9423a7; Op RegB 5 21 0xfc93a039;
    Op RegA 12 6 0x655b59c3; Op RegD 3 10 0x8f0ccc92; Op RegC 10 15 0xffeff47d; Op RegB 1 21 0x85845dd1;
    Op RegA 8 6 0x6fa87e4f; Op RegD 15 10 0xfe2ce6e0; Op RegC 6 15 0xa3014314; Op RegB 13 21 0x4e0811a1;
    Op RegA 4 6 0xf7537e82; Op RegD 11 10 0xbd3af235; Op RegC 2 15 0x2ad7d2bb; Op RegB 9 21 0xeb86d391 ].

(** The byte of [block] at offset [j]. *)
Definition rfc_byte (block : bytes) (j : nat) : Z := Z_of_byte (nth j block x00).

(** Word [k] of a block: four bytes, the low-order byte first. *)
Definition rfc_word (block : bytes) (k : nat) : Z :=
  rfc_byte block (4 * k) + 2 ^ 8 * rfc_byte block (4 * k + 1)
  + 2 ^ 16 * rfc_byte block (4 * k + 2) + 2 ^ 24 * rfc_byte block (4 * k + 3).

(** The four bytes of a word, the low-order byte first. *)
Definition rfc_word_bytes (w : Z) : bytes :=
  [ byte_of_Z (w mod 2 ^ 8); byte_of_Z (w / 2 ^ 8 mod 2 ^ 8);
    byte_of_Z (w / 2 ^ 16 mod 2 ^ 8); byte_of_Z (w / 2 ^ 24 mod 2 ^ 8) ].

(** 3.4: one 16-word block is processed in four rounds of 16 operations,
    and each register is then incremented by the value it had before. *)
Definition rfc_transform (st : Z * Z * Z * Z) (block : bytes) : Z * Z * Z * Z :=
  let '(AA, BB, CC, DD) := st in
  let X := rfc_word block in
  let st1 := fold_left (rfc_apply rfc_F X) rfc_round1 st in
  let st2 := fold_left (rfc_apply rfc_G X) rfc_round2 st1 in
  let st3 := fold_left (rfc_apply rfc_H X) rfc_round3 st2 in
  let '(a, b, c, d) := fold_left (rfc_apply rfc_I X) rfc_round4 st3 in
  (w32 (a + AA), w32 (b + BB), w32 (c + CC), w32 (d + DD)).

(** 3.1: the message is padded with a single 1 bit and then 0 bits until
    its length in bits is congruent to 448, modulo 512: in bytes, with
    0x80 and then zero bytes until the length is congruent to 56, modulo
    64.  [len] is the length reached so far. *)
Fixpoint rfc_zeros (fuel len : nat) : bytes :=
  match fuel with
  | O => []
  | S fuel' =>
      if (len mod 64 =? 56)%nat then [] else x00 :: rfc_zeros fuel' (S len)
  end.

(** 3.2: the length of the message in bits before the padding, as 64
    bits: two words, the low-order word first. *)
Definition rfc_length (len : nat) : bytes :=
  let b := (8 * Z.of_nat len) mod 2 ^ 64 in
  rfc_word_bytes (b mod 2 ^ 32) ++ rfc_word_bytes (b / 2 ^ 32).

Definition rfc_pad (msg : bytes) : bytes :=
  msg ++ x80 :: rfc_zeros 64 (S (length msg)) ++ rfc_length (length msg).

(** The 64-byte blocks of the padded message, in order. *)
Fixpoint rfc_blocks (fuel : nat) (data : bytes) : list bytes :=
  match fuel, data with
  | S fuel', _ :: _ => take 64 data :: rfc_blocks fuel' (drop 64 data)
  | _, _ => []
  end.

(** 3.3 to 3.5: the registers start as 01 23 45 67, 89 ab cd ef,
    fe dc ba 98 and 76 54 32 10, low-order bytes first; every block is
    processed; the digest is A, B, C, D, each low-order byte first. *)
Definition rfc1321_digest (msg : bytes) : bytes :=
  let padded := rfc_pad msg in
  let '(a, b, c, d) :=
    fold_left rfc_transform (rfc_blocks (length padded) padded)
      (0x67452301, 0xefcdab89, 0x98badcfe, 0x10325476) in
  rfc_word_bytes a ++ rfc_word_bytes b ++ rfc_word_bytes c ++ rfc_word_bytes d.

Local Close Scope Z_scope.

(** The test suite of RFC 1321, appendix A.5. *)
Definition rfc1321_suite : list (string * string) :=
  [ ("", "d41d8cd98f00b204e9800998ecf8427e");
    ("a", "0cc175b9c0f1b6a831c399e269772661");
    ("abc", "900150983cd24fb0d6963f7d28e17f72");
    ("message digest", "f96b697d7cb7938d525a2f31aaf161d0");
    ("abcdefghijklmnopqrstuvwxyz", "c3fcd3d76192e4007dfb496cca67e13b");
    ("ABCDEFGHIJKLMNOPQRSTUVWXYZabcdefghijklmnopqrstuvwxyz0123456789",
     "d174ab98d277d9f5a5611c2c9f419d9f");
    ("12345678901234567890123456789012345678901234567890123456789012345678901234567890",
     "57edf4a22be3c955ac49da2e2107b67a") ]%string.

(** ** Notions the properties are stated with *)

(** The describe suffix as the specification words it: a hyphen, 1-3
    decimal digits, a hyphen, the letter g, 5-10 lowercase hex digits, at
    the start of [s]. *)
Definition describe_suffix (s : bytes) : Prop :=
  exists N H rest,
    s = "-"%byte :: N ++ "-"%byte :: "g"%byte :: H ++ rest /\
    1 <= length N <= 3 /\ Forall (fun b => isDigit b = true) N /\
    5 <= length H <= 10 /\ Forall (fun b => isLowerHex b = true) H.

(** The suffix occurs in [v] at offset [i]. *)
Definition describe_suffix_at (v : bytes) (i : nat) : Prop :=
  i < length v /\ describe_suffix (drop i v).

(** [v] with a plus sign wherever [versionRe] matches from that byte on. *)
Fixpoint mark (s : bytes) : bytes :=
  match s with
  | [] => []
  | c :: s' =>
      match exec versionRe s 0 with Some _ => "+"%byte | None => c end :: mark s'
  end.

(** No match of [versionRe] starts at the first [k] offsets of [s]. *)
Fixpoint quiet (k : nat) (s : bytes) : Prop :=
  match k with
  | O => True
  | S k' =>
      exec versionRe s 0 = None /\
      match s with [] => True | _ :: s' => quiet k' s' end
  end.

(** An environment in which nothing fails and every command prints [out]. *)
Definition quiet_env (out : bytes) : env :=
  {| fault := fun _ => false; output := fun _ _ => out; umask := 18; clock := 0 |}.

(** The arguments of the describe command. *)
Definition describe_args : list string := ["describe"; "--always"; "--dirty"].

(** The release marker can be opened and read, and holds [content]. *)
Definition release_holds (E : env) (fs : gmap string inode) (content : bytes) : Prop :=
  (exists f, fs !! "RELEASE" = Some f /\ f_data f = content) /\
  fault E (OpOpen "RELEASE") = false /\
  fault E (OpReadAll "RELEASE") = false.

Definition release_readable (E : env) (fs : gmap string inode) : Prop :=
  exists content, release_holds E fs content.

(** The describe command exits with status 0. *)
Definition describe_ok (E : env) : Prop :=
  fault E (OpCommand "git" describe_args) = false.

(** A regular file with the given bytes. *)
Definition regular (data : bytes) : inode :=
  {| f_data := data; f_mode := 420; f_modTime := 0 |}.

(** The six ASCII white-space bytes. *)
Definition ascii_space (b : byte) : bool :=
  byte_in 9 13 b || Byte.eqb b x20.

(** An ASCII byte that is not white space. *)
Definition ascii_nonspace (b : byte) : bool :=
  byte_in 0 127 b && negb (ascii_space b).

(** [ws] is white space: encoded white-space runes, one after the other. *)
Definition white_space (ws : bytes) : Prop :=
  exists runes, Forall (fun e => In e space_encodings) runes /\ ws = concat runes.

(** [core] is [content] without the white space at its two ends: what is
    cut off on either side is white space, and [core] neither starts nor
    ends with a white-space rune. *)
Definition trimmed (content core : bytes) : Prop :=
  exists ws1 ws2,
    content = ws1 ++ core ++ ws2 /\ white_space ws1 /\ white_space ws2 /\
    (forall e, In e space_encodings -> ~ e `prefix_of` core) /\
    (forall e, In e space_encodings -> ~ e `suffix_of` core).

(** [core] is empty or starts and ends with an ASCII byte that is not
    white space. *)
Definition ascii_ends (core : bytes) : Prop :=
  (forall a, head core = Some a -> ascii_nonspace a = true) /\
  (forall z, last core = Some z -> ascii_nonspace z = true).

(** [out] is [v] normalized as the specification words it: wherever the
    describe suffix occurs the byte is a plus sign, every other byte is
    the byte of [v], and the length is the same. *)
Definition normalized (v out : bytes) : Prop :=
  length out = length v /\
  (forall i, describe_suffix_at v i -> out !! i = Some "+"%byte) /\
  (forall i, ~ describe_suffix_at v i -> out !! i = v !! i).

(** The text the gate looks for, as the specification words it: the
    words [go version go] followed by a <major>.<minor> token, at offset
    [i] of [ver]. *)
Definition go_version_at (ver : bytes) (i : nat) : Prop :=
  exists d1 d2 post,
    drop i ver = B "go version go" ++ d1 ++ "."%byte :: d2 ++ post /\
    d1 <> [] /\ d2 <> [] /\
    Forall (fun b => isDigit b = true) d1 /\
    Forall (fun b => isDigit b = true) d2.

Definition has_go_version (ver : bytes) : Prop := exists i, go_version_at ver i.

(** [s] does not go on with a digit. *)
Definition no_digit_next (s : bytes) : Prop :=
  match s with [] => True | c :: _ => isDigit c = false end.

(** The first such text in [ver] is at offset [i], and its token consists
    of the digit runs [d1] and [d2], taken whole. *)
Definition go_version_token (ver : bytes) (i : nat) (d1 d2 post : bytes) : Prop :=
  drop i ver = B "go version go" ++ d1 ++ "."%byte :: d2 ++ post /\
  d1 <> [] /\ d2 <> [] /\
  Forall (fun b => isDigit b = true) d1 /\
  Forall (fun b => isDigit b = true) d2 /\
  no_digit_next post /\
  forall j, j < i -> ~ go_version_at ver j.

Fixpoint digits_value (acc : Z) (ds : bytes) : Z :=
  match ds with
  | [] => acc
  | d :: ds' => digits_value (10 * acc + (Z.of_N (Byte.to_N d) - 48)) ds'
  end.

(** An instance of [strconv.ParseFloat] for tokens <digits>.<digits> of at
    most 15 digits, where the library takes its exact path: the digits as
    an integer and the power of ten are both [float64] values, and their
    quotient is rounded once.  Other strings are outside this instance and
    are answered with an error. *)
Definition ParseFloat_exact (s : string) : option float :=
  let bs := B s in
  let ip := take_while isDigit bs in
  match drop (length ip) bs with
  | "."%byte :: fp =>
      if forallb isDigit fp && (1 <=? length ip) && (1 <=? length fp)
         && (length ip + length fp <=? 15)
      then Some (PrimFloat.div
                   (PrimFloat.of_uint63 (Uint63.of_Z (digits_value 0 (ip ++ fp))))
                   (PrimFloat.of_uint63 (Uint63.of_Z (10 ^ Z.of_nat (length fp)))))
      else None
  | _ => None
  end.

(** The operations [tarGz(out, files)] performs, in order. *)
Definition tarGz_ops (out : string) (files : list archiveFile) : list op :=
  OpCreate out
  :: flat_map (fun f => [OpOpen (src f); OpStat (src f);
                         OpTarWriteHeader (dst f); OpCopy (src f)]) files
  ++ [OpTarClose; OpGzipClose; OpFileClose out].

(** The entry [tarGz] writes for a manifest entry whose source is [file]. *)
Definition tar_entry (f : archiveFile) (file : inode) : tar_Header * bytes :=
  ({| Name := dst f;
      Size := Z.of_nat (length (f_data file));
      Mode := int64 (f_mode file);
      ModTime := f_modTime file |},
   f_data file).

(** Every source of the manifest is in the file system. *)
Definition sources_exist (fs : gmap string inode) (files : list archiveFile) : Prop :=
  Forall (fun f => is_Some (fs !! src f)) files.

Definition no_faults (E : env) : Prop := forall o, fault E o = false.

(** A small tree to run the archive functions on. *)
Definition sample_fs : gmap string inode :=
  {[ "README.md"%string :=
       {| f_data := B "hello"; f_mode := 420; f_modTime := 1424000000 |} ]}.

Definition sample_manifest : list archiveFile :=
  [ {| src := "README.md"; dst := "pkg/README.txt"; perm := 493 |} ].

(** The operations [zipFile(out, files)] performs and checks, in order
    (the write of a text entry is not among them). *)
Definition zipFile_ops (out : string) (files : list archiveFile) : list op :=
  OpCreate out
  :: flat_map (fun f => [OpOpen (src f); OpStat (src f);
                         OpZipFileInfoHeader (src f);
                         if strings_HasSuffix (dst f) ".txt"
                         then OpReadAll (src f) else OpCopy (src f);
                         OpZipCreateHeader (dst f)]) files
  ++ [OpZipClose; OpFileClose out].

(** The writes of text entries [zipFile(out, files)] performs, whose
    results it drops. *)
Definition zipFile_writes (files : list archiveFile) : list op :=
  flat_map (fun f => if strings_HasSuffix (dst f) ".txt"
                     then [OpZipWrite (dst f)] else []) files.

(** The entry [zipFile] writes for a manifest entry whose source is [file]. *)
Definition zip_entry (f : archiveFile) (file : inode)
    : zip_FileHeader * bytes :=
  let size64 := uint64 (Z.of_nat (length (f_data file))) in
  if strings_HasSuffix (dst f) ".txt" then
    let bs := bytes_Replace (f_data file) [x0a] [x0a; x0d] (-1) in
    ({| zName := dst f; Method := zip_Deflate;
        UncompressedSize := uint32 (Z.of_nat (length bs));
        UncompressedSize64 := uint64 (Z.of_nat (length bs));
        zMode := f_mode file; zModTime := f_modTime file |},
     bs)
  else
    ({| zName := dst f; Method := zip_Deflate;
        UncompressedSize :=
          if (uint32max <? size64)%Z then uint32max else uint32 size64;
        UncompressedSize64 := size64;
        zMode := f_mode file; zModTime := f_modTime file |},
     f_data file).

(** [out] is [s] with one carriage return added next to every line feed,
    before or after it, and nothing else changed. *)
Inductive cr_added : bytes -> bytes -> Prop :=
| cr_added_nil : cr_added [] []
| cr_added_other b s out :
    b <> x0a -> cr_added s out -> cr_added (b :: s) (b :: out)
| cr_added_before s out :
    cr_added s out -> cr_added (x0a :: s) (x0d :: x0a :: out)
| cr_added_after s out :
    cr_added s out -> cr_added (x0a :: s) (x0a :: x0d :: out).

(** Number of occurrences of [b]. *)
Definition count_byte (b : byte) (s : bytes) : nat :=
  length (List.filter (Byte.eqb b) s).

(** An environment in which exactly the writes to zip entries fail. *)
Definition zip_write_fails : env :=
  {| fault := fun o => match o with OpZipWrite _ => true | _ => false end;
     output := fun _ _ => []; umask := 18; clock := 0 |}.

(** A tree with two text files and the files of a release. *)
Definition text_fs : gmap string inode :=
  {[ "unix.md"%string := regular (B "a" ++ [x0a] ++ B "b" ++ [x0a]);
     "dos.md"%string := regular (B "a" ++ [x0d; x0a]) ]}.


(** An environment in which exactly the copies of file contents fail. *)
Definition copy_fails : env :=
  {| fault := fun o => match o with OpCopy _ => true | _ => false end;
     output := fun _ _ => []; umask := 18; clock := 0 |}.

(** The string has no opening brace, so no part of a placeholder. *)
Definition no_brace (s : string) : Prop :=
  Forall (fun b => b <> "{"%byte) (B s).

(** [re] matches a prefix of [s] of length [n]. *)
Inductive matches : regex -> bytes -> nat -> Prop :=
| matches_nil s : matches [] s 0
| matches_save re s n : matches re s n -> matches (Save :: re) s n
| matches_chars cls lo hi re s j n :
    lo <= j -> j <= cap hi (span cls s) ->
    matches re (drop j s) n ->
    matches (Chars cls lo hi :: re) s (j + n).

(** The process has not ended, or it has ended through [log.Fatal(err)]. *)
Definition checked {A} (p : proc A) : Prop :=
  match p with
  | Done _ => True
  | Exit st m => st = 1%Z /\ exists e, m = FatalErr e
  end.

(** Reading hex digits back: the value of a digit, and the bytes that a
    string of digit pairs spells. *)
Definition hex_value (c : byte) : N :=
  if byte_in 48 57 c then (Byte.to_N c - 48)%N else (Byte.to_N c - 87)%N.

Fixpoint unhex (s : bytes) : bytes :=
  match s with
  | h :: l :: s' =>
      byte_of_Z (Z.of_N (16 * hex_value h + hex_value l)) :: unhex s'
  | _ => []
  end.

(** The commands the [switch] of [main] knows. *)
Definition known_commands : list string :=
  [ "setup"; "install"; "build"; "test"; "assets"; "xdr"; "translate";
    "transifex"; "deps"; "tar"; "zip"; "deb"; "clean"; "vet"; "lint" ]%string.

Definition known_command (cmd : string) : bool :=
  existsb (String.eqb cmd) known_commands.

(** [s] holds no path separator. *)
Definition no_sep (s : string) : Prop :=
  Forall (fun b => is_sep b = false) (B s).

(** The files of a release for windows. *)
Definition windows_fs : gmap string inode :=
  {[ "README.md"%string := regular (B "readme" ++ [x0a]);
     "LICENSE"%string := regular (B "license" ++ [x0a]);
     "AUTHORS"%string := regular (B "authors" ++ [x0a]);
     "syncthing.exe"%string := regular [x4d; x5a; x0a; x00];
     "syncthing.exe.md5"%string := regular (B "checksum" ++ [x0a]) ]}.

(** ** Package strconv and the verb [%d] *)

Inductive num_error : Type := ErrSyntax | ErrRange.

Definition maxUint64 : Z := (2 ^ 64 - 1)%Z.

(** The digit loop of [strconv.ParseUint(s, 10, 64)]; [n] is the value
    read so far.  In base 10 a byte that is not a decimal digit is a
    syntax error, with value 0.  When the next digit takes the value past
    64 bits the loop stops at once with the largest value and a range
    error, without a look at the bytes that follow. *)
Fixpoint ParseUint_loop (s : bytes) (n : Z) : Z * option num_error :=
  match s with
  | [] => (n, None)
  | d :: s' =>
      if isDigit d then
        let v := (Z.of_N (Byte.to_N d) - 48)%Z in
        if (maxUint64 / 10 + 1 <=? n)%Z then (maxUint64, Some ErrRange)
        else
          let n10 := uint64 (n * 10) in
          let n1 := uint64 (n10 + v) in
          if ((n1 <? n10) || (maxUint64 <? n1))%Z
          then (maxUint64, Some ErrRange)
          else ParseUint_loop s' n1
      else (0%Z, Some ErrSyntax)
  end.

(** [strconv.ParseUint(s, 10, 64)] *)
Definition strconv_ParseUint (s : bytes) : Z * option num_error :=
  match s with
  | [] => (0%Z, Some ErrSyntax)
  | _ :: _ => ParseUint_loop s 0
  end.

(** [strconv.ParseInt(s, 10, 64)]: the value returned and the error. *)
Definition strconv_ParseInt (s : string) : Z * option num_error :=
  match B s with
  | [] => (0%Z, Some ErrSyntax)
  | c :: rest =>
      let '(neg, ds) :=
        if Byte.eqb c "+" then (false, rest)
        else if Byte.eqb c "-" then (true, rest)
        else (false, c :: rest) in
      match strconv_ParseUint ds with
      | (_, Some ErrSyntax) => (0%Z, Some ErrSyntax)
      | (un, _) =>
          let cutoff := (2 ^ 63)%Z in
          if negb neg && (cutoff <=? un)%Z then ((cutoff - 1)%Z, Some ErrRange)
          else if neg && (cutoff <? un)%Z then ((- cutoff)%Z, Some ErrRange)
          else (if neg then int64 (- int64 un) else int64 un, None)
      end
  end.

(** The decimal digits of a number that is not negative, most significant
    first; [fuel] bounds their number. *)
Fixpoint fmt_digits (fuel : nat) (n : Z) (acc : bytes) : bytes :=
  match fuel with
  | O => acc
  | S fuel' =>
      let acc' := byte_of_Z (48 + n mod 10) :: acc in
      if (n <? 10)%Z then acc' else fmt_digits fuel' (n / 10) acc'
  end.

(** [fmt.Sprintf("%d", n)] for an [int64]: at most 19 digits. *)
Definition fmt_d (n : Z) : string :=
  string_of_list_byte
    (if (n <? 0)%Z then "-"%byte :: fmt_digits 20 (- n) [] else fmt_digits 20 n []).

(** ** Package strings, continued *)

(** [strings.Join(a, sep)] *)
Fixpoint strings_Join (a : list string) (sep : string) : string :=
  match a with
  | [] => ""
  | [s] => s
  | s :: a' => s +:+ sep +:+ strings_Join a' sep
  end.

(** The loop of [bytes.Split(s, sep)] for a non-empty [sep]: [cur] is the
    current piece, last byte first, and [skip] the bytes of the separator
    still to pass. *)
Fixpoint split_loop (sep : bytes) (skip : nat) (cur : bytes) (s : bytes)
    : list bytes :=
  match s with
  | [] => [rev cur]
  | c :: s' =>
      match skip with
      | S k => split_loop sep k cur s'
      | O =>
          if has_prefix sep s
          then rev cur :: split_loop sep (length sep - 1) [] s'
          else split_loop sep 0 (c :: cur) s'
      end
  end.

(** [bytes.Split(s, sep)]; the script only passes a non-empty literal for
    [sep] (an empty one splits after every rune, which is not modelled). *)
Definition bytes_Split (s sep : bytes) : list bytes :=
  match sep with
  | [] => [s]
  | _ :: _ => split_loop sep 0 [] s
  end.

(** ** The rest of the environment *)

(** Operations outside the archive and checksum code that may fail. *)
Inductive sysop : Type :=
| SysRemove (path : string)     (* removing one file, within os.RemoveAll *)
| SysWrite (path : string)      (* f.Write, within ioutil.WriteFile *)
| SysRename (oldpath newpath : string)
| SysGetwd
| SysUserCurrent
| SysHostname.

Record host : Type := {
  sysfault : sysop -> bool;
  username : string;            (* user.Current().Username *)
  hostname : string;            (* os.Hostname() *)
  getwd : string;               (* os.Getwd() *)
  now_RFC1123 : string;         (* time.Now().Format(time.RFC1123) *)
  (* err.Error() for the error of a command that failed *)
  cmd_error : string -> list string -> string;
  (* what a command writes to its standard output *)
  stdout : string -> list string -> bytes;
  (* what a command started by runPrint does to the files, given the
     environment variables it is started with *)
  effect : gmap string string -> string -> list string ->
           gmap string inode -> gmap string inode
}.

(** The package-level variables that the flags set. *)
Record options : Type := {
  opt_goarch : string;
  opt_goos : string;
  opt_noupgrade : bool;
  opt_version : string;
  opt_race : bool
}.

(** What the script changes: the environment variables of the process and
    the files. *)
Record world : Type := {
  w_vars : gmap string string;
  w_files : gmap string inode
}.

(** [os.Getenv(key)] *)
Definition os_Getenv (vars : gmap string string) (key : string) : string :=
  match vars !! key with Some v => v | None => "" end.

(** [os.Setenv(key, value)] with the error dropped, for the keys of the
    script (not empty, without [=] or NUL): a value that holds a NUL byte
    is refused and the variable stays as it is. *)
Definition os_Setenv (vars : gmap string string) (key value : string)
    : gmap string string :=
  if existsb (Byte.eqb x00) (B value) then vars else <[key := value]> vars.

(** ** Package path/filepath on a Unix host *)

(** The elements of a path, the empty ones between two separators
    included. *)
Definition path_elems (path : string) : list string :=
  map string_of_list_byte (bytes_Split (B path) (B "/")).

(** One element of [filepath.Clean]: [out] are the elements kept so far,
    the last one first. *)
Definition clean_step (rooted : bool) (out : list string) (e : string)
    : list string :=
  if String.eqb e "" || String.eqb e "." then out
  else if String.eqb e ".." then
    match out with
    | top :: out' => if String.eqb top ".." then e :: out else out'
    | [] => if rooted then [] else [e]
    end
  else e :: out.

(** [filepath.Clean(path)] *)
Definition filepath_Clean (path : string) : string :=
  match B path with
  | [] => "."
  | c :: _ =>
      let rooted := is_sep c in
      let out := rev (fold_left (clean_step rooted) (path_elems path) []) in
      let body := strings_Join out "/" in
      if rooted then "/" +:+ body
      else if String.eqb body "" then "." else body
  end.

(** [filepath.Join(elem...)]: the elements from the first non-empty one on
    are joined and the result is cleaned. *)
Fixpoint filepath_Join (elem : list string) : string :=
  match elem with
  | [] => ""
  | e :: elem' =>
      if String.eqb e "" then filepath_Join elem'
      else filepath_Clean (strings_Join elem "/")
  end.

(** [dir] itself or a path below it. *)
Definition under (dir path : string) : bool :=
  String.eqb path dir || has_prefix (B dir ++ [x2f]) (B path).

(** [os.RemoveAll(path)] with the error dropped: it removes what it can. *)
Definition os_RemoveAll (H : host) (fs : gmap string inode) (path : string)
    : gmap string inode :=
  filter (fun kv => (under path kv.1 && negb (sysfault H (SysRemove kv.1))) = false) fs.

(** [rmr(paths...)] *)
Definition rmr (H : host) (fs : gmap string inode) (paths : list string)
    : gmap string inode :=
  fold_left (os_RemoveAll H) paths fs.

(** ** What goes into the binary *)

(** [buildStamp()] *)
Definition buildStamp (E : env) : Z :=
  let '(bs, err) := runError E "git" ["show"; "-s"; "--format=%ct"] in
  match err with
  | Some _ => clock E
  | None => fst (strconv_ParseInt (string_of_list_byte bs))
  end.

(** [buildUser()] *)
Definition buildUser (H : host) : string :=
  if sysfault H SysUserCurrent then "unknown-user"
  else strings_Replace (username H) " " "-" (-1).

(** [buildHost()] *)
Definition buildHost (H : host) : string :=
  if sysfault H SysHostname then "unknown-host" else hostname H.

(** [buildEnvironment()] *)
Definition buildEnvironment (vars : gmap string string) : string :=
  let v := os_Getenv vars "ENVIRONMENT" in
  if 0 <? String.length v then v else "default".

(** [ldflags()] *)
Definition ldflags (E : env) (H : host) (O : options) (vars : gmap string string)
    : string :=
  "-w"
  +:+ (" -X main.Version " +:+ opt_version O)
  +:+ (" -X main.BuildStamp " +:+ fmt_d (buildStamp E))
  +:+ (" -X main.BuildUser " +:+ buildUser H)
  +:+ (" -X main.BuildHost " +:+ buildHost H)
  +:+ (" -X main.BuildEnv " +:+ buildEnvironment vars).

(** [setBuildEnv()]; when [os.Getwd] fails it returns the empty string,
    and the script goes on after a warning. *)
Definition setBuildEnv (H : host) (O : options) (vars : gmap string string)
    : gmap string string :=
  let vars := os_Setenv vars "GOOS" (opt_goos O) in
  let vars := os_Setenv vars "GOARCH" (opt_goarch O) in
  let wd := if sysfault H SysGetwd then "" else getwd H in
  os_Setenv vars "GOPATH"
    (filepath_Join [wd; "Godeps"; "_workspace"] +:+ ":" +:+ os_Getenv vars "GOPATH").

(** The start of [main()]: [GOPATH] is derived from the working directory
    when it is not set, and its [bin] is put in front of [PATH].  [None]
    is [log.Fatal(err)] for the error of [os.Getwd]. *)
Definition main_environment (H : host) (vars : gmap string string)
    : option (gmap string string) :=
  opt! vars <-
    (if String.eqb (os_Getenv vars "GOPATH") "" then
       if sysfault H SysGetwd then None
       else
         let gopath := filepath_Clean (filepath_Join [getwd H; "../../../../"]) in
         Some (os_Setenv vars "GOPATH" gopath)
     else Some vars);
  Some (os_Setenv vars "PATH"
          (os_Getenv vars "GOPATH" +:+ "/" +:+ "bin" +:+ ":" +:+ os_Getenv vars "PATH")).

(** ** Running the toolchain *)

(** [runPrint(cmd, args...)] *)
Definition runPrint (E : env) (H : host) (w : world) (cmd : string)
    (args : list string) : proc world :=
  if fault E (OpCommand cmd args) then log_Fatal (EIO (OpCommand cmd args))
  else Done {| w_vars := w_vars w;
               w_files := effect H (w_vars w) cmd args (w_files w) |}.

(** The arguments both [install] and [build] add after the link flags. *)
Definition tags_race_pkg (O : options) (pkg : string) (tags : list string)
    : list string :=
  (if 0 <? length tags then ["-tags"; strings_Join tags ","] else [])
  ++ (if opt_race O then ["-race"] else [])
  ++ [pkg].

(** [install(pkg, tags)] *)
Definition install (E : env) (H : host) (O : options) (w : world)
    (pkg : string) (tags : list string) : proc world :=
  let vars := os_Setenv (w_vars w) "GOBIN" "./bin" in
  let args := ["install"; "-v"; "-ldflags"; ldflags E H O vars]
              ++ tags_race_pkg O pkg tags in
  let vars := setBuildEnv H O vars in
  runPrint E H {| w_vars := vars; w_files := w_files w |} "go" args.

(** The name [build] gives the binary. *)
Definition binary_name (O : options) : string :=
  if String.eqb (opt_goos O) "windows" then "syncthing" +:+ ".exe" else "syncthing".

(** The arguments [build] passes to the go command. *)
Definition build_args (E : env) (H : host) (O : options)
    (vars : gmap string string) (pkg : string) (tags : list string)
    : list string :=
  ["build"; "-ldflags"; ldflags E H O vars] ++ tags_race_pkg O pkg tags.

(** [build(pkg, tags)] *)
Definition build (E : env) (H : host) (O : options) (w : world)
    (pkg : string) (tags : list string) : proc world :=
  let binary := binary_name O in
  let fs := rmr H (w_files w) [binary; binary +:+ ".md5"] in
  let args := build_args E H O (w_vars w) pkg tags in
  let vars := setBuildEnv H O (w_vars w) in
  run! w <- runPrint E H {| w_vars := vars; w_files := fs |} "go" args;
  run! fs <- build_checksum E (w_files w) binary;
  Done {| w_vars := w_vars w; w_files := fs |}.

(** ** The deb tree *)

(** [os.OpenFile(name, os.O_CREATE|os.O_TRUNC|os.O_WRONLY, perm)]: [perm]
    less the umask is the mode of a file that is created; a file that
    exists is emptied and keeps its mode. *)
Definition os_OpenFile (E : env) (fs : gmap string inode) (name : string)
    (perm : Z) : res (gmap string inode) :=
  try! _ <- attempt E (OpCreate name);
  let mode := match fs !! name with
              | Some f => f_mode f
              | None => Z.land perm (Z.lnot (umask E))
              end in
  Ok (<[name := {| f_data := []; f_mode := mode; f_modTime := clock E |}]> fs).

(** [copyFile(src, dst, perm)] from [os.Open(src)] on: the error it
    returns and the files it leaves.  The two lines before, which make
    the directories of [dst] and drop the error, change no file; they are
    part of [copyFile_tree] below.  When the directory could not be made
    the open of [dst] is what fails.  [io.Copy] reads what the file of
    [srcFd] holds when the copy starts, which is after [dst] has been
    emptied.  Both results of [Close] are dropped. *)
Definition copyFile (E : env) (fs : gmap string inode) (src dst : string)
    (perm : Z) : res unit * gmap string inode :=
  match os_Open E fs src with
  | Err e => (Err e, fs)
  | Ok srcFd =>
      match os_OpenFile E fs dst perm with
      | Err e => (Err e, fs)
      | Ok fs1 =>
          match attempt E (OpCopy src) with
          | Err e => (Err e, fs1)
          | Ok _ =>
              let data := match fs1 !! fd_path srcFd with
                          | Some f => f_data f
                          | None => []
                          end in
              (Ok tt,
               alter (fun f => {| f_data := data; f_mode := f_mode f;
                                  f_modTime := f_modTime f |}) dst fs1)
          end
      end
  end.

(** [filepath.Dir(path)]: the path up to its last separator, cleaned. *)
Definition filepath_Dir (path : string) : string :=
  let dir := rev (drop_while (fun b => negb (is_sep b)) (rev (B path))) in
  filepath_Clean (string_of_list_byte dir).

(** The directories of the tree are a set of paths; [.] and [/] are
    always there. *)
Definition is_dir (dirs : gset string) (path : string) : bool :=
  String.eqb path "." || String.eqb path "/" || bool_decide (path ∈ dirs).

(** [os.Mkdir(name, perm)] where [name] is not there. *)
Definition os_Mkdir (E : env) (dirs : gset string) (name : string)
    : res unit * gset string :=
  if String.eqb name "" || fault E (OpMkdir name)
  then (Err (EIO (OpMkdir name)), dirs)
  else (Ok tt, {[ name ]} ∪ dirs).

(** The path [os.MkdirAll] makes before [path]: with the separators at
    the end of [path] skipped and its last element starting at offset
    [j], it is [path[0:j-1]], when [j > 1]. *)
Definition mkdir_parent (path : bytes) : option bytes :=
  let upto_i := rev (drop_while is_sep (rev path)) in
  let upto_j := rev (drop_while (fun b => negb (is_sep b)) (rev upto_i)) in
  if 1 <? length upto_j then Some (take (length upto_j - 1) upto_j) else None.

(** [os.MkdirAll(path, perm)]: the error and the directories there are
    afterwards.  A path that is a directory is left alone; one that is a
    file is an error; otherwise the parent is made in the same way, and
    then the directory itself.  [fuel] bounds the depth, the length of
    [path] is enough.  [Stat] is taken to fail only where nothing is. *)
Fixpoint os_MkdirAll_rec (fuel : nat) (E : env) (fs : gmap string inode)
    (dirs : gset string) (path : bytes) : res unit * gset string :=
  let name := string_of_list_byte path in
  if is_dir dirs name then (Ok tt, dirs)
  else if bool_decide (is_Some (fs !! name))
  then (Err (EIO (OpMkdir name)), dirs)
  else
    let made :=
      match fuel, mkdir_parent path with
      | S fuel', Some parent => os_MkdirAll_rec fuel' E fs dirs parent
      | _, _ => (Ok tt, dirs)
      end in
    match fst made with
    | Err e => (Err e, snd made)
    | Ok _ => os_Mkdir E (snd made) name
    end.

Definition os_MkdirAll (E : env) (fs : gmap string inode) (dirs : gset string)
    (path : string) : res unit * gset string :=
  os_MkdirAll_rec (String.length path) E fs dirs (B path).

(** [copyFile(src, dst, perm)] with the directories: the error it
    returns, the files and the directories it leaves. *)
Definition copyFile_tree (E : env) (fs : gmap string inode) (dirs : gset string)
    (src dst : string) (perm : Z)
    : res unit * gmap string inode * gset string :=
  let dstDir := filepath_Dir dst in
  (* os.MkdirAll(dstDir, 0755) // ignore error *)
  let dirs1 := snd (os_MkdirAll E fs dirs dstDir) in
  match os_Open E fs src with
  | Err e => (Err e, fs, dirs1)
  | Ok srcFd =>
      match os_OpenFile E fs dst perm with
      | Err e => (Err e, fs, dirs1)
      | Ok fs1 =>
          match attempt E (OpCopy src) with
          | Err e => (Err e, fs1, dirs1)
          | Ok _ =>
              let data := match fs1 !! fd_path srcFd with
                          | Some f => f_data f
                          | None => []
                          end in
              (Ok tt,
               alter (fun f => {| f_data := data; f_mode := f_mode f;
                                  f_modTime := f_modTime f |}) dst fs1,
               dirs1)
          end
      end
  end.

(** [ioutil.WriteFile(filename, data, perm)]: whether it returns nil, and
    the files it leaves. *)
Definition ioutil_WriteFile (E : env) (H : host) (fs : gmap string inode)
    (filename : string) (data : bytes) (perm : Z) : bool * gmap string inode :=
  match os_OpenFile E fs filename perm with
  | Err _ => (false, fs)
  | Ok fs1 =>
      if sysfault H (SysWrite filename) then (false, fs1)
      else
        let fs2 := alter (fun f => {| f_data := data; f_mode := f_mode f;
                                      f_modTime := f_modTime f |}) filename fs1 in
        (negb (fault E (OpFileClose filename)), fs2)
  end.

(** The manifest of [buildDeb()]; [extra] is what [listFiles("extra")]
    returns. *)
Definition buildDeb_files (extra : list string) : list archiveFile :=
  [ {| src := "README.md"; dst := "deb/usr/share/doc/syncthing/README.txt"; perm := 420 |};
    {| src := "LICENSE"; dst := "deb/usr/share/doc/syncthing/LICENSE.txt"; perm := 420 |};
    {| src := "AUTHORS"; dst := "deb/usr/share/doc/syncthing/AUTHORS.txt"; perm := 420 |};
    {| src := "syncthing"; dst := "deb/usr/bin/syncthing"; perm := 493 |} ]
  ++ map (fun file => {| src := file;
                         dst := "deb/usr/share/doc/syncthing/" +:+ filepath_Base file;
                         perm := 420 |}) extra.

(** The copy loop of [buildDeb()]. *)
Fixpoint buildDeb_copy (E : env) (fs : gmap string inode)
    (files : list archiveFile) : proc (gmap string inode) :=
  match files with
  | [] => Done fs
  | af :: files' =>
      match copyFile E fs (src af) (dst af) (perm af) with
      | (Err e, _) => log_Fatal e
      | (Ok _, fs') => buildDeb_copy E fs' files'
      end
  end.

(** The end of [buildDeb()]: the three control files are written, and no
    result is looked at. *)
Definition buildDeb_control (E : env) (H : host) (fs : gmap string inode)
    (control changelog : string) : gmap string inode :=
  (* os.MkdirAll("deb/DEBIAN", 0755) makes no file *)
  let fs := snd (ioutil_WriteFile E H fs "deb/DEBIAN/control" (B control) 420) in
  let fs := snd (ioutil_WriteFile E H fs "deb/DEBIAN/compat" (B "9" ++ [x0a]) 420) in
  snd (ioutil_WriteFile E H fs "deb/DEBIAN/changelog" (B changelog) 420).

Section Packaging.

(** [listFiles(dir)]: the regular files that [filepath.Walk] meets below
    [dir], in its order.  The map of files has no directories; the walk
    itself is the subject of [walk], on a tree. *)
Variable listFiles : gmap string inode -> string -> list string.

(** The command [tar]: [buildTar()] with the build it starts with. *)
Definition tar_command (E : env) (H : host) (O : options) (w : world)
    : proc (list (tar_Header * bytes)) :=
  run! w <- build E H O w "./cmd/syncthing" (upgrade_tags (opt_noupgrade O));
  buildTar E (w_files w) (opt_goos O) (opt_goarch O) (opt_version O)
    (opt_noupgrade O)
    (listFiles (w_files w) "etc") (listFiles (w_files w) "extra").

(** The command [zip]: [buildZip()] with the build it starts with. *)
Definition zip_command (E : env) (H : host) (O : options) (w : world)
    : proc (list (zip_FileHeader * bytes)) :=
  run! w <- build E H O w "./cmd/syncthing" (upgrade_tags (opt_noupgrade O));
  buildZip E (w_files w) (opt_goos O) (opt_goarch O) (opt_version O)
    (opt_noupgrade O) (listFiles (w_files w) "extra").

(** [buildDeb()]; [Done None] is the run-time panic of [version[1:]]. *)
Definition buildDeb (E : env) (H : host) (O : options) (w : world)
    : proc (option world) :=
  let w := {| w_vars := w_vars w;
              w_files := os_RemoveAll H (w_files w) "deb" |} in
  run! w <- build E H O w "./cmd/syncthing" ["noupgrade"];
  let files := buildDeb_files (listFiles (w_files w) "extra") in
  run! fs <- buildDeb_copy E (w_files w) files;
  match deb_templates (opt_goarch O) (opt_version O) (now_RFC1123 H) with
  | None => Done None
  | Some (control, changelog) =>
      Done (Some {| w_vars := w_vars w;
                    w_files := buildDeb_control E H fs control changelog |})
  end.

End Packaging.

(** The arguments of the command that prints the commit time. *)
Definition show_args : list string := ["show"; "-s"; "--format=%ct"].

(** An environment in which no command fails and [git show] prints [out]. *)
Definition stamp_env (out : bytes) : env :=
  {| fault := fun _ => false; output := fun _ _ => out; umask := 18; clock := 1700000000 |}.

(** The string holds no space. *)
Definition no_space (s : string) : Prop := Forall (fun b => b <> x20) (B s).

(** The string holds no NUL byte. *)
Definition no_nul (s : string) : Prop := Forall (fun b => b <> x00) (B s).

(** A host on which nothing fails and commands leave the files alone. *)
Definition sample_host : host :=
  {| sysfault := fun _ => false;
     username := "Jakob Borg";
     hostname := "build01";
     getwd := "/home/jb/src/github.com/syncthing/syncthing";
     now_RFC1123 := "Mon, 16 Feb 2015 10:00:00 CET";
     cmd_error := fun _ _ => "exit status 1";
     stdout := fun _ _ => B "{}";
     effect := fun _ _ _ fs => fs |}.

Definition linux_amd64 : options :=
  {| opt_goarch := "amd64"; opt_goos := "linux"; opt_noupgrade := false;
     opt_version := "v0.10.23"; opt_race := false |}.

(** The workspace directory that [setBuildEnv] puts in front of [GOPATH]. *)
Definition godeps_workspace (H : host) : string :=
  filepath_Join [(if sysfault H SysGetwd then "" else getwd H); "Godeps"; "_workspace"].

(** A path element that names a file or a directory: not empty, not [.]
    or [..], without separator and without NUL. *)
Definition proper_elem (e : string) : Prop :=
  e <> ""%string /\ e <> "."%string /\ e <> ".."%string /\ no_sep e /\ no_nul e.

(** A host whose go command writes the binary for the target it is given
    in [GOOS], and does nothing else. *)
Definition toolchain_host : host :=
  {| sysfault := fun _ => false;
     username := "jb";
     hostname := "build01";
     getwd := "/home/jb/src/github.com/syncthing/syncthing";
     now_RFC1123 := "Mon, 16 Feb 2015 10:00:00 CET";
     cmd_error := fun _ _ => "exit status 1";
     stdout := fun _ _ => B "{}";
     effect := fun vars cmd args fs =>
       if String.eqb cmd "go" then
         <[(if String.eqb (os_Getenv vars "GOOS") "windows"
            then "syncthing.exe" else "syncthing")%string
           := {| f_data := B "fresh"; f_mode := 493; f_modTime := 1424000001 |}]> fs
       else fs |}.

Definition windows_386 : options :=
  {| opt_goarch := "386"; opt_goos := "windows"; opt_noupgrade := false;
     opt_version := "v0.10.23"; opt_race := false |}.

(** No files are found below the directories that are scanned. *)
Definition nothing_scanned : gmap string inode -> string -> list string :=
  fun _ _ => [].

(** The files of a source tree in which both binaries are left from
    earlier runs. *)
Definition stale_fs : gmap string inode :=
  {[ "README.md"%string := regular (B "readme" ++ [x0a]);
     "LICENSE"%string := regular (B "license" ++ [x0a]);
     "AUTHORS"%string := regular (B "authors" ++ [x0a]);
     "syncthing"%string := regular (B "old");
     "syncthing.md5"%string := regular (B "old sum");
     "syncthing.exe"%string := regular (B "old exe");
     "syncthing.exe.md5"%string := regular (B "old exe sum") ]}.

Definition stale_world : world := {| w_vars := ∅; w_files := stale_fs |}.

(** What the go command started by [build] leaves. *)
Definition built (E : env) (H : host) (O : options) (w : world)
    (pkg : string) (tags : list string) : gmap string inode :=
  effect H (setBuildEnv H O (w_vars w)) "go"
    (build_args E H O (w_vars w) pkg tags)
    (rmr H (w_files w) [binary_name O; binary_name O +:+ ".md5"]).

(** The go command, started with the variables [vars], leaves the file at
    [path] as it is. *)
Definition toolchain_keeps (H : host) (vars : gmap string string)
    (path : string) : Prop :=
  forall args fs, effect H vars "go" args fs !! path = fs !! path.

(** The file [copyFile] leaves at the destination when it returns nil:
    the bytes of the source, or nothing when the source is the destination
    itself; the mode the destination had, or [perm] less the umask when
    it was not there. *)
Definition copied (E : env) (fs : gmap string inode) (src dst : string)
    (perm : Z) (from : inode) : inode :=
  {| f_data := if String.eqb src dst then [] else f_data from;
     f_mode := match fs !! dst with
               | Some old => f_mode old
               | None => Z.land perm (Z.lnot (umask E))
               end;
     f_modTime := clock E |}.

(** A tree with a document that an earlier run has installed read-only. *)
Definition installed_fs : gmap string inode :=
  {[ "README.md"%string := regular (B "new text");
     "deb/README.txt"%string :=
       {| f_data := B "old text"; f_mode := 292; f_modTime := 1 |} ]}.

(** A tree in which two files below [extra] have the same last element,
    which is also the name [buildDeb] gives the readme. *)
Definition clash_fs : gmap string inode :=
  {[ "README.md"%string := regular (B "the readme");
     "extra/a/README.txt"%string := regular (B "first");
     "extra/b/README.txt"%string := regular (B "second") ]}.

Definition clash_manifest : list archiveFile :=
  [ {| src := "README.md"; dst := "deb/usr/share/doc/syncthing/README.txt"; perm := 420 |};
    {| src := "extra/a/README.txt"; dst := "deb/usr/share/doc/syncthing/README.txt"; perm := 420 |};
    {| src := "extra/b/README.txt"; dst := "deb/usr/share/doc/syncthing/README.txt"; perm := 420 |} ].

(** The control files of the deb tree. *)
Definition control_files : list string :=
  [ "deb/DEBIAN/control"; "deb/DEBIAN/compat"; "deb/DEBIAN/changelog" ]%string.


(** ** Checking the sources *)

(** [bytes.Contains(b, subslice)] *)
Fixpoint bytes_Contains (b subslice : bytes) : bool :=
  has_prefix subslice b ||
  match b with
  | [] => false
  | _ :: b' => bytes_Contains b' subslice
  end.

(** [re.Match(b)] *)
Definition regexp_Match (re : regex) (b : bytes) : bool :=
  match find re b 0 with Some _ => true | None => false end.

(** What [vet] and [lint] log. *)
Inductive report : Type :=
| NoVet                 (* "- No go vet, no vetting. Try ..." *)
| NoGolint              (* "- No golint, not linting. Try ..." *)
| Line (line : bytes).  (* log.Printf("%s", line) *)

(** [regexp.MustCompile("composite literal uses unkeyed fields")] *)
Definition falseAlarmComposites : regex :=
  lits "composite literal uses unkeyed fields".

(** [regexp.MustCompile("exit status 1")] *)
Definition exitStatus : regex := lits "exit status 1".

(** The loop of [vet] over the lines of the output. *)
Fixpoint vet_lines (lines : list bytes) : list report :=
  match lines with
  | [] => []
  | line :: lines' =>
      if regexp_Match falseAlarmComposites line || regexp_Match exitStatus line
      then vet_lines lines'
      else Line line :: vet_lines lines'
  end.

(** The text [no such tool "vet"]. *)
Definition no_such_tool_vet : bytes :=
  B "no such tool " ++ [x22] ++ B "vet" ++ [x22].

(** [vet(pkg)]: what it logs.  In the condition [&&] binds tighter than
    [||]. *)
Definition vet (E : env) (H : host) (pkg : string) : list report :=
  let '(bs, err) := runError E "go" ["vet"; pkg] in
  if (match err with
      | Some _ => String.eqb (cmd_error H "go" ["vet"; pkg]) "exit status 3"
      | None => false
      end)
     || bytes_Contains bs no_such_tool_vet
  then [NoVet]
  else vet_lines (bytes_Split bs [x0a]).

(** The class [[^\s]]: every byte but tab, line feed, form feed, carriage
    return and space.  A rune of more than one byte has none of these
    among its bytes, so a run of such runes is a run of such bytes. *)
Definition not_space (b : byte) : bool :=
  negb (Byte.eqb b x09 || Byte.eqb b x0a || Byte.eqb b x0c || Byte.eqb b x0d
        || Byte.eqb b x20).

(** The alternatives of the group in the pattern of [lint]. *)
Definition exported_kinds : list string :=
  [ "function"; "method"; "const"; "type"; "var" ]%string.

(** [regexp.MustCompile(`exported (function|method|const|type|var) [^\s]+
    should have comment`)], one pattern for each alternative of the group:
    the pattern has a match in a line exactly when one of these has, and
    [Match] reports nothing but that. *)
Definition analCommentPolicy : list regex :=
  map (fun kind => lits "exported " ++ lits kind ++ lits " "
                   ++ [Chars not_space 1 None] ++ lits " should have comment")
      exported_kinds.

(** The loop of [lint] over the lines of the output. *)
Fixpoint lint_lines (lines : list bytes) : list report :=
  match lines with
  | [] => []
  | line :: lines' =>
      if existsb (fun re => regexp_Match re line) analCommentPolicy
      then lint_lines lines'
      else Line line :: lint_lines lines'
  end.

(** [lint(pkg)]: what it logs. *)
Definition lint (E : env) (pkg : string) : list report :=
  let '(bs, err) := runError E "golint" [pkg] in
  match err with
  | Some _ => [NoGolint]
  | None => lint_lines (bytes_Split bs [x0a])
  end.

(** [p] occurs in [s]. *)
Definition occurs (p s : bytes) : Prop := exists pre post, s = pre ++ p ++ post.

(** The line holds a complaint of golint about a missing comment, as the
    pattern of [lint] words it. *)
Definition comment_complaint (line : bytes) : Prop :=
  exists (pre : bytes) (kind : string) (name post : bytes),
    In kind exported_kinds /\ (name <> []) /\
    Forall (fun b => not_space b = true) name /\
    line = pre ++ B "exported " ++ B kind ++ B " " ++ name
               ++ B " should have comment" ++ post.

(** An environment in which the commands succeed and print [out], and
    one in which they print it and fail. *)
Definition failing_env (out : bytes) : env :=
  {| fault := fun _ => true; output := fun _ _ => out; umask := 18; clock := 0 |}.

(** What [vet] takes as the sign that the go command has no vet tool:
    the command failed with exit status 3, or its output mentions that
    there is no such tool. *)
Definition vet_no_tool (E : env) (H : host) (pkg : string) : Prop :=
  (fault E (OpCommand "go" ["vet"; pkg]) = true /\
   cmd_error H "go" ["vet"; pkg] = "exit status 3"%string) \/
  occurs no_such_tool_vet (bytes_TrimSpace (output E "go" ["vet"; pkg])).

(** ** Scanning a directory *)

(** What [filepath.Walk] meets below its root: files, directories with
    their entries in the order [Walk] takes them (sorted by name),
    directories whose names cannot be read, and entries for which [Lstat]
    fails. *)
Inductive tree : Type :=
| Regular                          (* a regular file *)
| Special                          (* a symlink, device, socket or pipe *)
| Directory (entries : forest)
| Unreadable                       (* a directory that cannot be read *)
| Vanished                         (* Lstat fails *)
with forest : Type :=
| NoEntry
| Entry (name : string) (child : tree) (rest : forest).

(** [filepath.Walk] with the function literal of [listFiles]: the paths
    appended to [res], and whether the walk has been stopped by an error.
    The literal returns the error it is given, which stops the walk; it
    appends the path of a regular file, and returns nil otherwise. *)
Fixpoint walk (t : tree) (path : string) (res : list string) {struct t}
    : list string * bool :=
  match t with
  | Regular => (res ++ [path], false)
  | Special => (res, false)
  | Vanished => (res, true)
  | Unreadable => (res, true)
  | Directory entries => walk_entries entries path res
  end
with walk_entries (es : forest) (path : string) (res : list string) {struct es}
    : list string * bool :=
  match es with
  | NoEntry => (res, false)
  | Entry name child es' =>
      let '(res', err) := walk child (filepath_Join [path; name]) res in
      if err then (res', true) else walk_entries es' path res'
  end.

(** [listFiles(dir)] for what lies at [dir]: the result of [Walk] is
    dropped. *)
Definition listFiles (dir : string) (root : tree) : list string :=
  fst (walk root dir []).

(** All regular files of a tree, in the order of the walk. *)
Fixpoint regular_files (t : tree) (path : string) {struct t} : list string :=
  match t with
  | Regular => [path]
  | Directory entries => regular_entries entries path
  | _ => []
  end
with regular_entries (es : forest) (path : string) {struct es} : list string :=
  match es with
  | NoEntry => []
  | Entry name child es' =>
      regular_files child (filepath_Join [path; name]) ++ regular_entries es' path
  end.

(** Nothing in the tree makes the walk fail. *)
Fixpoint readable (t : tree) {struct t} : bool :=
  match t with
  | Regular | Special => true
  | Unreadable | Vanished => false
  | Directory entries => readable_entries entries
  end
with readable_entries (es : forest) {struct es} : bool :=
  match es with
  | NoEntry => true
  | Entry _ child es' => readable child && readable_entries es'
  end.

(** Entries one after the other. *)
Fixpoint entries_app (es1 es2 : forest) : forest :=
  match es1 with
  | NoEntry => es2
  | Entry name child es1' => Entry name child (entries_app es1' es2)
  end.

(** A directory [etc] in which [b] cannot be read. *)
Definition broken_etc : tree :=
  Directory (Entry "a" (Directory (Entry "one" Regular NoEntry))
            (Entry "b" Unreadable
            (Entry "c" (Directory (Entry "two" Regular NoEntry)) NoEntry))).

Scheme tree_forest_ind := Induction for tree Sort Prop
  with forest_tree_ind := Induction for forest Sort Prop.

(** ** Regenerating the English translation *)

(** [os.Remove(name)] with the error dropped. *)
Definition os_Remove (H : host) (fs : gmap string inode) (name : string)
    : gmap string inode :=
  if sysfault H (SysRemove name) then fs else delete name fs.

(** [os.Rename(oldpath, newpath)]; [None] is an error.  A file at
    [newpath] is replaced. *)
Definition os_Rename (H : host) (fs : gmap string inode)
    (oldpath newpath : string) : option (gmap string inode) :=
  if sysfault H (SysRename oldpath newpath) then None
  else match fs !! oldpath with
       | None => None
       | Some f => Some (<[newpath := f]> (delete oldpath fs))
       end.

(** [runPipe(file, cmd, args...)]: whether it returns ([false] is
    [log.Fatal]), and the files it leaves.  The result of [fd.Close()] is
    dropped.  What a command that fails has written to the file before is
    not modelled: the file is left empty. *)
Definition runPipe (E : env) (H : host) (fs : gmap string inode)
    (file cmd : string) (args : list string) : bool * gmap string inode :=
  match os_Create E fs file with
  | Err _ => (false, fs)
  | Ok fs1 =>
      if fault E (OpCommand cmd args) then (false, fs1)
      else (true,
            alter (fun f => {| f_data := stdout H cmd args; f_mode := f_mode f;
                               f_modTime := f_modTime f |}) file fs1)
  end.

(** The command that [translate] runs. *)
Definition translate_args : list string :=
  [ "run"; "../../../cmd/translate/main.go"; "lang-en.json"; "../../index.html" ]%string.

(** [translate()]: whether it returns, and the files it leaves.  The
    results of both [os.Chdir] are dropped; the paths are those of the
    directory that the process is in after the first. *)
Definition translate (E : env) (H : host) (fs : gmap string inode)
    : bool * gmap string inode :=
  let '(ok, fs) := runPipe E H fs "lang-en-new.json" "go" translate_args in
  if ok then
    let fs := os_Remove H fs "lang-en.json" in
    match os_Rename H fs "lang-en-new.json" "lang-en.json" with
    | None => (false, fs)
    | Some fs' => (true, fs')
    end
  else (false, fs).

(* ================================================================== *)

(** * Properties *)

(** ** The regular-expression engine *)

Example versionRe_ex :
  exec versionRe (B "-5-gabcdef01") 0 = Some ([], 12) /\
  exec versionRe (B "-5555-gabcdef01") 0 = None /\
  exec versionRe (B "-12-gabcdef0123456789") 0 = Some ([], 15).
Proof. repeat split; reflexivity. Qed.

Example goVersionRe_ex :
  FindSubmatch goVersionRe (B "go version go1.4.2 linux/amd64")
  = [B "go version go1.4"; B "1.4"].
Proof. reflexivity. Qed.

Lemma try_down_Some {A} (k : nat -> option A) lo j r :
  try_down k lo j = Some r -> exists i, lo <= i <= j /\ k i = Some r.
Proof.
  induction j as [|j IH]; simpl.
  - destruct lo; simpl; [|discriminate].
    destruct (k 0) eqn:K; [|discriminate]. intros [= <-]. exists 0. split; [lia|done].
  - destruct (Nat.ltb_spec (S j) lo) as [Hlt|Hge]; [discriminate|].
    destruct (k (S j)) eqn:K.
    + intros [= <-]. exists (S j). split; [lia|done].
    + intros H. destruct (IH H) as (i & Hi & Hk). exists i. split; [lia|done].
Qed.

Lemma try_down_None {A} (k : nat -> option A) lo j :
  try_down k lo j = None -> forall i, lo <= i <= j -> k i = None.
Proof.
  induction j as [|j IH]; simpl.
  - destruct (Nat.ltb_spec 0 lo); [intros _ i Hi; lia|].
    destruct (k 0) eqn:K; [discriminate|]. intros _ i Hi.
    assert (i = 0) as -> by lia. done.
  - destruct (Nat.ltb_spec (S j) lo) as [Hlt|Hge]; [intros _ i Hi; lia|].
    destruct (k (S j)) eqn:K; [discriminate|].
    intros H i Hi. destruct (Nat.eq_dec i (S j)) as [->|Hne]; [done|].
    apply IH; [done|lia].
Qed.

Lemma try_down_first {A} (k : nat -> option A) lo j r :
  lo <= j -> k j = Some r -> try_down k lo j = Some r.
Proof.
  intros Hle K. destruct j; simpl.
  - destruct lo; [|lia]. simpl. by rewrite K.
  - destruct (Nat.ltb_spec (S j) lo); [lia|]. by rewrite K.
Qed.

Lemma try_down_ext {A} (k k' : nat -> option A) lo j :
  (forall i, k i = k' i) -> try_down k lo j = try_down k' lo j.
Proof.
  intros Hk. induction j as [|j IH]; simpl; rewrite Hk; [done|]. by rewrite IH.
Qed.

Lemma try_down_map {A C} (g : A -> C) (k : nat -> option A) lo j :
  try_down (fun i => option_map g (k i)) lo j = option_map g (try_down k lo j).
Proof.
  induction j as [|j IH]; simpl.
  - destruct (0 <? lo); [done|]. by destruct (k 0).
  - destruct (S j <? lo); [done|]. destruct (k (S j)); [done|]. apply IH.
Qed.

(** The offset only shifts what [exec] reports. *)
Lemma exec_pos re : forall s pos,
  exec re s pos
  = option_map (fun r => (map (Nat.add pos) (fst r), pos + snd r)) (exec re s 0).
Proof.
  induction re as [|[cls lo hi|] re IH]; intros s pos; simpl.
  - by rewrite Nat.add_0_r.
  - rewrite <- try_down_map. apply try_down_ext. intros i.
    rewrite (IH _ (pos + i)), (IH _ i).
    destruct (exec re (drop i s) 0) as [[c e]|]; simpl; [|done].
    f_equal. f_equal; [|lia].
    rewrite map_map. apply map_ext. intros; lia.
  - rewrite (IH _ pos). destruct (exec re s 0) as [[c e]|]; simpl; [|done].
    by rewrite Nat.add_0_r.
Qed.

Lemma exec_sound re : forall s pos caps e,
  exec re s pos = Some (caps, e) -> exists n, e = pos + n /\ matches re s n.
Proof.
  induction re as [|[cls lo hi|] re IH]; intros s pos caps e; simpl.
  - intros [= <- <-]. exists 0. split; [lia|constructor].
  - intros H. apply try_down_Some in H as (j & Hj & H).
    apply IH in H as (n & -> & Hm). exists (j + n). split; [lia|].
    constructor; [lia|lia|done].
  - destruct (exec re s pos) as [[c e']|] eqn:H; [|discriminate].
    intros [= <- <-]. apply IH in H as (n & -> & Hm).
    exists n. split; [done|by constructor].
Qed.

Lemma exec_complete re s n :
  matches re s n -> forall pos, is_Some (exec re s pos).
Proof.
  induction 1 as [s|re s n _ IH|cls lo hi re s j n Hlo Hhi _ IH]; intros pos; simpl.
  - eauto.
  - destruct (IH pos) as [[c e] ->]. eauto.
  - destruct (try_down _ lo (cap hi (span cls s))) eqn:T; [eauto|].
    eapply try_down_None in T; [|split; eassumption].
    destruct (IH (pos + j)) as [r Hr]. congruence.
Qed.

Lemma span_take cls s j :
  j <= span cls s ->
  Forall (fun b => cls b = true) (take j s) /\ length (take j s) = j.
Proof.
  revert j. induction s as [|c s IH]; intros j; simpl.
  - intros ?. assert (j = 0) as -> by lia. by split.
  - destruct (cls c) eqn:Hc.
    + destruct j; [by split|]. intros Hj. destruct (IH j) as [? ?]; [lia|].
      simpl. split; [by constructor|lia].
    + intros ?. assert (j = 0) as -> by lia. by split.
Qed.

Lemma span_app_ge cls l t :
  Forall (fun b => cls b = true) l -> length l <= span cls (l ++ t).
Proof.
  induction 1 as [|c l Hc _ IH]; simpl in *; [lia|]. rewrite Hc. lia.
Qed.

Lemma span_stop cls l t :
  Forall (fun b => cls b = true) l ->
  match t with [] => True | c :: _ => cls c = false end ->
  span cls (l ++ t) = length l.
Proof.
  intros Hl Ht. induction Hl as [|c l Hc _ IH]; simpl in *.
  - destruct t; simpl; [done|]. by rewrite Ht.
  - by rewrite Hc, IH.
Qed.

Lemma matches_chars_inv cls lo hi re s m :
  matches (Chars cls lo hi :: re) s m ->
  exists l t n, s = l ++ t /\ Forall (fun b => cls b = true) l /\
    lo <= length l /\ (forall h, hi = Some h -> length l <= h) /\
    matches re t n /\ m = length l + n.
Proof.
  inversion 1 as [| |? ? ? ? ? j n Hlo Hhi Hm]; subst.
  assert (j <= span cls s) as Hspan by (destruct hi; simpl in Hhi; lia).
  destruct (span_take cls s j Hspan) as [Hall Hlen].
  exists (take j s), (drop j s), n.
  rewrite take_drop, Hlen. repeat split; try done.
  intros h ->. unfold cap in Hhi. lia.
Qed.

Lemma matches_chars_intro cls lo hi re l t n :
  Forall (fun b => cls b = true) l ->
  lo <= length l -> (forall h, hi = Some h -> length l <= h) ->
  matches re t n ->
  matches (Chars cls lo hi :: re) (l ++ t) (length l + n).
Proof.
  intros Hall Hlo Hhi Hm. constructor; [done| |by rewrite drop_app_length].
  pose proof (span_app_ge cls l t Hall). unfold cap.
  destruct hi as [h|]; [specialize (Hhi h eq_refl)|]; lia.
Qed.

Lemma matches_lit_inv c re s m :
  matches (lit c :: re) s m ->
  exists t n, s = c :: t /\ matches re t n /\ m = 1 + n.
Proof.
  intros H. apply matches_chars_inv in H as (l & t & n & -> & Hall & Hlo & Hhi & Hm & ->).
  specialize (Hhi 1 eq_refl). destruct l as [|b [|b' l]]; simpl in *; try lia.
  apply Forall_cons in Hall as [Hb _]. apply byte_dec_bl in Hb as <-.
  by exists t, n.
Qed.

Lemma matches_lit_intro c re t n :
  matches re t n -> matches (lit c :: re) (c :: t) (1 + n).
Proof.
  intros H. apply (matches_chars_intro (Byte.eqb c) 1 (Some 1) re [c] t n);
    simpl; try lia; try done.
  - constructor; [|done]. by apply byte_dec_lb.
  - by intros h [= <-].
Qed.

(** ** The describe suffix and [versionRe] *)

Lemma digit_not_hyphen b : isDigit b = true -> b <> "-"%byte.
Proof. intros H ->. vm_compute in H. discriminate. Qed.

Lemma hex_not_hyphen b : isLowerHex b = true -> b <> "-"%byte.
Proof. intros H ->. vm_compute in H. discriminate. Qed.

Lemma versionRe_shape s caps e :
  exec versionRe s 0 = Some (caps, e) ->
  exists N H rest,
    s = "-"%byte :: N ++ "-"%byte :: "g"%byte :: H ++ rest /\
    1 <= length N <= 3 /\ Forall (fun b => isDigit b = true) N /\
    5 <= length H <= 10 /\ Forall (fun b => isLowerHex b = true) H /\
    e = 3 + length N + length H.
Proof.
  intros He. apply exec_sound in He as (n & -> & Hm). unfold versionRe in Hm.
  apply matches_lit_inv in Hm as (t1 & n1 & -> & Hm & ->).
  apply matches_chars_inv in Hm as (N & t2 & n2 & -> & HN & HNlo & HNhi & Hm & ->).
  apply matches_lit_inv in Hm as (t3 & n3 & -> & Hm & ->).
  apply matches_lit_inv in Hm as (t4 & n4 & -> & Hm & ->).
  apply matches_chars_inv in Hm as (H & rest & n5 & -> & HH & HHlo & HHhi & Hm & ->).
  inversion Hm; subst.
  specialize (HNhi 3 eq_refl). specialize (HHhi 10 eq_refl).
  exists N, H, rest. repeat split; try done; lia.
Qed.

Lemma versionRe_of_shape s : describe_suffix s -> is_Some (exec versionRe s 0).
Proof.
  intros (N & H & rest & -> & [HN1 HN3] & HN & [HH5 HH10] & HH).
  eapply exec_complete. unfold versionRe.
  apply matches_lit_intro.
  apply matches_chars_intro; [done|done|intros h [= <-]; lia|].
  apply matches_lit_intro, matches_lit_intro.
  apply matches_chars_intro; [done|lia|intros h [= <-]; lia|].
  apply (matches_nil rest).
Qed.

Lemma versionRe_iff s : is_Some (exec versionRe s 0) <-> describe_suffix s.
Proof.
  split; [|apply versionRe_of_shape].
  intros [[caps e] He]. apply versionRe_shape in He as (N & H & rest & ? & ? & ? & ? & ? & _).
  by exists N, H, rest.
Qed.

Lemma versionRe_head c s :
  c <> "-"%byte -> exec versionRe (c :: s) 0 = None.
Proof.
  intros Hc. destruct (exec versionRe (c :: s) 0) as [[caps e]|] eqn:He; [|done].
  apply versionRe_shape in He as (N & H & rest & Heq & _). congruence.
Qed.

Lemma versionRe_hyphen_g s :
  exec versionRe ("-"%byte :: "g"%byte :: s) 0 = None.
Proof.
  destruct (exec versionRe _ 0) as [[caps e]|] eqn:He; [|done].
  apply versionRe_shape in He as (N & H & rest & Heq & [HN _] & HNd & _).
  destruct N as [|d N]; simpl in *; [lia|].
  injection Heq as <-. apply Forall_cons in HNd as [Hd _].
  vm_compute in Hd. discriminate.
Qed.

Lemma quiet_app l t k :
  Forall (fun b => b <> "-"%byte) l -> quiet k t -> quiet (length l + k) (l ++ t).
Proof.
  induction 1 as [|c l Hc _ IH]; intros Hq; simpl; [done|].
  split; [by apply versionRe_head|by apply IH].
Qed.

Lemma quiet_hyphen_g H rest :
  Forall (fun b => isLowerHex b = true) H ->
  quiet (S (S (length H))) ("-"%byte :: "g"%byte :: H ++ rest).
Proof.
  intros HH. cbn [quiet]. split; [apply versionRe_hyphen_g|].
  split; [by apply versionRe_head|].
  rewrite <- (Nat.add_0_r (length H)). apply quiet_app; [|done].
  eapply Forall_impl; [exact HH|]. intros b. apply hex_not_hyphen.
Qed.

Lemma quiet_match c s caps l :
  exec versionRe (c :: s) 0 = Some (caps, S l) ->
  quiet l s /\ 1 <= l <= length s.
Proof.
  intros He. apply versionRe_shape in He
    as (N & H & rest & Heq & [HN1 HN3] & HN & [HH5 HH10] & HH & He).
  injection Heq as -> ->.
  assert (l = length N + S (S (length H))) as -> by lia.
  split.
  - apply quiet_app; [|by apply quiet_hyphen_g].
    eapply Forall_impl; [exact HN|]. intros b. apply digit_not_hyphen.
  - rewrite length_app. simpl. rewrite length_app. lia.
Qed.

Lemma mark_quiet k : forall s,
  quiet k s -> k <= length s -> mark s = take k s ++ mark (drop k s).
Proof.
  induction k as [|k IH]; intros s; [done|].
  destruct s as [|c s]; simpl; [lia|].
  intros [He Hq] Hk. rewrite He. f_equal. apply IH; [done|lia].
Qed.

Lemma length_mark s : length (mark s) = length s.
Proof. induction s; simpl; congruence. Qed.

Lemma replaceAll_skip re repl k : forall b s,
  S k <= length s ->
  replaceAll re repl (S k) b s = replaceAll re repl 0 true (drop (S k) s).
Proof.
  induction k as [|k IH]; intros b [|c s] Hk; simpl in *; try lia.
  - destruct s; reflexivity.
  - destruct s as [|c' s]; simpl in *; [lia|].
    apply (IH true (c' :: s)). simpl; lia.
Qed.

(** The loop of [ReplaceAllFunc] with the script's function literal does
    not panic and yields [mark], which is also what it leaves in the
    source. *)
Lemma replaceAll_mark n : forall s after,
  length s <= n ->
  replaceAll versionRe plus_for_hyphen 0 after s = Some (mark s, mark s).
Proof.
  induction n as [|n IH]; intros [|c s] after Hn; simpl in Hn; try lia;
    try reflexivity.
  cbn [replaceAll mark].
  destruct (exec versionRe (c :: s) 0) as [[caps [|l]]|] eqn:He.
  - apply versionRe_shape in He as (? & ? & ? & _ & _ & _ & _ & _ & He). lia.
  - destruct (quiet_match _ _ _ _ He) as [Hq [Hl1 Hl]].
    cbn [take plus_for_hyphen].
    destruct l as [|l]; [lia|].
    rewrite replaceAll_skip by done.
    rewrite IH by (rewrite length_drop; lia).
    rewrite (mark_quiet (S l) s Hq Hl). reflexivity.
  - rewrite IH by lia. reflexivity.
Qed.

Lemma mark_lookup v : forall i,
  mark v !! i =
  match v !! i with
  | Some c =>
      Some match exec versionRe (drop i v) 0 with Some _ => "+"%byte | None => c end
  | None => None
  end.
Proof.
  induction v as [|c v IH]; intros [|i]; try reflexivity.
  simpl. apply IH.
Qed.

(** C2: when the describe command succeeds, [getGitVersion] returns its
    trimmed output [v] with exactly this change: at every offset where a
    hyphen, 1-3 digits, a hyphen, the letter g and 5-10 lowercase hex digits
    occur, the (leading) hyphen has become a plus sign; every other byte,
    so the tag before and the g<hash> after, is the byte of [v], and the
    length is the same.  [v1.2.3-5-gabcdef01] becomes [v1.2.3+5-gabcdef01]. *)
Theorem getGitVersion_plus_for_hyphen (E : env) :
  fault E (OpCommand "git" describe_args) = false ->
  let v := bytes_TrimSpace (output E "git" describe_args) in
  exists out,
    getGitVersion E = Some (Ok (string_of_list_byte out)) /\
    length out = length v /\
    (forall i, describe_suffix_at v i ->
               v !! i = Some "-"%byte /\ out !! i = Some "+"%byte) /\
    (forall i, ~ describe_suffix_at v i -> out !! i = v !! i) /\
    ReplaceAllFunc versionRe (B "v1.2.3-5-gabcdef01") plus_for_hyphen
    = Some (B "v1.2.3+5-gabcdef01", B "v1.2.3+5-gabcdef01").
Proof.
  intros Hok v. exists (mark v).
  split; [|split; [|split; [|split]]].
  - unfold getGitVersion, runError, ReplaceAllFunc. fold describe_args.
    rewrite Hok. fold v. by rewrite (replaceAll_mark (length v)).
  - apply length_mark.
  - intros i [Hi Hd]. rewrite mark_lookup.
    destruct (proj2 (versionRe_iff _) Hd) as [r ->].
    destruct Hd as (N & H & rest & Heq & _).
    assert (v !! i = Some "-"%byte) as ->; [|done].
    rewrite <- (Nat.add_0_r i), <- lookup_drop, Heq. reflexivity.
  - intros i Hn. rewrite mark_lookup.
    destruct (v !! i) as [c|] eqn:Hc; [|done].
    destruct (exec versionRe (drop i v) 0) eqn:He; [|done].
    exfalso. apply Hn. split.
    + by eapply lookup_lt_Some.
    + apply versionRe_iff. eauto.
  - reflexivity.
Qed.

Lemma getGitVersion_plus_for_hyphen_witness :
  let E := quiet_env (B "v1.2.3-5-gabcdef01" ++ [x0a]) in
  fault E (OpCommand "git" describe_args) = false /\
  exists out,
    getGitVersion E = Some (Ok (string_of_list_byte out)) /\
    length out = 18 /\
    (forall i, describe_suffix_at (B "v1.2.3-5-gabcdef01") i ->
               B "v1.2.3-5-gabcdef01" !! i = Some "-"%byte /\
               out !! i = Some "+"%byte) /\
    (forall i, ~ describe_suffix_at (B "v1.2.3-5-gabcdef01") i ->
               out !! i = B "v1.2.3-5-gabcdef01" !! i) /\
    ReplaceAllFunc versionRe (B "v1.2.3-5-gabcdef01") plus_for_hyphen
    = Some (B "v1.2.3+5-gabcdef01", B "v1.2.3+5-gabcdef01").
Proof.
  split; [reflexivity|].
  apply (getGitVersion_plus_for_hyphen
           (quiet_env (B "v1.2.3-5-gabcdef01" ++ [x0a]))).
  reflexivity.
Defined.

(** ** White space *)

Lemma has_prefix_app e : forall s,
  has_prefix e s = true -> s = e ++ drop (length e) s.
Proof.
  induction e as [|a e IH]; intros [|c s]; simpl; try done.
  intros [Ha He]%andb_prop. apply byte_dec_bl in Ha as ->.
  f_equal. by apply IH.
Qed.

Lemma leading_width_spec encs s w :
  leading_width encs s = S w ->
  exists e, In e encs /\ length e = S w /\ s = e ++ drop (S w) s.
Proof.
  unfold leading_width. destruct (List.find _ encs) as [e|] eqn:Hf; [|done].
  intros Hw. apply List.find_some in Hf as [Hin Hp].
  exists e. repeat split; [done|done|]. rewrite <- Hw. by apply has_prefix_app.
Qed.

(** Trimming removes whole encodings only: a byte that occurs in none of
    them stays. *)
Lemma trim_left_keeps encs b :
  (forall e, In e encs -> ~ In b e) ->
  forall fuel s, In b s -> In b (trim_left encs fuel s).
Proof.
  intros Henc. induction fuel as [|fuel IH]; intros s Hb; simpl; [done|].
  destruct (leading_width encs s) as [|w] eqn:Hw; [done|].
  apply IH. apply leading_width_spec in Hw as (e & He & _ & Hs).
  rewrite Hs in Hb. apply in_app_or in Hb as [Hb|Hb]; [|done].
  by destruct (Henc e He).
Qed.

Lemma space_encodings_bytes b :
  ascii_nonspace b = true ->
  (forall e, In e space_encodings -> ~ In b e) /\
  (forall e, In e (map (@rev byte) space_encodings) -> ~ In b e).
Proof.
  intros Hb.
  assert (forall e, In e space_encodings -> ~ In b e) as H.
  { intros e He Hin.
    assert (forallb (forallb (fun c => negb (ascii_nonspace c))) space_encodings = true)
      as Hall by (vm_compute; reflexivity).
    rewrite forallb_forall in Hall. specialize (Hall e He).
    rewrite forallb_forall in Hall. specialize (Hall b Hin).
    rewrite Hb in Hall. discriminate. }
  split; [done|].
  intros e (e' & <- & He')%in_map_iff Hin. apply in_rev in Hin. by apply (H e').
Qed.

Lemma bytes_TrimSpace_keeps b s :
  ascii_nonspace b = true -> In b s -> In b (bytes_TrimSpace s).
Proof.
  intros Hb Hin. destruct (space_encodings_bytes b Hb) as [H1 H2].
  unfold bytes_TrimSpace. apply in_rev. rewrite rev_involutive.
  apply trim_left_keeps; [done|]. apply -> in_rev.
  by apply trim_left_keeps.
Qed.

Lemma leading_width_ascii c s :
  ascii_space c = true -> leading_width space_encodings (c :: s) = 1.
Proof.
  intros Hc. unfold ascii_space, byte_in in Hc.
  destruct c; try discriminate; reflexivity.
Qed.

Lemma trim_left_ascii s : forall fuel,
  length s <= fuel ->
  Forall (fun b => ascii_space b = true) s ->
  trim_left space_encodings fuel s = [].
Proof.
  induction s as [|c s IH]; intros fuel Hf Hs.
  - by destruct fuel.
  - destruct fuel as [|fuel]; simpl in Hf; [lia|].
    apply Forall_cons in Hs as [Hc Hs].
    cbn [trim_left]. rewrite (leading_width_ascii c s Hc).
    apply IH; [lia|done].
Qed.

(** A slice of ASCII white space only is trimmed to nothing. *)
Lemma bytes_TrimSpace_blank s :
  Forall (fun b => ascii_space b = true) s -> bytes_TrimSpace s = [].
Proof.
  intros Hs. unfold bytes_TrimSpace. by rewrite trim_left_ascii.
Qed.

Lemma string_of_list_byte_nonempty l :
  l <> [] -> string_of_list_byte l <> ""%string.
Proof. destruct l; [done|]. discriminate. Qed.

(** The fuel of [bytes_TrimSpace] is enough: nothing is left to trim. *)
Lemma trim_left_enough encs : forall fuel s,
  length s <= fuel -> leading_width encs (trim_left encs fuel s) = 0.
Proof.
  induction fuel as [|fuel IH]; intros s Hf; simpl.
  - destruct s; simpl in Hf; [|lia].
    destruct (leading_width encs []) eqn:Hw; [done|].
    apply leading_width_spec in Hw as (e & _ & He & Hs).
    destruct e; simpl in *; [lia|discriminate].
  - destruct (leading_width encs s) as [|w] eqn:Hw; [done|].
    apply IH. rewrite length_drop.
    apply leading_width_spec in Hw as (e & _ & He & Hs).
    apply (f_equal length) in Hs. rewrite length_app in Hs. lia.
Qed.

(** ** Text padded with white space *)

Lemma leading_width_ascii_rev c s :
  ascii_space c = true ->
  leading_width (map (@rev byte) space_encodings) (c :: s) = 1.
Proof.
  intros Hc. unfold ascii_space, byte_in in Hc.
  destruct c; try discriminate; reflexivity.
Qed.

Lemma leading_width_other encs b s :
  (forall e, In e encs -> ~ In b e) -> leading_width encs (b :: s) = 0.
Proof.
  intros Henc. unfold leading_width.
  destruct (List.find _ encs) as [e|] eqn:Hf; [|done].
  apply List.find_some in Hf as [Hin Hp].
  destruct e as [|a e]; [done|]. simpl in Hp.
  apply andb_prop in Hp as [Ha _]. apply byte_dec_bl in Ha as ->.
  destruct (Henc _ Hin). by left.
Qed.

Lemma trim_left_fixed encs fuel s :
  leading_width encs s = 0 -> trim_left encs fuel s = s.
Proof. intros Hw. destruct fuel; simpl; [done|]. by rewrite Hw. Qed.

Lemma trim_left_padding encs ws : forall fuel s,
  (forall c r, ascii_space c = true -> leading_width encs (c :: r) = 1) ->
  Forall (fun b => ascii_space b = true) ws ->
  length ws <= fuel ->
  leading_width encs s = 0 ->
  trim_left encs fuel (ws ++ s) = s.
Proof.
  induction ws as [|c ws IH]; intros fuel s Hsp Hws Hfuel Hs.
  - by apply trim_left_fixed.
  - apply Forall_cons in Hws as [Hc Hws].
    destruct fuel as [|fuel]; simpl in Hfuel; [lia|].
    cbn [app trim_left]. rewrite (Hsp c _ Hc). cbn [drop].
    apply IH; [done|done|lia|done].
Qed.

(** White space around a text that starts and ends with a byte that is
    not white space is trimmed away, and nothing else. *)
Lemma bytes_TrimSpace_core ws1 ws2 a mid init z :
  Forall (fun b => ascii_space b = true) ws1 ->
  Forall (fun b => ascii_space b = true) ws2 ->
  ascii_nonspace a = true -> ascii_nonspace z = true ->
  a :: mid = init ++ [z] ->
  bytes_TrimSpace (ws1 ++ (a :: mid) ++ ws2) = a :: mid.
Proof.
  intros H1 H2 Ha Hz Hcore. unfold bytes_TrimSpace.
  destruct (space_encodings_bytes a Ha) as [Ha1 _].
  destruct (space_encodings_bytes z Hz) as [_ Hz2].
  rewrite (trim_left_padding space_encodings ws1);
    [|apply leading_width_ascii|done|rewrite length_app; lia
     |by apply leading_width_other].
  rewrite Hcore at 2. rewrite rev_app_distr, rev_app_distr. cbn [rev app].
  rewrite (trim_left_padding _ (rev ws2));
    [|apply leading_width_ascii_rev|by apply Forall_rev
     |rewrite ?length_rev; simpl; rewrite ?length_app; simpl; lia
     |by apply leading_width_other].
  change (z :: rev init) with ([z] ++ rev init).
  rewrite rev_app_distr, rev_involutive. by rewrite Hcore.
Qed.

Lemma has_prefix_intro e : forall k, has_prefix e (e ++ k) = true.
Proof.
  induction e as [|a e IH]; intros k; simpl; [done|].
  rewrite IH, andb_true_r. by destruct a.
Qed.

Lemma leading_width_zero encs s :
  (forall e, In e encs -> e <> []) ->
  leading_width encs s = 0 ->
  forall e, In e encs -> ~ e `prefix_of` s.
Proof.
  intros Hne Hw e He [k ->]. unfold leading_width in Hw.
  destruct (List.find _ encs) as [e0|] eqn:Hf.
  - apply List.find_some in Hf as [Hin _]. apply (Hne e0 Hin).
    by destruct e0.
  - apply (List.find_none _ _ Hf) in He. by rewrite has_prefix_intro in He.
Qed.

(** What [trim_left] removes is a sequence of whole encodings. *)
Lemma trim_left_cut encs : forall fuel s,
  exists runes, Forall (fun e => In e encs) runes /\
                s = concat runes ++ trim_left encs fuel s.
Proof.
  induction fuel as [|fuel IH]; intros s; simpl.
  - exists []. by split; [constructor|].
  - destruct (leading_width encs s) as [|w] eqn:Hw.
    + exists []. by split; [constructor|].
    + apply leading_width_spec in Hw as (e & He & Hl & Hs).
      destruct (IH (drop (S w) s)) as (runes & Hr & Hd).
      exists (e :: runes). split; [by constructor|].
      simpl. rewrite <- app_assoc, <- Hd. exact Hs.
Qed.

Lemma rev_concat_runes (runes : list bytes) :
  Forall (fun e => In e (map (@rev byte) space_encodings)) runes ->
  white_space (rev (concat runes)).
Proof.
  induction 1 as [|e runes He _ (rs & Hrs & IH)]; simpl.
  - exists []. by split; [constructor|].
  - apply in_map_iff in He as (e' & <- & He').
    exists (rs ++ [e']). split.
    + apply Forall_app. split; [done|].
      apply List.Forall_cons; [done|apply List.Forall_nil].
    + rewrite rev_app_distr, rev_involutive, IH, concat_app. simpl.
      by rewrite app_nil_r.
Qed.

Lemma space_encodings_nonempty :
  (forall e, In e space_encodings -> e <> []) /\
  (forall e, In e (map (@rev byte) space_encodings) -> e <> []).
Proof.
  assert (forall e, In e space_encodings -> e <> []) as H.
  { intros e He ->.
    assert (forallb (fun e => negb (Nat.eqb (length e) 0)) space_encodings = true)
      as Hall by (vm_compute; reflexivity).
    rewrite forallb_forall in Hall. by specialize (Hall [] He). }
  split; [done|].
  intros e (e' & <- & He')%in_map_iff Hnil. apply (H e' He').
  destruct e'; [done|]. simpl in Hnil. by destruct (rev e').
Qed.

(** [bytes.TrimSpace] cuts white space off the two ends, all of it. *)
Lemma bytes_TrimSpace_trimmed s : trimmed s (bytes_TrimSpace s).
Proof.
  unfold bytes_TrimSpace.
  set (t := trim_left space_encodings (length s) s).
  set (r := trim_left (map (@rev byte) space_encodings) (length t) (rev t)).
  destruct space_encodings_nonempty as [Hne Hner].
  destruct (trim_left_cut space_encodings (length s) s) as (runes1 & Hr1 & Hs).
  destruct (trim_left_cut (map (@rev byte) space_encodings) (length t) (rev t))
    as (runes2 & Hr2 & Ht).
  fold t in Hs. fold r in Ht.
  assert (t = rev r ++ rev (concat runes2)) as Ht'.
  { rewrite <- rev_app_distr, <- Ht. by rewrite rev_involutive. }
  exists (concat runes1), (rev (concat runes2)).
  split; [by rewrite <- Ht'|]. split; [by exists runes1|].
  split; [by apply rev_concat_runes|]. split.
  - intros e He [k Hk].
    apply (leading_width_zero space_encodings t Hne
             (trim_left_enough _ _ _ (Nat.le_refl _)) e He).
    exists (k ++ rev (concat runes2)). rewrite Ht', Hk. by rewrite <- app_assoc.
  - intros e He [k Hk].
    assert (length (rev t) <= length t) as Hlen by (by rewrite length_rev).
    apply (leading_width_zero _ r Hner (trim_left_enough _ _ _ Hlen) (rev e)).
    + apply in_map_iff. eauto.
    + exists (rev k). rewrite <- rev_app_distr, <- Hk. by rewrite rev_involutive.
Qed.

(** With ASCII white space around a text that is empty or starts and ends
    with a byte that is not white space, the text is what is left. *)
Lemma bytes_TrimSpace_ascii ws1 core ws2 :
  Forall (fun b => ascii_space b = true) ws1 ->
  Forall (fun b => ascii_space b = true) ws2 ->
  ascii_ends core ->
  bytes_TrimSpace (ws1 ++ core ++ ws2) = core.
Proof.
  intros H1 H2 [Ha Hz]. destruct core as [|a mid].
  - simpl. apply bytes_TrimSpace_blank. by apply Forall_app.
  - destruct (exists_last (l := a :: mid) ltac:(done)) as (init & z & Heq).
    apply (bytes_TrimSpace_core ws1 ws2 a mid init z); [done|done| | |done].
    + by apply Ha.
    + apply Hz. rewrite Heq. apply last_snoc.
Qed.

Lemma mark_normalized v : normalized v (mark v).
Proof.
  split; [apply length_mark|]. split.
  - intros i [Hi Hd]. rewrite mark_lookup.
    destruct (proj2 (versionRe_iff _) Hd) as [r ->].
    destruct Hd as (N & H & rest & Heq & _).
    assert (v !! i = Some "-"%byte) as ->; [|done].
    rewrite <- (Nat.add_0_r i), <- lookup_drop, Heq. reflexivity.
  - intros i Hn. rewrite mark_lookup.
    destruct (v !! i) as [c|] eqn:Hc; [|done].
    destruct (exec versionRe (drop i v) 0) eqn:He; [|done].
    exfalso. apply Hn. split.
    + by eapply lookup_lt_Some.
    + apply versionRe_iff. eauto.
Qed.

(** ** Version resolution *)

Lemma getReleaseVersion_holds E fs content :
  release_holds E fs content ->
  getReleaseVersion E fs = Ok (string_of_list_byte (bytes_TrimSpace content)).
Proof.
  intros ((f & Hf & <-) & Ho & Hr).
  unfold getReleaseVersion, os_Open, ioutil_ReadAll, attempt. rewrite Hf. simpl.
  rewrite Ho. simpl. by rewrite Hr.
Qed.

Lemma getReleaseVersion_not E fs :
  ~ release_readable E fs -> exists e, getReleaseVersion E fs = Err e.
Proof.
  intros Hn. unfold getReleaseVersion, os_Open, ioutil_ReadAll, attempt.
  destruct (fs !! "RELEASE"%string) as [f|] eqn:Hf; simpl; [|eauto].
  destruct (fault E (OpOpen "RELEASE")) eqn:Ho; simpl; [eauto|].
  destruct (fault E (OpReadAll "RELEASE")) eqn:Hr; simpl; [eauto|].
  destruct Hn. exists (f_data f). repeat split; eauto.
Qed.

Lemma getGitVersion_ok E :
  describe_ok E ->
  getGitVersion E
  = Some (Ok (string_of_list_byte
                (mark (bytes_TrimSpace (output E "git" describe_args))))).
Proof.
  intros Hok. unfold getGitVersion, runError, ReplaceAllFunc. fold describe_args.
  rewrite Hok. by rewrite (replaceAll_mark _ _ _ (Nat.le_refl _)).
Qed.

Lemma getGitVersion_failed E :
  ~ describe_ok E -> exists e, getGitVersion E = Some (Err e).
Proof.
  intros Hn. unfold getGitVersion, runError. fold describe_args.
  destruct (fault E (OpCommand "git" describe_args)) eqn:Hf; [eauto|].
  by destruct Hn.
Qed.

Lemma describe_ok_dec E : describe_ok E \/ ~ describe_ok E.
Proof.
  unfold describe_ok. destruct (fault E _); [right|left]; done.
Qed.

Lemma release_readable_dec E fs : release_readable E fs \/ ~ release_readable E fs.
Proof.
  unfold release_readable, release_holds.
  destruct (fs !! "RELEASE"%string) as [f|] eqn:Hf.
  - destruct (fault E (OpOpen "RELEASE")) eqn:Ho;
      [right; intros (c & _ & ? & _); done|].
    destruct (fault E (OpReadAll "RELEASE")) eqn:Hr;
      [right; intros (c & _ & _ & ?); done|].
    left. exists (f_data f). repeat split; eauto.
  - right. intros (c & (f & ? & _) & _). done.
Qed.

Lemma getVersion_release E fs content :
  release_holds E fs content ->
  getVersion E fs = Some (string_of_list_byte (bytes_TrimSpace content)).
Proof.
  intros Hc. unfold getVersion. by rewrite (getReleaseVersion_holds _ _ _ Hc).
Qed.

Lemma getVersion_git E fs :
  ~ release_readable E fs -> describe_ok E ->
  getVersion E fs
  = Some (string_of_list_byte
            (mark (bytes_TrimSpace (output E "git" describe_args)))).
Proof.
  intros Hn Hok. unfold getVersion.
  destruct (getReleaseVersion_not _ _ Hn) as [e ->].
  by rewrite (getGitVersion_ok _ Hok).
Qed.

Lemma getVersion_dev E fs :
  ~ release_readable E fs -> ~ describe_ok E ->
  getVersion E fs = Some "unknown-dev"%string.
Proof.
  intros Hn Hf. unfold getVersion.
  destruct (getReleaseVersion_not _ _ Hn) as [e ->].
  by destruct (getGitVersion_failed _ Hf) as [e' ->].
Qed.

Lemma getVersion_total E fs : is_Some (getVersion E fs).
Proof.
  destruct (release_readable_dec E fs) as [[c Hc]|Hn].
  - rewrite (getVersion_release _ _ _ Hc). eauto.
  - destruct (describe_ok_dec E) as [Hok|Hf].
    + rewrite (getVersion_git _ _ Hn Hok). eauto.
    + rewrite (getVersion_dev _ _ Hn Hf). eauto.
Qed.

(** C3: [getVersion] takes the first source that is there, and no case
    panics.  A release marker that can be opened and read gives its
    content with the white space cut off at both ends and nothing else
    changed, whatever the describe command does; a describe suffix in it
    stays as it is.  Without such a marker, a describe command that
    succeeds gives its output, white space cut off in the same way and
    then normalized: a plus sign wherever the describe suffix occurs,
    every other byte kept.  Without both, the result is [unknown-dev]. *)
Theorem getVersion_priority (E : env) (fs : gmap string inode) :
  is_Some (getVersion E fs) /\
  (forall content, release_holds E fs content ->
     exists core, trimmed content core /\
                  getVersion E fs = Some (string_of_list_byte core)) /\
  (forall ws1 core ws2, release_holds E fs (ws1 ++ core ++ ws2) ->
     Forall (fun b => ascii_space b = true) ws1 ->
     Forall (fun b => ascii_space b = true) ws2 ->
     ascii_ends core ->
     getVersion E fs = Some (string_of_list_byte core)) /\
  (~ release_readable E fs -> describe_ok E ->
     exists core out,
       trimmed (output E "git" describe_args) core /\ normalized core out /\
       getVersion E fs = Some (string_of_list_byte out)) /\
  (forall ws1 core ws2, ~ release_readable E fs -> describe_ok E ->
     output E "git" describe_args = ws1 ++ core ++ ws2 ->
     Forall (fun b => ascii_space b = true) ws1 ->
     Forall (fun b => ascii_space b = true) ws2 ->
     ascii_ends core ->
     exists out, normalized core out /\
                 getVersion E fs = Some (string_of_list_byte out)) /\
  (~ release_readable E fs -> ~ describe_ok E ->
     getVersion E fs = Some "unknown-dev"%string) /\
  getVersion (quiet_env (B "v1.0.0-3-gabcdef0" ++ [x0a]))
    {[ "RELEASE"%string := regular (B "v9.9.9") ]} = Some "v9.9.9"%string /\
  getVersion (failing_env [])
    {[ "RELEASE"%string := regular (B "v9.9.9") ]} = Some "unknown-dev"%string /\
  getVersion (quiet_env (B "v1.0.0-3-gabcdef0" ++ [x0a]))
    {[ "RELEASE"%string :=
         regular ([x09; x20] ++ B "v1.2.3-5-gabcdef01" ++ [x20; x0d; x0a]) ]}
  = Some "v1.2.3-5-gabcdef01"%string /\
  getVersion (quiet_env ([x20] ++ B "v1.2.3-5-gabcdef01" ++ [x0a])) ∅
  = Some "v1.2.3+5-gabcdef01"%string /\
  getVersion (failing_env (B "fatal: not a git repository" ++ [x0a])) ∅
  = Some "unknown-dev"%string.
Proof.
  split; [apply getVersion_total|].
  split; [|split; [|split; [|split; [|split; [apply getVersion_dev|]]]]].
  - intros content Hc. exists (bytes_TrimSpace content).
    split; [apply bytes_TrimSpace_trimmed|by apply getVersion_release].
  - intros ws1 core ws2 Hc H1 H2 Hcore.
    rewrite (getVersion_release _ _ _ Hc).
    by rewrite bytes_TrimSpace_ascii.
  - intros Hn Hok.
    exists (bytes_TrimSpace (output E "git" describe_args)), 
           (mark (bytes_TrimSpace (output E "git" describe_args))).
    split; [apply bytes_TrimSpace_trimmed|].
    split; [apply mark_normalized|by apply getVersion_git].
  - intros ws1 core ws2 Hn Hok Hout H1 H2 Hcore.
    exists (mark core). split; [apply mark_normalized|].
    rewrite (getVersion_git _ _ Hn Hok), Hout.
    by rewrite bytes_TrimSpace_ascii.
  - split; [vm_compute; reflexivity|].
    split; [vm_compute; reflexivity|].
    split; [vm_compute; reflexivity|].
    split; vm_compute; reflexivity.
Qed.

(** C9, as stated, fails: a release marker that holds only a newline is
    readable, and the version is the empty string. *)
Lemma getVersion_empty_release :
  getVersion (quiet_env (B "v1.2.3")) {[ "RELEASE"%string := regular [x0a] ]}
  = Some ""%string.
Proof. reflexivity. Qed.

(** C9, amended: [getVersion] returns a string in every case.  It is not
    empty when the source it is taken from (the readable release marker,
    else the output of a successful describe) holds an ASCII byte that is
    not white space, and in the fallback case; it is empty when a readable
    release marker holds ASCII white space only. *)
Theorem getVersion_nonempty (E : env) (fs : gmap string inode) :
  exists ver, getVersion E fs = Some ver /\
  (forall content, release_holds E fs content ->
     (exists b, In b content /\ ascii_nonspace b = true) -> ver <> ""%string) /\
  (forall content, release_holds E fs content ->
     Forall (fun b => ascii_space b = true) content -> ver = ""%string) /\
  (~ release_readable E fs -> describe_ok E ->
     (exists b, In b (output E "git" describe_args) /\ ascii_nonspace b = true) ->
     ver <> ""%string) /\
  (~ release_readable E fs -> ~ describe_ok E -> ver = "unknown-dev"%string).
Proof.
  destruct (getVersion_total E fs) as [ver Hver].
  exists ver. split; [done|]. repeat split.
  - intros content Hc (b & Hb & Hn). rewrite (getVersion_release _ _ _ Hc) in Hver.
    injection Hver as <-. apply string_of_list_byte_nonempty.
    pose proof (bytes_TrimSpace_keeps b content Hn Hb) as Hin.
    intros Heq. by rewrite Heq in Hin.
  - intros content Hc Hall. rewrite (getVersion_release _ _ _ Hc) in Hver.
    injection Hver as <-. by rewrite bytes_TrimSpace_blank.
  - intros Hn Hok (b & Hb & Hb'). rewrite (getVersion_git _ _ Hn Hok) in Hver.
    injection Hver as <-. apply string_of_list_byte_nonempty.
    pose proof (bytes_TrimSpace_keeps b _ Hb' Hb) as Hin.
    intros Heq. apply (f_equal length) in Heq. rewrite length_mark in Heq.
    destruct (bytes_TrimSpace _); [done|discriminate].
  - intros Hn Hf. rewrite (getVersion_dev _ _ Hn Hf) in Hver. by injection Hver.
Qed.

(** ** The toolchain gate *)

Lemma exec_None_pos re s pos : exec re s 0 = None -> exec re s pos = None.
Proof. intros H. by rewrite exec_pos, H. Qed.

Lemma find_None re : forall s pos,
  (forall i, i <= length s -> exec re (drop i s) 0 = None) ->
  find re s pos = None.
Proof.
  induction s as [|c s IH]; intros pos H; simpl.
  - by rewrite (exec_None_pos _ _ _ (H 0 (Nat.le_refl _))).
  - rewrite (exec_None_pos _ _ _ (H 0 (Nat.le_0_l _))).
    apply IH. intros i Hi. apply (H (S i)). simpl. lia.
Qed.

Lemma find_at re : forall i s pos caps e,
  (forall j, j < i -> exec re (drop j s) 0 = None) ->
  exec re (drop i s) 0 = Some (caps, e) ->
  i <= length s ->
  find re s pos = Some (pos + i, map (Nat.add (pos + i)) caps, pos + i + e).
Proof.
  induction i as [|i IH]; intros s pos caps e Hbefore He Hi.
  - rewrite Nat.add_0_r. rewrite drop_0 in He.
    destruct s; simpl; rewrite exec_pos, He; reflexivity.
  - destruct s as [|c s]; simpl in Hi; [lia|].
    simpl. rewrite (exec_None_pos _ _ _ (Hbefore 0 (Nat.lt_0_succ _))).
    rewrite (IH s (S pos) caps e); [| |done|lia].
    + replace (S pos + i) with (pos + S i) by lia. reflexivity.
    + intros j Hj. apply (Hbefore (S j)). lia.
Qed.

Lemma exec_lit c re s pos :
  exec (lit c :: re) (c :: s) pos = exec re s (pos + 1).
Proof.
  cbn [exec lit span]. rewrite (byte_dec_lb (eq_refl c)).
  cbn [cap]. rewrite Nat.min_l by lia.
  cbn [try_down Nat.ltb Nat.leb drop]. rewrite drop_0.
  by destruct (exec re s (pos + 1)).
Qed.

Lemma exec_chars_greedy cls lo re l t pos r :
  Forall (fun b => cls b = true) l ->
  match t with [] => True | c :: _ => cls c = false end ->
  lo <= length l ->
  exec re t (pos + length l) = Some r ->
  exec (Chars cls lo None :: re) (l ++ t) pos = Some r.
Proof.
  intros Hl Ht Hlo He. cbn [exec cap]. rewrite (span_stop cls l t Hl Ht).
  apply try_down_first; [done|]. by rewrite drop_app_length.
Qed.

Lemma exec_goVersionRe_inv s caps e :
  exec goVersionRe s 0 = Some (caps, e) ->
  exists d1 d2 post,
    s = B "go version go" ++ d1 ++ "."%byte :: d2 ++ post /\
    d1 <> [] /\ d2 <> [] /\
    Forall (fun b => isDigit b = true) d1 /\
    Forall (fun b => isDigit b = true) d2.
Proof.
  intros He. apply exec_sound in He as (n & _ & Hm).
  unfold goVersionRe, lits in Hm. cbn [list_byte_of_string map app] in Hm.
  simpl in Hm.
  repeat (apply matches_lit_inv in Hm as (? & ? & -> & Hm & ->)).
  inversion Hm as [|? ? ? Hm'|]; subst. clear Hm.
  apply matches_chars_inv in Hm' as (d1 & t & n1 & -> & Hd1 & Hlo1 & _ & Hm & ->).
  apply matches_lit_inv in Hm as (t' & n2 & -> & Hm & ->).
  apply matches_chars_inv in Hm as (d2 & post & n3 & -> & Hd2 & Hlo2 & _ & Hm & ->).
  exists d1, d2, post. repeat split; try done.
  - intros ->. simpl in Hlo1. lia.
  - intros ->. simpl in Hlo2. lia.
Qed.

Lemma exec_save re s pos :
  exec (Save :: re) s pos
  = match exec re s pos with
    | Some r => Some (pos :: fst r, snd r)
    | None => None
    end.
Proof. reflexivity. Qed.

Lemma exec_token_tail d1 d2 post pos :
  d1 <> [] -> d2 <> [] ->
  Forall (fun b => isDigit b = true) d1 ->
  Forall (fun b => isDigit b = true) d2 ->
  no_digit_next post ->
  exec [Save; Chars isDigit 1 None; lit "."; Chars isDigit 1 None; Save]
       (d1 ++ "."%byte :: d2 ++ post) pos
  = Some ([pos; pos + length d1 + 1 + length d2], pos + length d1 + 1 + length d2).
Proof.
  intros Hn1 Hn2 Hd1 Hd2 Hpost.
  rewrite exec_save.
  rewrite (exec_chars_greedy isDigit 1
             [lit "."; Chars isDigit 1 None; Save] d1 _ pos
             ([pos + length d1 + 1 + length d2], pos + length d1 + 1 + length d2)).
  - reflexivity.
  - done.
  - reflexivity.
  - destruct d1; [done|simpl; lia].
  - rewrite exec_lit.
    rewrite (exec_chars_greedy isDigit 1 [Save] d2 post _
               ([pos + length d1 + 1 + length d2], pos + length d1 + 1 + length d2)).
    + reflexivity.
    + done.
    + done.
    + destruct d2; [done|simpl; lia].
    + rewrite exec_save. reflexivity.
Qed.

Lemma exec_goVersionRe_token d1 d2 post :
  d1 <> [] -> d2 <> [] ->
  Forall (fun b => isDigit b = true) d1 ->
  Forall (fun b => isDigit b = true) d2 ->
  no_digit_next post ->
  exec goVersionRe (B "go version go" ++ d1 ++ "."%byte :: d2 ++ post) 0
  = Some ([13; 13 + length d1 + 1 + length d2], 13 + length d1 + 1 + length d2).
Proof.
  intros Hn1 Hn2 Hd1 Hd2 Hpost.
  unfold goVersionRe, lits. cbn [list_byte_of_string map app].
  simpl app. rewrite !exec_lit.
  by rewrite exec_token_tail.
Qed.

Lemma FindSubmatch_none ver :
  ~ has_go_version ver -> FindSubmatch goVersionRe ver = [].
Proof.
  intros Hn. unfold FindSubmatch. rewrite find_None; [done|].
  intros i _. destruct (exec goVersionRe (drop i ver) 0) as [[caps e]|] eqn:He; [|done].
  destruct Hn. exists i. by apply exec_goVersionRe_inv in He.
Qed.

Lemma FindSubmatch_token ver i d1 d2 post :
  go_version_token ver i d1 d2 post ->
  exists whole, FindSubmatch goVersionRe ver = [whole; d1 ++ "."%byte :: d2].
Proof.
  intros (Hdrop & Hn1 & Hn2 & Hd1 & Hd2 & Hpost & Hfirst).
  pose proof (exec_goVersionRe_token d1 d2 post Hn1 Hn2 Hd1 Hd2 Hpost) as He.
  rewrite <- Hdrop in He.
  assert (i <= length ver) as Hi.
  { destruct (Nat.le_gt_cases i (length ver)) as [|Hgt]; [done|].
    rewrite drop_ge in Hdrop by lia. discriminate. }
  assert (forall j, j < i -> exec goVersionRe (drop j ver) 0 = None) as Hbefore.
  { intros j Hj.
    destruct (exec goVersionRe (drop j ver) 0) as [[caps e]|] eqn:Hej; [|done].
    destruct (Hfirst j Hj). by apply exec_goVersionRe_inv in Hej. }
  unfold FindSubmatch.
  rewrite (find_at goVersionRe i ver 0 _ _ Hbefore He Hi).
  eexists. cbn [map groups]. f_equal. f_equal.
  unfold slice.
  replace (0 + i + (13 + length d1 + 1 + length d2)
           - (0 + i + 13)) with (length (d1 ++ "."%byte :: d2))
    by (rewrite length_app; simpl; lia).
  replace (0 + i + 13) with (i + 13) by lia.
  rewrite <- drop_drop, Hdrop.
  change (drop 13 (B "go version go" ++ ?l)) with l.
  change (d1 ++ "."%byte :: d2 ++ post) with (d1 ++ ("."%byte :: d2) ++ post).
  rewrite app_assoc. apply take_app_length.
Qed.

(** The gate case by case: it reads a <major>.<minor> token from what
    [go version] prints.  Without such text it logs a warning and returns; with a token
    that [ParseFloat] rejects it logs a warning and returns; with a value
    below [minGoVersion] it is fatal, and [main] exits with status 1
    before any step, so before any compilation; with a value at or above
    it, it returns silently.  Whenever the gate returns, [main] goes on to
    its steps. *)
Theorem checkRequiredGoVersion_gate (ParseFloat : string -> option float)
    (E : env) (noupgrade : bool) (args : list string) (ver : bytes) :
  run E "go" ["version"] = Done ver ->
  (~ has_go_version ver ->
     checkRequiredGoVersion ParseFloat E = Done [LogUnknownGoVersion ver]) /\
  (forall i d1 d2 post, go_version_token ver i d1 d2 post ->
     let vs := string_of_list_byte (d1 ++ "."%byte :: d2) in
     match ParseFloat vs with
     | None => checkRequiredGoVersion ParseFloat E = Done [LogCouldntParse vs]
     | Some f =>
         if (f <? minGoVersion)%float
         then checkRequiredGoVersion ParseFloat E = Exit 1 (FatalGoTooOld f) /\
              main ParseFloat E noupgrade args = Exit 1 (FatalGoTooOld f)
         else checkRequiredGoVersion ParseFloat E = Done []
     end) /\
  (forall warnings, checkRequiredGoVersion ParseFloat E = Done warnings ->
     exists steps stop,
       main ParseFloat E noupgrade args = Done (warnings, steps, stop)).
Proof.
  intros Hrun. split; [|split].
  - intros Hn. unfold checkRequiredGoVersion. rewrite Hrun. simpl.
    by rewrite (FindSubmatch_none _ Hn).
  - intros i d1 d2 post Htok vs.
    destruct (FindSubmatch_token _ _ _ _ _ Htok) as [whole Hfind].
    unfold main, checkRequiredGoVersion. rewrite Hrun. simpl. rewrite Hfind.
    fold vs. destruct (ParseFloat vs) as [f|]; [|done].
    destruct (f <? minGoVersion)%float; [|done]. split; reflexivity.
  - intros warnings Hw. unfold main. rewrite Hw. simpl.
    destruct args as [|a args]; [eauto|].
    destruct (dispatch noupgrade (a :: args)) as [ss f]. eauto.
Qed.

Lemma checkRequiredGoVersion_gate_witness :
  let E := quiet_env (B "go version go1.2.1 linux/amd64") in
  let ver := B "go version go1.2.1 linux/amd64" in
  run E "go" ["version"] = Done ver /\
  go_version_token ver 0 (B "1") (B "2") (B ".1 linux/amd64") /\
  checkRequiredGoVersion ParseFloat_exact E
  = Exit 1 (FatalGoTooOld
              (PrimFloat.div (PrimFloat.of_uint63 12) (PrimFloat.of_uint63 10))) /\
  main ParseFloat_exact E false ["tar"%string]
  = Exit 1 (FatalGoTooOld
              (PrimFloat.div (PrimFloat.of_uint63 12) (PrimFloat.of_uint63 10))).
Proof.
  intros E ver.
  assert (go_version_token ver 0 (B "1") (B "2") (B ".1 linux/amd64")) as Htok.
  { repeat split; try done; try (repeat constructor). intros j Hj. lia. }
  split; [reflexivity|]. split; [exact Htok|].
  exact (proj1 (proj2 (checkRequiredGoVersion_gate ParseFloat_exact E false
                         ["tar"%string] ver eq_refl))
           0 (B "1") (B "2") (B ".1 linux/amd64") Htok).
Defined.

Example checkRequiredGoVersion_examples :
  checkRequiredGoVersion ParseFloat_exact
    (quiet_env (B "go version go1.3 linux/amd64")) = Done [] /\
  checkRequiredGoVersion ParseFloat_exact
    (quiet_env (B "go version go1.4.2 darwin/amd64")) = Done [] /\
  checkRequiredGoVersion ParseFloat_exact
    (quiet_env (B "go version devel +a1b2c3d")) 
  = Done [LogUnknownGoVersion (B "go version devel +a1b2c3d")].
Proof. repeat split; vm_compute; reflexivity. Qed.

(** C5 fails at Go 1.10: the gate reads the token [1.10] of
    [go version go1.10 linux/amd64] as the number 1.1, the number it reads
    [1.1] as, and 1.1 is below the minimum 1.3; the gate is fatal and
    [main] exits with status 1 before any step, although Go 1.10 is newer
    than Go 1.3.  The same happens for every minor version from 10 to 29.
    Go 1.9 and Go 1.3 pass. *)
Theorem checkRequiredGoVersion_aborts_on_go1_10 :
  let E := quiet_env (B "go version go1.10 linux/amd64") in
  let f := PrimFloat.div (PrimFloat.of_uint63 110) (PrimFloat.of_uint63 100) in
  FindSubmatch goVersionRe (B "go version go1.10 linux/amd64")
  = [B "go version go1.10"; B "1.10"] /\
  ParseFloat_exact "1.10" = Some f /\
  ParseFloat_exact "1.1" = Some f /\
  (f <? minGoVersion)%float = true /\
  checkRequiredGoVersion ParseFloat_exact E = Exit 1 (FatalGoTooOld f) /\
  main ParseFloat_exact E false ["build"%string] = Exit 1 (FatalGoTooOld f) /\
  Forall (fun minor =>
            exists g,
              checkRequiredGoVersion ParseFloat_exact
                (quiet_env (B ("go version go1." +:+ fmt_d minor +:+ " linux/amd64")))
              = Exit 1 (FatalGoTooOld g))
         [10; 11; 12; 13; 14; 15; 16; 17; 18; 19;
          20; 21; 22; 23; 24; 25; 26; 27; 28; 29]%Z /\
  checkRequiredGoVersion ParseFloat_exact
    (quiet_env (B "go version go1.9 linux/amd64")) = Done [] /\
  checkRequiredGoVersion ParseFloat_exact
    (quiet_env (B "go version go1.3 linux/amd64")) = Done [].
Proof.
  cbv zeta.
  split; [vm_compute; reflexivity|].
  split; [vm_compute; reflexivity|].
  split; [vm_compute; reflexivity|].
  split; [vm_compute; reflexivity|].
  split; [vm_compute; reflexivity|].
  split; [vm_compute; reflexivity|].
  split; [|split; vm_compute; reflexivity].
  repeat (apply List.Forall_cons; [eexists; vm_compute; reflexivity|]).
  apply List.Forall_nil.
Qed.

(** ** Fallible steps *)

Lemma or_fatal_Done {A} (r : res A) a : or_fatal r = Done a <-> r = Ok a.
Proof. unfold or_fatal, log_Fatal. destruct r; split; congruence. Qed.

Lemma proc_bind_Done {A C} (p : proc A) (k : A -> proc C) c :
  proc_bind p k = Done c <-> exists a, p = Done a /\ k a = Done c.
Proof.
  destruct p; simpl; split.
  - eauto.
  - by intros (a' & [= ->] & ?).
  - done.
  - by intros (a' & ? & _).
Qed.

Lemma attempt_Ok E o u : attempt E o = Ok u <-> fault E o = false.
Proof. unfold attempt. destruct (fault E o), u; split; congruence. Qed.

Lemma os_Open_Ok E fs path sf :
  os_Open E fs path = Ok sf <->
  exists file, fs !! path = Some file /\ fault E (OpOpen path) = false /\
               sf = {| fd_path := path; fd_file := file |}.
Proof.
  unfold os_Open, attempt. destruct (fs !! path) as [file|]; simpl.
  - destruct (fault E (OpOpen path)); simpl; split.
    + done.
    + by intros (? & _ & ? & _).
    + intros [= <-]. eauto.
    + by intros (? & [= <-] & _ & ->).
  - split; [done|]. by intros (? & ? & _).
Qed.

Lemma os_Create_Ok E fs path fs' :
  os_Create E fs path = Ok fs' ->
  fault E (OpCreate path) = false /\
  forall p, p <> path -> fs' !! p = fs !! p.
Proof.
  unfold os_Create, attempt. destruct (fault E (OpCreate path)); simpl; [done|].
  intros [= <-]. split; [done|]. intros p Hp. by rewrite lookup_insert_ne.
Qed.

Lemma os_Create_progress E fs path :
  fault E (OpCreate path) = false -> exists fs', os_Create E fs path = Ok fs'.
Proof. unfold os_Create, attempt. intros ->. simpl. eauto. Qed.

(** ** [tarGz] *)

(** One turn of the loop of [tarGz] that does not exit. *)
Lemma tarGz_loop_cons E fs f files archive :
  tarGz_loop E fs (f :: files) = Done archive <->
  exists file rest,
    fs !! src f = Some file /\
    fault E (OpOpen (src f)) = false /\ fault E (OpStat (src f)) = false /\
    fault E (OpTarWriteHeader (dst f)) = false /\ fault E (OpCopy (src f)) = false /\
    tarGz_loop E fs files = Done rest /\
    archive = tar_entry f file :: rest.
Proof.
  cbn [tarGz_loop]. unfold os_Open, File_Stat, io_Copy, attempt.
  destruct (fs !! src f) as [file|]; simpl;
    [|split; [done|by intros (? & ? & ? & _)]].
  destruct (fault E (OpOpen (src f))); simpl;
    [split; [done|by intros (? & ? & _ & ? & _)]|].
  destruct (fault E (OpStat (src f))); simpl;
    [split; [done|by intros (? & ? & _ & _ & ? & _)]|].
  destruct (fault E (OpTarWriteHeader (dst f))); simpl;
    [split; [done|by intros (? & ? & _ & _ & _ & ? & _)]|].
  destruct (fault E (OpCopy (src f))); simpl;
    [split; [done|by intros (? & ? & _ & _ & _ & _ & ? & _)]|].
  destruct (tarGz_loop E fs files) as [rest|]; simpl.
  - split.
    + intros [= <-]. exists file, rest. by repeat split.
    + by intros (? & ? & [= <-] & _ & _ & _ & _ & [= <-] & ->).
  - split; [done|]. by intros (? & ? & _ & _ & _ & _ & _ & ? & _).
Qed.

Lemma tarGz_loop_Done E fs : forall files archive,
  tarGz_loop E fs files = Done archive ->
  Forall2 (fun f e => exists file, fs !! src f = Some file /\ e = tar_entry f file)
          files archive.
Proof.
  induction files as [|f files IH]; intros archive.
  - intros [= <-]. constructor.
  - intros (file & rest & Hf & _ & _ & _ & _ & Hrest & ->)%tarGz_loop_cons.
    constructor; [eauto|by apply IH].
Qed.

Lemma tarGz_loop_progress E fs : forall files,
  no_faults E -> sources_exist fs files ->
  exists archive, tarGz_loop E fs files = Done archive.
Proof.
  intros files HE. induction 1 as [|f files [file Hf] _ [rest IH]].
  - by exists [].
  - exists (tar_entry f file :: rest). apply tarGz_loop_cons.
    exists file, rest. by repeat split.
Qed.

Lemma tarGz_Done E fs out files archive :
  tarGz E fs out files = Done archive <->
  exists fs', os_Create E fs out = Ok fs' /\
    tarGz_loop E fs' files = Done archive /\
    fault E OpTarClose = false /\ fault E OpGzipClose = false /\
    fault E (OpFileClose out) = false.
Proof.
  unfold tarGz. split.
  - intros H.
    apply proc_bind_Done in H as (fs' & Hc%or_fatal_Done & H).
    apply proc_bind_Done in H as (entries & Hl & H).
    apply proc_bind_Done in H as (u1 & H1%or_fatal_Done%attempt_Ok & H).
    apply proc_bind_Done in H as (u2 & H2%or_fatal_Done%attempt_Ok & H).
    apply proc_bind_Done in H as (u3 & H3%or_fatal_Done%attempt_Ok & H).
    injection H as <-. by exists fs'.
  - intros (fs' & Hc & Hl & H1 & H2 & H3).
    rewrite Hc. simpl. rewrite Hl. simpl. unfold attempt.
    by rewrite H1, H2, H3.
Qed.

Lemma Forall2_sources_after_create (fs fs' : gmap string inode) out files
    {A} (P : archiveFile -> inode -> A -> Prop) (archive : list A) :
  (forall p, p <> out -> fs' !! p = fs !! p) ->
  Forall (fun f => src f <> out) files ->
  Forall2 (fun f e => exists file, fs' !! src f = Some file /\ P f file e) files archive ->
  Forall2 (fun f e => exists file, fs !! src f = Some file /\ P f file e) files archive.
Proof.
  intros Hfs Hout H. induction H as [|f e files archive (file & Hf & HP) _ IH].
  - constructor.
  - apply Forall_cons in Hout as [Hne Hout]. constructor; [|by apply IH].
    exists file. by rewrite <- (Hfs _ Hne).
Qed.

Lemma tarGz_loop_perm E fs : forall files files',
  map src files' = map src files -> map dst files' = map dst files ->
  tarGz_loop E fs files' = tarGz_loop E fs files.
Proof.
  induction files as [|f files IH]; intros [|f' files'] Hs Hd;
    try discriminate; [done|].
  injection Hs as Hs1 Hs. injection Hd as Hd1 Hd.
  cbn [tarGz_loop]. rewrite Hs1, Hd1. by rewrite (IH files' Hs Hd).
Qed.

Lemma int64_uint32 m : (0 <= m < 2 ^ 32)%Z -> int64 m = m.
Proof. intros Hm. unfold int64. rewrite Z.mod_small; lia. Qed.

(** C7: when [tarGz] returns, the archive has one entry per manifest
    entry, in order; its header carries the destination path as the name,
    the size, the mode bits and the modification time of the source file
    (the manifest's [perm] has no part in it: two manifests with the same
    sources and destinations give the same result), and its content is the
    source's bytes.  Without faults and with all sources there, [tarGz]
    does return. *)
Theorem tarGz_headers (E : env) (fs : gmap string inode) (out : string)
    (files : list archiveFile) :
  Forall (fun f => src f <> out) files ->
  (forall archive, tarGz E fs out files = Done archive ->
     Forall2 (fun f e => exists file,
                fs !! src f = Some file /\
                Name (fst e) = dst f /\
                Size (fst e) = Z.of_nat (length (f_data file)) /\
                Mode (fst e) = int64 (f_mode file) /\
                ((0 <= f_mode file < 2 ^ 32)%Z -> Mode (fst e) = f_mode file) /\
                ModTime (fst e) = f_modTime file /\
                snd e = f_data file)
             files archive) /\
  (no_faults E -> sources_exist fs files ->
     exists archive, tarGz E fs out files = Done archive) /\
  (forall files', map src files' = map src files ->
                  map dst files' = map dst files ->
                  tarGz E fs out files' = tarGz E fs out files).
Proof.
  intros Hout. split; [|split].
  - intros archive (fs' & Hc & Hl & _)%tarGz_Done.
    apply os_Create_Ok in Hc as [_ Hfs].
    apply tarGz_loop_Done in Hl.
    apply (Forall2_sources_after_create fs fs' out files
             (fun f file e => e = tar_entry f file)) in Hl; [|done|done].
    eapply Forall2_impl; [exact Hl|].
    intros f e (file & Hf & ->). exists file. simpl.
    repeat split; try done. apply int64_uint32.
  - intros HE Hsrc.
    destruct (os_Create_progress E fs out (HE _)) as [fs' Hc].
    pose proof (os_Create_Ok _ _ _ _ Hc) as [_ Hfs].
    destruct (tarGz_loop_progress E fs' files HE) as [archive Hl].
    { unfold sources_exist in *. rewrite Forall_forall in *.
      intros f Hf. rewrite Hfs; [by apply Hsrc|].
      by apply Hout. }
    exists archive. apply tarGz_Done. exists fs'. by repeat split.
  - intros files' Hs Hd. unfold tarGz.
    destruct (or_fatal (os_Create E fs out)) as [fs'|]; simpl; [|done].
    by rewrite (tarGz_loop_perm E fs' files files' Hs Hd).
Qed.

Lemma tarGz_headers_witness :
  Forall (fun f => src f <> "pkg.tar.gz"%string) sample_manifest /\
  tarGz (quiet_env []) sample_fs "pkg.tar.gz" sample_manifest
  = Done [ ({| Name := "pkg/README.txt"; Size := 5; Mode := 420;
               ModTime := 1424000000 |}, B "hello") ] /\
  (forall archive,
     tarGz (quiet_env []) sample_fs "pkg.tar.gz" sample_manifest = Done archive ->
     Forall2 (fun f e => exists file,
                sample_fs !! src f = Some file /\
                Name (fst e) = dst f /\
                Size (fst e) = Z.of_nat (length (f_data file)) /\
                Mode (fst e) = int64 (f_mode file) /\
                ((0 <= f_mode file < 2 ^ 32)%Z -> Mode (fst e) = f_mode file) /\
                ModTime (fst e) = f_modTime file /\
                snd e = f_data file)
             sample_manifest archive).
Proof.
  assert (Forall (fun f => src f <> "pkg.tar.gz"%string) sample_manifest) as Hout
    by (repeat constructor; discriminate).
  split; [exact Hout|]. split; [vm_compute; reflexivity|].
  exact (proj1 (tarGz_headers (quiet_env []) sample_fs "pkg.tar.gz"
                  sample_manifest Hout)).
Defined.

(** ** [zipFile] *)

(** A writer that holds an error lets no further entry through. *)
Lemma zipFile_loop_failed E fs e : forall files r,
  zipFile_loop E fs (Some e) files = Done r -> files = [] /\ r = ([], Some e).
Proof.
  intros [|f files] r; [by intros [= <-]|].
  cbn [zipFile_loop]. intros H. exfalso.
  apply proc_bind_Done in H as (sf & _ & H).
  apply proc_bind_Done in H as (info & _ & H).
  apply proc_bind_Done in H as (fh & _ & H).
  destruct (strings_HasSuffix (dst f) ".txt").
  - apply proc_bind_Done in H as (bs & _ & H).
    by apply proc_bind_Done in H as (u & Hc & _).
  - by apply proc_bind_Done in H as (u & Hc & _).
Qed.

(** One turn of the loop of [zipFile] after which the writer holds no
    error. *)
Lemma zipFile_loop_cons E fs f files archive :
  zipFile_loop E fs None (f :: files) = Done (archive, None) <->
  exists file rest,
    fs !! src f = Some file /\
    fault E (OpOpen (src f)) = false /\ fault E (OpStat (src f)) = false /\
    fault E (OpZipFileInfoHeader (src f)) = false /\
    fault E (if strings_HasSuffix (dst f) ".txt"
             then OpReadAll (src f) else OpCopy (src f)) = false /\
    fault E (OpZipCreateHeader (dst f)) = false /\
    (strings_HasSuffix (dst f) ".txt" = true ->
     fault E (OpZipWrite (dst f)) = false) /\
    zipFile_loop E fs None files = Done (rest, None) /\
    archive = zip_entry f file :: rest.
Proof.
  cbn [zipFile_loop]. unfold zip_entry. split.
  - intros H.
    apply proc_bind_Done in H as (sf & (file & Hf & Ho & ->)%or_fatal_Done%os_Open_Ok & H).
    unfold File_Stat, zip_FileInfoHeader, ioutil_ReadAll, io_Copy,
      zip_CreateHeader, zip_Write, attempt in H.
    cbn [fd_path fd_file] in H.
    destruct (fault E (OpStat (src f))) eqn:Hs; [done|]. simpl in H.
    destruct (fault E (OpZipFileInfoHeader (src f))) eqn:Hh; [done|]. simpl in H.
    destruct (strings_HasSuffix (dst f) ".txt").
    + destruct (fault E (OpReadAll (src f))) eqn:Hr; [done|]. simpl in H.
      destruct (fault E (OpZipCreateHeader (dst f))) eqn:Hc; [done|]. simpl in H.
      destruct (fault E (OpZipWrite (dst f))) eqn:Hw; simpl in H.
      * destruct (zipFile_loop E fs (Some _) files) as [r|] eqn:Hl; [|done].
        apply zipFile_loop_failed in Hl as [-> ->]. done.
      * destruct (zipFile_loop E fs None files) as [[rest zw]|] eqn:Hl; [|done].
        simpl in H. injection H as <- ->. exists file, rest. by repeat split.
    + destruct (fault E (OpZipCreateHeader (dst f))) eqn:Hc; [done|]. simpl in H.
      destruct (fault E (OpCopy (src f))) eqn:Hr; [done|]. simpl in H.
      destruct (zipFile_loop E fs None files) as [[rest zw]|] eqn:Hl; [|done].
      simpl in H. injection H as <- ->. exists file, rest. by repeat split.
  - intros (file & rest & Hf & Ho & Hs & Hh & Hr & Hc & Hw & Hl & ->).
    unfold os_Open, File_Stat, zip_FileInfoHeader, ioutil_ReadAll, io_Copy,
      zip_CreateHeader, zip_Write, attempt.
    rewrite Hf. simpl. rewrite Ho. simpl. rewrite Hs. simpl. rewrite Hh. simpl.
    destruct (strings_HasSuffix (dst f) ".txt").
    + rewrite Hr; simpl; rewrite Hc; simpl. rewrite (Hw eq_refl). simpl.
      rewrite Hl. reflexivity.
    + rewrite Hr; simpl; rewrite Hc; simpl; rewrite Hl; reflexivity.
Qed.

Lemma zipFile_loop_Done E fs : forall files archive,
  zipFile_loop E fs None files = Done (archive, None) ->
  Forall2 (fun f e => exists file, fs !! src f = Some file /\ e = zip_entry f file)
          files archive.
Proof.
  induction files as [|f files IH]; intros archive.
  - intros [= <-]. constructor.
  - intros (file & rest & Hf & _ & _ & _ & _ & _ & _ & Hrest & ->)%zipFile_loop_cons.
    constructor; [eauto|by apply IH].
Qed.

Lemma zipFile_loop_progress E fs : forall files,
  no_faults E -> sources_exist fs files ->
  exists archive, zipFile_loop E fs None files = Done (archive, None).
Proof.
  intros files HE. induction 1 as [|f files [file Hf] _ [rest IH]].
  - by exists [].
  - exists (zip_entry f file :: rest). apply zipFile_loop_cons.
    exists file, rest. by repeat split.
Qed.

Lemma zipFile_Done E fs out files archive :
  zipFile E fs out files = Done archive <->
  exists fs', os_Create E fs out = Ok fs' /\
    zipFile_loop E fs' None files = Done (archive, None) /\
    fault E OpZipClose = false /\ fault E (OpFileClose out) = false.
Proof.
  unfold zipFile. split.
  - intros H.
    apply proc_bind_Done in H as (fs' & Hc%or_fatal_Done & H).
    apply proc_bind_Done in H as ([entries zw] & Hl & H).
    destruct zw as [e|]; [done|]. cbn [snd fst zip_Close] in H.
    apply proc_bind_Done in H as (u1 & H1%or_fatal_Done%attempt_Ok & H).
    apply proc_bind_Done in H as (u2 & H2%or_fatal_Done%attempt_Ok & H).
    injection H as <-. by exists fs'.
  - intros (fs' & Hc & Hl & H1 & H2).
    rewrite Hc. simpl. rewrite Hl. simpl. unfold attempt.
    by rewrite H1, H2.
Qed.

(** ** Line endings *)

Lemma replace_lf s :
  bytes_Replace s [x0a] [x0a; x0d] (-1)
  = flat_map (fun b => if Byte.eqb x0a b then [x0a; x0d] else [b]) s.
Proof.
  unfold bytes_Replace. simpl.
  induction s as [|c s IH]; [done|].
  cbn [replace_loop has_prefix flat_map length Nat.sub option_map].
  rewrite andb_true_r. destruct (Byte.eqb x0a c) eqn:Hc.
  - by rewrite IH.
  - simpl. by rewrite IH.
Qed.

Lemma replace_lf_cr_added s :
  cr_added s (bytes_Replace s [x0a] [x0a; x0d] (-1)).
Proof.
  rewrite replace_lf. induction s as [|c s IH]; simpl; [constructor|].
  destruct (Byte.eqb x0a c) eqn:Hc.
  - apply byte_dec_bl in Hc as <-. simpl. by apply cr_added_after.
  - simpl. apply cr_added_other; [|done]. intros ->. discriminate.
Qed.

Lemma cr_added_length s out :
  cr_added s out -> length out = length s + count_byte x0a s.
Proof.
  unfold count_byte. induction 1 as [|b s out Hb _ IH|s out _ IH|s out _ IH]; simpl.
  - done.
  - destruct (Byte.eqb x0a b) eqn:Heq; [|lia].
    apply byte_dec_bl in Heq. congruence.
  - lia.
  - lia.
Qed.

(** C1, as stated, fails: the line feeds of a text entry are followed, not
    preceded, by the carriage return ([a\nb\n] becomes [a\n\rb\n\r]), and
    one is added also where a carriage return is there already ([a\r\n]
    becomes [a\r\n\r]). *)
Lemma zipFile_text_gets_lf_cr :
  zipFile (quiet_env []) text_fs "out.zip"
    [entry "unix.md" "x.txt"; entry "dos.md" "y.txt"]
  = Done
      [ ({| zName := "x.txt"; Method := 8; UncompressedSize := 6;
            UncompressedSize64 := 6; zMode := 420; zModTime := 0 |},
         B "a" ++ [x0a; x0d] ++ B "b" ++ [x0a; x0d]);
        ({| zName := "y.txt"; Method := 8; UncompressedSize := 4;
            UncompressedSize64 := 4; zMode := 420; zModTime := 0 |},
         B "a" ++ [x0d; x0a; x0d]) ].
Proof. vm_compute. reflexivity. Qed.

(** C1, amended: when [zipFile] returns and the writes to the entries did
    not fail, an entry whose destination ends in [.txt] holds the source
    with one carriage return added next to every line feed, whether or not
    one was there, and nothing else changed; its declared uncompressed
    size is the length of that content, the source's length plus its
    number of line feeds.  Every other entry holds the source's bytes.
    Without faults and with all sources there, [zipFile] does return. *)
Theorem zipFile_text_entries (E : env) (fs : gmap string inode) (out : string)
    (files : list archiveFile) :
  Forall (fun f => src f <> out) files ->
  (forall name, fault E (OpZipWrite name) = false) ->
  (forall archive, zipFile E fs out files = Done archive ->
     Forall2 (fun f e => exists file,
                fs !! src f = Some file /\
                zName (fst e) = dst f /\
                if strings_HasSuffix (dst f) ".txt" then
                  cr_added (f_data file) (snd e) /\
                  length (snd e)
                  = length (f_data file) + count_byte x0a (f_data file) /\
                  UncompressedSize (fst e) = uint32 (Z.of_nat (length (snd e))) /\
                  UncompressedSize64 (fst e) = uint64 (Z.of_nat (length (snd e)))
                else snd e = f_data file)
             files archive) /\
  (no_faults E -> sources_exist fs files ->
     exists archive, zipFile E fs out files = Done archive).
Proof.
  intros Hout Hw. split.
  - intros archive (fs' & Hc & Hl & _)%zipFile_Done.
    apply os_Create_Ok in Hc as [_ Hfs].
    apply zipFile_loop_Done in Hl.
    apply (Forall2_sources_after_create fs fs' out files
             (fun f file e => e = zip_entry f file)) in Hl; [|done|done].
    eapply Forall2_impl; [exact Hl|].
    intros f e (file & Hf & ->). exists file. unfold zip_entry.
    destruct (strings_HasSuffix (dst f) ".txt"); simpl; [|done].
    repeat split; try done.
    + apply replace_lf_cr_added.
    + apply cr_added_length, replace_lf_cr_added.
  - intros HE Hsrc.
    destruct (os_Create_progress E fs out (HE _)) as [fs' Hc].
    pose proof (os_Create_Ok _ _ _ _ Hc) as [_ Hfs].
    destruct (zipFile_loop_progress E fs' files HE) as [archive Hl].
    { unfold sources_exist in *. rewrite Forall_forall in *.
      intros f Hf. rewrite Hfs; [by apply Hsrc|].
      by apply Hout. }
    exists archive. apply zipFile_Done. exists fs'. by repeat split.
Qed.

Lemma zipFile_text_entries_witness :
  let files := [entry "unix.md" "x.txt"; entry "dos.md" "docs/dos.md"] in
  Forall (fun f => src f <> "out.zip"%string) files /\
  (forall name, fault (quiet_env []) (OpZipWrite name) = false) /\
  (forall archive,
     zipFile (quiet_env []) text_fs "out.zip" files = Done archive ->
     Forall2 (fun f e => exists file,
                text_fs !! src f = Some file /\
                zName (fst e) = dst f /\
                if strings_HasSuffix (dst f) ".txt" then
                  cr_added (f_data file) (snd e) /\
                  length (snd e)
                  = length (f_data file) + count_byte x0a (f_data file) /\
                  UncompressedSize (fst e) = uint32 (Z.of_nat (length (snd e))) /\
                  UncompressedSize64 (fst e) = uint64 (Z.of_nat (length (snd e)))
                else snd e = f_data file)
             files archive) /\
  exists archive,
    zipFile (quiet_env []) text_fs "out.zip" files = Done archive.
Proof.
  intros files.
  assert (Forall (fun f => src f <> "out.zip"%string) files) as Hout
    by (repeat constructor; discriminate).
  assert (forall name, fault (quiet_env []) (OpZipWrite name) = false) as Hw
    by reflexivity.
  split; [exact Hout|]. split; [exact Hw|].
  destruct (zipFile_text_entries (quiet_env []) text_fs "out.zip" files Hout Hw)
    as [Hdone Hprog].
  split; [exact Hdone|]. apply Hprog; [by intros o|].
  repeat constructor; vm_compute; eauto.
Defined.

(** ** Destinations and failures *)





Lemma checked_or_fatal {A} (r : res A) : checked (or_fatal r).
Proof. destruct r; simpl; eauto. Qed.

Lemma checked_bind {A C} (p : proc A) (k : A -> proc C) :
  checked p -> (forall a, checked (k a)) -> checked (proc_bind p k).
Proof. destruct p; simpl; eauto. Qed.

Lemma tarGz_loop_checked E fs files : checked (tarGz_loop E fs files).
Proof.
  induction files as [|f files IH]; [done|]. cbn [tarGz_loop].
  repeat (apply checked_bind; [first [apply checked_or_fatal|done]|intros ?]).
  done.
Qed.

Lemma tarGz_checked E fs out files : checked (tarGz E fs out files).
Proof.
  unfold tarGz.
  repeat (apply checked_bind;
          [first [apply checked_or_fatal|apply tarGz_loop_checked]|intros ?]).
  done.
Qed.

Lemma tarGz_loop_ops E fs : forall files archive,
  tarGz_loop E fs files = Done archive ->
  forall o, In o (flat_map (fun f => [OpOpen (src f); OpStat (src f);
                                      OpTarWriteHeader (dst f); OpCopy (src f)])
                           files) ->
            fault E o = false.
Proof.
  induction files as [|f files IH]; intros archive H o Ho; [done|].
  apply tarGz_loop_cons in H as (file & rest & _ & H1 & H2 & H3 & H4 & Hrest & _).
  simpl in Ho. destruct Ho as [<-|[<-|[<-|[<-|Ho]]]]; try done.
  by apply (IH rest).
Qed.

(** Every operation of [tarGz] is checked: if one of them fails, the
    process exits with status 1. *)
Theorem tarGz_fatal_on_fault E fs out files o :
  In o (tarGz_ops out files) -> fault E o = true ->
  exists e, tarGz E fs out files = Exit 1 (FatalErr e).
Proof.
  intros Ho Hf. pose proof (tarGz_checked E fs out files) as Hc.
  destruct (tarGz E fs out files) as [archive|st m] eqn:Ht.
  - exfalso. apply tarGz_Done in Ht as (fs' & Hcr & Hl & H1 & H2 & H3).
    apply os_Create_Ok in Hcr as [Hcr _].
    unfold tarGz_ops in Ho. destruct Ho as [<-|Ho]; [congruence|].
    apply in_app_or in Ho as [Ho|Ho].
    + pose proof (tarGz_loop_ops _ _ _ _ Hl o Ho). congruence.
    + simpl in Ho. destruct Ho as [<-|[<-|[<-|[]]]]; congruence.
  - destruct Hc as [-> [e ->]]. eauto.
Qed.

Lemma zipFile_loop_ops E fs : forall files archive,
  zipFile_loop E fs None files = Done (archive, None) ->
  forall o, In o (flat_map (fun f => [OpOpen (src f); OpStat (src f);
                                      OpZipFileInfoHeader (src f);
                                      if strings_HasSuffix (dst f) ".txt"
                                      then OpReadAll (src f) else OpCopy (src f);
                                      OpZipCreateHeader (dst f)]) files) ->
            fault E o = false.
Proof.
  induction files as [|f files IH]; intros archive H o Ho; [done|].
  apply zipFile_loop_cons in H
    as (file & rest & _ & H1 & H2 & H3 & H4 & H5 & _ & Hrest & _).
  simpl in Ho. destruct Ho as [<-|[<-|[<-|[<-|[<-|Ho]]]]]; try done.
  by apply (IH rest).
Qed.

(** The operations of [zipFile] other than the write of a text entry are
    checked: when it returns, none of them has failed. *)
Theorem zipFile_checked_ops E fs out files archive o :
  zipFile E fs out files = Done archive ->
  In o (zipFile_ops out files) -> fault E o = false.
Proof.
  intros (fs' & Hcr & Hl & H1 & H2)%zipFile_Done Ho.
  apply os_Create_Ok in Hcr as [Hcr _].
  unfold zipFile_ops in Ho. destruct Ho as [<-|Ho]; [done|].
  apply in_app_or in Ho as [Ho|Ho].
  - by apply (zipFile_loop_ops _ _ _ _ Hl o Ho).
  - simpl in Ho. by destruct Ho as [<-|[<-|[]]].
Qed.

Lemma tarGz_fatal_on_fault_witness :
  In (OpCopy "unix.md") (tarGz_ops "out.tar.gz" [entry "unix.md" "x.txt"]) /\
  fault copy_fails (OpCopy "unix.md") = true /\
  exists e, tarGz copy_fails text_fs "out.tar.gz" [entry "unix.md" "x.txt"]
            = Exit 1 (FatalErr e).
Proof.
  assert (In (OpCopy "unix.md") (tarGz_ops "out.tar.gz" [entry "unix.md" "x.txt"]))
    as Hin by (simpl; tauto).
  split; [exact Hin|]. split; [reflexivity|].
  exact (tarGz_fatal_on_fault copy_fails text_fs "out.tar.gz"
           [entry "unix.md" "x.txt"] (OpCopy "unix.md") Hin eq_refl).
Defined.

Lemma zipFile_checked_ops_witness :
  let files := [entry "unix.md" "x.txt"] in
  let archive :=
    [ ({| zName := "x.txt"; Method := 8; UncompressedSize := 6;
          UncompressedSize64 := 6; zMode := 420; zModTime := 0 |},
       B "a" ++ [x0a; x0d] ++ B "b" ++ [x0a; x0d]) ] in
  zipFile (quiet_env []) text_fs "out.zip" files = Done archive /\
  In OpZipClose (zipFile_ops "out.zip" files) /\
  fault (quiet_env []) OpZipClose = false.
Proof.
  intros files archive.
  assert (zipFile (quiet_env []) text_fs "out.zip" files = Done archive) as Hz
    by (vm_compute; reflexivity).
  assert (In OpZipClose (zipFile_ops "out.zip" files)) as Hin
    by (simpl; tauto).
  split; [exact Hz|]. split; [exact Hin|].
  exact (zipFile_checked_ops (quiet_env []) text_fs "out.zip" files archive
           OpZipClose Hz Hin).
Defined.

Lemma zipFile_loop_checked E fs : forall files zw,
  checked (zipFile_loop E fs zw files).
Proof.
  induction files as [|f files IH]; intros zw; [done|]. cbn [zipFile_loop].
  do 3 (apply checked_bind; [apply checked_or_fatal|intros ?]).
  destruct (strings_HasSuffix (dst f) ".txt").
  - do 2 (apply checked_bind; [apply checked_or_fatal|intros ?]).
    apply checked_bind; [apply IH|done].
  - do 2 (apply checked_bind; [apply checked_or_fatal|intros ?]).
    apply checked_bind; [apply IH|done].
Qed.

Lemma zipFile_checked E fs out files : checked (zipFile E fs out files).
Proof.
  unfold zipFile.
  apply checked_bind; [apply checked_or_fatal|intros ?].
  apply checked_bind; [apply zipFile_loop_checked|intros ?].
  do 2 (apply checked_bind; [apply checked_or_fatal|intros ?]).
  done.
Qed.

(** When [zipFile] returns, no write of a text entry has failed. *)
Lemma zipFile_loop_writes E fs : forall files archive,
  zipFile_loop E fs None files = Done (archive, None) ->
  forall o, In o (zipFile_writes files) -> fault E o = false.
Proof.
  induction files as [|f files IH]; intros archive H o Ho; [done|].
  apply zipFile_loop_cons in H
    as (file & rest & _ & _ & _ & _ & _ & _ & Hw & Hrest & _).
  unfold zipFile_writes in Ho. cbn [flat_map] in Ho.
  apply in_app_or in Ho as [Ho|Ho]; [|by apply (IH rest)].
  destruct (strings_HasSuffix (dst f) ".txt"); [|done].
  destruct Ho as [<-|[]]. by apply Hw.
Qed.

Lemma tarGz_returns E fs out files archive :
  tarGz E fs out files = Done archive ->
  (forall o, In o (tarGz_ops out files) -> fault E o = false) /\
  (forall f, In f files -> src f <> out -> is_Some (fs !! src f)).
Proof.
  intros (fs' & Hcr & Hl & H1 & H2 & H3)%tarGz_Done.
  apply os_Create_Ok in Hcr as [Hcr Hfs]. split.
  - intros o Ho. unfold tarGz_ops in Ho. destruct Ho as [<-|Ho]; [done|].
    apply in_app_or in Ho as [Ho|Ho].
    + by apply (tarGz_loop_ops _ _ _ _ Hl o Ho).
    + simpl in Ho. by destruct Ho as [<-|[<-|[<-|[]]]].
  - intros f Hf Hne. apply tarGz_loop_Done in Hl.
    assert (Forall (fun f => is_Some (fs' !! src f)) files) as Hall.
    { eapply Forall2_Forall_l; [exact Hl|].
      apply List.Forall_forall. intros e _ f' (file & Hfile & _). eauto. }
    rewrite List.Forall_forall in Hall. rewrite <- (Hfs _ Hne). by apply Hall.
Qed.

Lemma zipFile_returns E fs out files archive :
  zipFile E fs out files = Done archive ->
  (forall o, In o (zipFile_ops out files ++ zipFile_writes files) ->
             fault E o = false) /\
  (forall f, In f files -> src f <> out -> is_Some (fs !! src f)).
Proof.
  intros (fs' & Hcr & Hl & H1 & H2)%zipFile_Done.
  apply os_Create_Ok in Hcr as [Hcr Hfs]. split.
  - intros o Ho. apply in_app_or in Ho as [Ho|Ho].
    + unfold zipFile_ops in Ho. destruct Ho as [<-|Ho]; [done|].
      apply in_app_or in Ho as [Ho|Ho].
      * by apply (zipFile_loop_ops _ _ _ _ Hl o Ho).
      * simpl in Ho. by destruct Ho as [<-|[<-|[]]].
    + by apply (zipFile_loop_writes _ _ _ _ Hl).
  - intros f Hf Hne. apply zipFile_loop_Done in Hl.
    assert (Forall (fun f => is_Some (fs' !! src f)) files) as Hall.
    { eapply Forall2_Forall_l; [exact Hl|].
      apply List.Forall_forall. intros e _ f' (file & Hfile & _). eauto. }
    rewrite List.Forall_forall in Hall. rewrite <- (Hfs _ Hne). by apply Hall.
Qed.

Lemma checked_exits {A} (p : proc A) :
  checked p -> (forall a, p <> Done a) -> exists e, p = Exit 1 (FatalErr e).
Proof.
  destruct p as [a|st m]; simpl.
  - intros _ H. by destruct (H a).
  - intros [-> [e ->]] _. eauto.
Qed.

(** C8: [tarGz] and [zipFile] either return or end the process with
    status 1 and the error.  They end it whenever one of their operations
    fails: the creation of the output, the opening of a source (a source
    that is not there included), its [Stat], the making or the writing of
    the header of an entry, the reading or the copying of the content,
    the closing of the tar, gzip or zip stream and of the output file;
    and, in [zipFile], the write of a text entry, whose error the script
    itself drops: the writer keeps it, and the [CreateHeader] of the next
    entry or the [Close] of the writer, which are checked, return it. *)
Theorem archive_failures_are_fatal (E : env) (fs : gmap string inode)
    (out : string) (files : list archiveFile) :
  checked (tarGz E fs out files) /\
  checked (zipFile E fs out files) /\
  (forall o, In o (tarGz_ops out files) -> fault E o = true ->
     exists e, tarGz E fs out files = Exit 1 (FatalErr e)) /\
  (forall o, In o (zipFile_ops out files ++ zipFile_writes files) ->
     fault E o = true ->
     exists e, zipFile E fs out files = Exit 1 (FatalErr e)) /\
  (forall f, In f files -> src f <> out -> fs !! src f = None ->
     (exists e, tarGz E fs out files = Exit 1 (FatalErr e)) /\
     (exists e, zipFile E fs out files = Exit 1 (FatalErr e))) /\
  zipFile zip_write_fails text_fs "out.zip" [entry "unix.md" "x.txt"]
  = Exit 1 (FatalErr (EIO (OpZipWrite "x.txt"))) /\
  zipFile zip_write_fails text_fs "out.zip"
    [entry "unix.md" "x.txt"; entry "dos.md" "y.bin"]
  = Exit 1 (FatalErr (EIO (OpZipWrite "x.txt"))) /\
  zipFile copy_fails text_fs "out.zip" [entry "unix.md" "x.bin"]
  = Exit 1 (FatalErr (EIO (OpCopy "unix.md"))) /\
  tarGz copy_fails text_fs "out.tar.gz" [entry "unix.md" "x.txt"]
  = Exit 1 (FatalErr (EIO (OpCopy "unix.md"))) /\
  zipFile (quiet_env []) text_fs "out.zip" [entry "missing.md" "x.txt"]
  = Exit 1 (FatalErr (ENOENT "missing.md")).
Proof.
  pose proof (tarGz_checked E fs out files) as Ht.
  pose proof (zipFile_checked E fs out files) as Hz.
  split; [done|]. split; [done|].
  split; [|split; [|split]].
  - intros o Ho Hf. apply checked_exits; [done|].
    intros archive [Hops _]%tarGz_returns. rewrite (Hops o Ho) in Hf. done.
  - intros o Ho Hf. apply checked_exits; [done|].
    intros archive [Hops _]%zipFile_returns. rewrite (Hops o Ho) in Hf. done.
  - intros f Hin Hne Hnone. split; (apply checked_exits; [done|]).
    + intros archive [_ Hsrc]%tarGz_returns.
      destruct (Hsrc f Hin Hne) as [file Hfile]. congruence.
    + intros archive [_ Hsrc]%zipFile_returns.
      destruct (Hsrc f Hin Hne) as [file Hfile]. congruence.
  - split; [vm_compute; reflexivity|].
    split; [vm_compute; reflexivity|].
    split; [vm_compute; reflexivity|].
    split; vm_compute; reflexivity.
Qed.

(** ** Strings *)

Lemma string_length_app (a b : string) :
  String.length (a +:+ b) = String.length a + String.length b.
Proof. induction a as [|c a IH]; simpl; [done|]. by rewrite IH. Qed.

Lemma string_app_ne (a b : string) : b <> ""%string -> a <> a +:+ b.
Proof.
  intros Hb Heq. apply (f_equal String.length) in Heq.
  rewrite string_length_app in Heq. destruct b; [done|]. simpl in Heq. lia.
Qed.

Lemma string_of_list_byte_app (a b : bytes) :
  string_of_list_byte (a ++ b) = string_of_list_byte a +:+ string_of_list_byte b.
Proof.
  unfold string_of_list_byte. induction a as [|c a IH]; simpl; [done|].
  by rewrite IH.
Qed.

Lemma list_byte_of_string_app (a b : string) : B (a +:+ b) = B a ++ B b.
Proof.
  unfold list_byte_of_string. induction a as [|c a IH]; simpl; [done|].
  by rewrite IH.
Qed.

(** ** The checksum sidecar *)

Lemma length_le_bytes n z : length (le_bytes n z) = n.
Proof. revert z. induction n as [|n IH]; intros z; simpl; [done|]. by rewrite IH. Qed.

Lemma length_md5_Sum msg : length (md5_Sum msg) = 16.
Proof.
  unfold md5_Sum. destruct (md5_blocks _ _ _) as [[[a b] c] d].
  rewrite !length_app, !length_le_bytes. reflexivity.
Qed.

Lemma length_fmt_hex bs : length (fmt_hex bs) = 2 * length bs.
Proof. unfold fmt_hex. induction bs as [|b bs IH]; simpl; [done|]. rewrite IH. lia. Qed.

Lemma hex_digit_lower n : (n < 16)%N -> isLowerHex (hex_digit n) = true.
Proof.
  intros Hn. unfold hex_digit.
  assert (N.to_nat n < 16) as Hk by lia. revert Hk. generalize (N.to_nat n).
  intros k Hk. do 16 (destruct k as [|k]; [reflexivity|]). lia.
Qed.

Lemma fmt_hex_lower bs : Forall (fun b => isLowerHex b = true) (fmt_hex bs).
Proof.
  unfold fmt_hex. induction bs as [|b bs IH]; simpl; [constructor|].
  pose proof (Byte.to_N_bounded b).
  constructor; [|constructor; [|done]]; apply hex_digit_lower.
  - apply N.Div0.div_lt_upper_bound. lia.
  - apply N.mod_lt. lia.
Qed.

Lemma unhex_fmt_hex bs : unhex (fmt_hex bs) = bs.
Proof.
  induction bs as [|b bs IH]; [done|].
  change (fmt_hex (b :: bs))
    with (hex_digit (Byte.to_N b / 16) :: hex_digit (Byte.to_N b mod 16)
          :: fmt_hex bs).
  cbn [unhex]. rewrite IH. f_equal. destruct b; reflexivity.
Qed.

(** What a call of [md5File] that returns [nil] has done. *)
Lemma md5File_Ok E (fs : gmap string inode) file fs' :
  md5File E fs file = (Ok tt, fs') ->
  exists bin,
    fs !! file = Some bin /\
    (exists side, fs' !! (file +:+ ".md5") = Some side /\
                  f_data side = fmt_hex (md5_Sum (f_data bin)) ++ [x0a]) /\
    (forall p, p <> file +:+ ".md5" -> fs' !! p = fs !! p).
Proof.
  unfold md5File, os_Open, io_Copy, os_Create, attempt.
  destruct (fs !! file) as [bin|] eqn:Hbin; simpl; [|done].
  destruct (fault E (OpOpen file)); simpl; [done|].
  destruct (fault E (OpCopy file)); simpl; [done|].
  destruct (fault E (OpCreate (file +:+ ".md5"))); simpl; [done|].
  destruct (fault E (OpFprintf (file +:+ ".md5"))); simpl; [done|].
  destruct (fault E (OpFileClose (file +:+ ".md5"))); simpl; [done|].
  intros [= <-]. exists bin. split; [done|]. split.
  - rewrite lookup_alter_eq, lookup_insert_eq. simpl. eauto.
  - intros p Hp. by rewrite lookup_alter_ne, lookup_insert_ne.
Qed.

Lemma md5File_progress E (fs : gmap string inode) file :
  no_faults E -> is_Some (fs !! file) ->
  exists fs', md5File E fs file = (Ok tt, fs').
Proof.
  intros HE [bin Hbin].
  unfold md5File, os_Open, io_Copy, os_Create, attempt.
  rewrite Hbin. simpl. rewrite !HE. simpl. rewrite !HE. eauto.
Qed.

(** ** [md5_Sum] is the digest of RFC 1321 *)

Lemma md5_sum_order (f a t m : Z) : (f + a + t + m = a + f + m + t)%Z.
Proof. lia. Qed.

Lemma md5_round_F M st i :
  i < 16 ->
  md5_round M st i
  = md5_step rfc_F M st i (nth i md5_shifts 0%Z) (nth i md5_table 0%Z).
Proof.
  intros Hi. destruct st as [[[a b] c] d]. unfold md5_round, md5_step, rfc_F.
  destruct (Nat.ltb_spec i 16); [|lia].
  by rewrite md5_sum_order.
Qed.

Lemma md5_round_G M st i :
  16 <= i < 32 ->
  md5_round M st i
  = md5_step rfc_G M st ((5 * i + 1) mod 16) (nth i md5_shifts 0%Z) (nth i md5_table 0%Z).
Proof.
  intros Hi. destruct st as [[[a b] c] d]. unfold md5_round, md5_step, rfc_G.
  destruct (Nat.ltb_spec i 16); [lia|].
  destruct (Nat.ltb_spec i 32); [|lia].
  rewrite (Z.land_comm d b), (Z.land_comm (not32 d) c).
  by rewrite md5_sum_order.
Qed.

Lemma md5_round_H M st i :
  32 <= i < 48 ->
  md5_round M st i
  = md5_step rfc_H M st ((3 * i + 5) mod 16) (nth i md5_shifts 0%Z) (nth i md5_table 0%Z).
Proof.
  intros Hi. destruct st as [[[a b] c] d]. unfold md5_round, md5_step, rfc_H.
  destruct (Nat.ltb_spec i 16); [lia|].
  destruct (Nat.ltb_spec i 32); [lia|].
  destruct (Nat.ltb_spec i 48); [|lia].
  by rewrite md5_sum_order.
Qed.

Lemma md5_round_I M st i :
  48 <= i ->
  md5_round M st i
  = md5_step rfc_I M st ((7 * i) mod 16) (nth i md5_shifts 0%Z) (nth i md5_table 0%Z).
Proof.
  intros Hi. destruct st as [[[a b] c] d]. unfold md5_round, md5_step, rfc_I.
  destruct (Nat.ltb_spec i 16); [lia|].
  destruct (Nat.ltb_spec i 32); [lia|].
  destruct (Nat.ltb_spec i 48); [lia|].
  by rewrite md5_sum_order.
Qed.

(** Four operations that assign A, D, C and B in turn are four turns of
    the rotating registers of [md5_round]. *)
Lemma rfc_apply_four f X M st k0 s0 t0 k1 s1 t1 k2 s2 t2 k3 s3 t3 :
  X k0 = nth k0 M 0%Z -> X k1 = nth k1 M 0%Z ->
  X k2 = nth k2 M 0%Z -> X k3 = nth k3 M 0%Z ->
  rfc_apply f X
    (rfc_apply f X
       (rfc_apply f X (rfc_apply f X st (Op RegA k0 s0 t0)) (Op RegD k1 s1 t1))
       (Op RegC k2 s2 t2))
    (Op RegB k3 s3 t3)
  = md5_step f M
      (md5_step f M (md5_step f M (md5_step f M st k0 s0 t0) k1 s1 t1) k2 s2 t2)
      k3 s3 t3.
Proof.
  intros H0 H1 H2 H3. destruct st as [[[a b] c] d].
  unfold rfc_apply, md5_step, rfc_op. by rewrite H0, H1, H2, H3.
Qed.

Section Rounds.

Variable M : list Z.
Variable X : nat -> Z.
Hypothesis HX : forall k, k < 16 -> X k = nth k M 0%Z.

Lemma rfc_round1_eq st :
  fold_left (md5_round M) (seq 0 16) st = fold_left (rfc_apply rfc_F X) rfc_round1 st.
Proof.
  cbn [seq fold_left rfc_round1].
  rewrite !md5_round_F by lia.
  rewrite !(rfc_apply_four rfc_F X M) by (apply HX; lia).
  reflexivity.
Qed.

Lemma rfc_round2_eq st :
  fold_left (md5_round M) (seq 16 16) st = fold_left (rfc_apply rfc_G X) rfc_round2 st.
Proof.
  cbn [seq fold_left rfc_round2].
  rewrite !md5_round_G by lia.
  rewrite !(rfc_apply_four rfc_G X M) by (apply HX; lia).
  reflexivity.
Qed.

Lemma rfc_round3_eq st :
  fold_left (md5_round M) (seq 32 16) st = fold_left (rfc_apply rfc_H X) rfc_round3 st.
Proof.
  cbn [seq fold_left rfc_round3].
  rewrite !md5_round_H by lia.
  rewrite !(rfc_apply_four rfc_H X M) by (apply HX; lia).
  reflexivity.
Qed.

Lemma rfc_round4_eq st :
  fold_left (md5_round M) (seq 48 16) st = fold_left (rfc_apply rfc_I X) rfc_round4 st.
Proof.
  cbn [seq fold_left rfc_round4].
  rewrite !md5_round_I by lia.
  rewrite !(rfc_apply_four rfc_I X M) by (apply HX; lia).
  reflexivity.
Qed.

End Rounds.

Lemma nth_drop_add {A} (l : list A) n j d : nth j (drop n l) d = nth (n + j) l d.
Proof. by rewrite !nth_lookup, lookup_drop. Qed.

Lemma le_word_take4 l :
  le_word (take 4 l)
  = (Z_of_byte (nth 0 l x00) + 2 ^ 8 * Z_of_byte (nth 1 l x00)
     + 2 ^ 16 * Z_of_byte (nth 2 l x00) + 2 ^ 24 * Z_of_byte (nth 3 l x00))%Z.
Proof.
  destruct l as [|b0 [|b1 [|b2 [|b3 l]]]]; cbn [take le_word nth];
    change (Z_of_byte x00) with 0%Z; rewrite ?take_0; cbn [le_word]; lia.
Qed.

Lemma words_nth : forall n block k,
  k < n -> nth k (words n block) 0%Z = le_word (take 4 (drop (4 * k) block)).
Proof.
  induction n as [|n IH]; intros block k Hk; [lia|].
  destruct k as [|k]; cbn [words nth]; [done|].
  rewrite IH by lia. rewrite drop_drop. do 3 f_equal. lia.
Qed.

Lemma rfc_word_words block k :
  k < 16 -> rfc_word block k = nth k (words 16 block) 0%Z.
Proof.
  intros Hk. rewrite words_nth by done. rewrite le_word_take4.
  unfold rfc_word, rfc_byte. rewrite !nth_drop_add.
  by rewrite Nat.add_0_r.
Qed.

(** One block: [md5_block] does what section 3.4 says. *)
Lemma md5_block_rfc st block : md5_block st block = rfc_transform st block.
Proof.
  unfold md5_block, rfc_transform. destruct st as [[[a0 b0] c0] d0].
  change (seq 0 64) with (seq 0 16 ++ seq 16 16 ++ seq 32 16 ++ seq 48 16).
  rewrite !fold_left_app.
  rewrite (rfc_round1_eq _ (rfc_word block) (rfc_word_words block)).
  rewrite (rfc_round2_eq _ (rfc_word block) (rfc_word_words block)).
  rewrite (rfc_round3_eq _ (rfc_word block) (rfc_word_words block)).
  rewrite (rfc_round4_eq _ (rfc_word block) (rfc_word_words block)).
  cbv zeta.
  destruct (fold_left (rfc_apply rfc_I (rfc_word block)) rfc_round4 _)
    as [[[a b] c] d].
  by rewrite (Z.add_comm a0), (Z.add_comm b0), (Z.add_comm c0), (Z.add_comm d0).
Qed.

Lemma rfc_zeros_mod : forall fuel len,
  rfc_zeros fuel len = rfc_zeros fuel (len mod 64).
Proof.
  induction fuel as [|fuel IH]; intros len; [done|].
  cbn [rfc_zeros]. rewrite Nat.Div0.mod_mod.
  destruct (len mod 64 =? 56); [done|]. f_equal.
  rewrite (IH (S len)), (IH (S (len mod 64))). f_equal.
  change (S len) with (1 + len). change (S (len mod 64)) with (1 + len mod 64).
  by rewrite Nat.Div0.add_mod_idemp_r.
Qed.

Lemma rfc_zeros_repeat len :
  rfc_zeros 64 (S len) = repeat x00 ((55 + 64 - len mod 64) mod 64).
Proof.
  rewrite rfc_zeros_mod.
  change (S len) with (1 + len). rewrite <- Nat.Div0.add_mod_idemp_r.
  pose proof (Nat.mod_upper_bound len 64 ltac:(lia)) as Hr.
  revert Hr. generalize (len mod 64). intros r Hr.
  do 64 (destruct r as [|r]; [reflexivity|]). lia.
Qed.

Lemma byte_of_Z_mod z z' : (z mod 256 = z' mod 256)%Z -> byte_of_Z z = byte_of_Z z'.
Proof. unfold byte_of_Z. by intros ->. Qed.

(** A byte of a number is a byte of the number taken modulo a power of
    two that lies above it. *)
Lemma byte_at_mod z n m :
  (0 <= m -> m + 8 <= n ->
   (z mod 2 ^ n / 2 ^ m) mod 2 ^ 8 = (z / 2 ^ m) mod 2 ^ 8)%Z.
Proof.
  intros Hm Hn. apply Z.bits_inj'. intros k Hk.
  destruct (Z.lt_ge_cases k 8) as [Hlt|Hge].
  - rewrite !Z.mod_pow2_bits_low by lia.
    rewrite !Z.div_pow2_bits by lia.
    by rewrite Z.mod_pow2_bits_low by lia.
  - by rewrite !Z.mod_pow2_bits_high by lia.
Qed.

Lemma byte_of_Z_at z n m :
  (0 <= m -> m + 8 <= n -> byte_of_Z (z mod 2 ^ n / 2 ^ m) = byte_of_Z (z / 2 ^ m))%Z.
Proof.
  intros Hm Hn. apply byte_of_Z_mod. change 256%Z with (2 ^ 8)%Z.
  by apply byte_at_mod.
Qed.

Lemma byte_of_Z_low z n : (8 <= n)%Z -> byte_of_Z (z mod 2 ^ n) = byte_of_Z z.
Proof.
  intros Hn. transitivity (byte_of_Z (z mod 2 ^ n / 2 ^ 0)).
  - change (2 ^ 0)%Z with 1%Z. by rewrite Z.div_1_r.
  - rewrite byte_of_Z_at by lia. change (2 ^ 0)%Z with 1%Z. by rewrite Z.div_1_r.
Qed.

Lemma le_bytes_4 w :
  le_bytes 4 w
  = [ byte_of_Z w; byte_of_Z (w / 2 ^ 8); byte_of_Z (w / 2 ^ 16);
      byte_of_Z (w / 2 ^ 24) ]%Z.
Proof.
  cbn [le_bytes]. rewrite !Z.shiftr_shiftr by lia.
  rewrite !Z.shiftr_div_pow2 by lia. reflexivity.
Qed.

Lemma le_bytes_word w : le_bytes 4 w = rfc_word_bytes w.
Proof.
  rewrite le_bytes_4. unfold rfc_word_bytes.
  by rewrite !byte_of_Z_low by lia.
Qed.

Lemma le_bytes_8 z :
  le_bytes 8 z = le_bytes 4 z ++ le_bytes 4 (z / 2 ^ 32)%Z.
Proof.
  cbn [le_bytes app]. rewrite !Z.shiftr_shiftr by lia.
  rewrite !Z.shiftr_div_pow2 by lia.
  rewrite !Z.div_div by lia. reflexivity.
Qed.

Lemma le_bytes_length_field len :
  le_bytes 8 (8 * Z.of_nat len) = rfc_length len.
Proof.
  unfold rfc_length. cbv zeta. set (z := (8 * Z.of_nat len)%Z).
  rewrite le_bytes_8, !le_bytes_4. unfold rfc_word_bytes.
  rewrite !byte_of_Z_low by lia.
  rewrite !(byte_of_Z_at (z mod 2 ^ 64) 32) by lia.
  rewrite !Z.div_div by lia.
  change (2 ^ 32 * 2 ^ 8)%Z with (2 ^ 40)%Z.
  change (2 ^ 32 * 2 ^ 16)%Z with (2 ^ 48)%Z.
  change (2 ^ 32 * 2 ^ 24)%Z with (2 ^ 56)%Z.
  by rewrite !(byte_of_Z_at z 64) by lia.
Qed.

Lemma md5_pad_rfc msg : md5_pad msg = rfc_pad msg.
Proof.
  unfold md5_pad, rfc_pad. cbv zeta.
  by rewrite rfc_zeros_repeat, le_bytes_length_field.
Qed.

Lemma length_md5_pad msg : exists n, length (md5_pad msg) = 64 * n.
Proof.
  unfold md5_pad. cbv zeta.
  rewrite !length_app, repeat_length, length_le_bytes. cbn [length].
  pose proof (Nat.div_mod_eq (length msg) 64) as Hq.
  pose proof (Nat.mod_upper_bound (length msg) 64 ltac:(lia)) as Hr.
  revert Hq Hr. generalize (length msg / 64), (length msg mod 64).
  intros q r Hq Hr. rewrite Hq.
  destruct (Nat.le_gt_cases r 55) as [Hle|Hgt].
  - exists (S q). replace (55 + 64 - r) with ((55 - r) + 1 * 64) by lia.
    rewrite Nat.Div0.mod_add, Nat.mod_small by lia. lia.
  - exists (S (S q)). rewrite Nat.mod_small by lia. lia.
Qed.

Lemma md5_blocks_rfc : forall n data st fuel,
  length data = 64 * n -> n <= fuel ->
  md5_blocks n st data = fold_left rfc_transform (rfc_blocks fuel data) st.
Proof.
  induction n as [|n IH]; intros data st fuel Hlen Hfuel.
  - destruct data; [|simpl in Hlen; lia]. by destruct fuel.
  - destruct fuel as [|fuel]; [lia|].
    destruct data as [|b data]; [simpl in Hlen; lia|].
    cbn [md5_blocks rfc_blocks fold_left].
    rewrite md5_block_rfc. apply IH; [|lia].
    rewrite length_drop. lia.
Qed.

(** [crypto/md5] computes the digest of RFC 1321. *)
Lemma md5_Sum_rfc msg : md5_Sum msg = rfc1321_digest msg.
Proof.
  unfold md5_Sum, rfc1321_digest. cbv zeta.
  destruct (length_md5_pad msg) as [n Hn].
  rewrite <- md5_pad_rfc.
  rewrite <- (md5_blocks_rfc (length (md5_pad msg) / 64)).
  - destruct (md5_blocks _ _ _) as [[[a b] c] d].
    by rewrite !le_bytes_word.
  - rewrite Hn. rewrite (Nat.mul_comm 64 n), Nat.div_mul by lia. lia.
  - rewrite Hn. rewrite (Nat.mul_comm 64 n), Nat.div_mul by lia. lia.
Qed.

(** C10: a call of [md5File] that returns [nil] has left in
    [<file>.md5] the digest of the whole content of [file], computed as
    RFC 1321 words it, as 32 lowercase hex digits (read back in pairs
    they spell the 16 bytes of the digest) followed by one newline and
    nothing else, and has changed no other file.  A second successful
    call, in whatever environment, leaves the same bytes there.  Without
    faults and with [file] there, the call does return [nil].  On each
    message of the test suite of the RFC the sidecar holds the digest
    the RFC gives for it, which is also what the digest as worded here
    comes to. *)
Theorem md5File_sidecar (E E2 : env) (fs : gmap string inode) (file : string) :
  (forall fs', md5File E fs file = (Ok tt, fs') ->
     exists bin side hex,
       fs !! file = Some bin /\
       fs' !! (file +:+ ".md5") = Some side /\
       f_data side = hex ++ [x0a] /\
       length hex = 32 /\
       Forall (fun b => isLowerHex b = true) hex /\
       unhex hex = rfc1321_digest (f_data bin) /\
       hex = fmt_hex (rfc1321_digest (f_data bin)) /\
       (forall p, p <> file +:+ ".md5" -> fs' !! p = fs !! p) /\
       (forall fs'', md5File E2 fs' file = (Ok tt, fs'') ->
          exists side', fs'' !! (file +:+ ".md5") = Some side' /\
                        f_data side' = f_data side)) /\
  (no_faults E -> is_Some (fs !! file) ->
     exists fs', md5File E fs file = (Ok tt, fs')) /\
  Forall (fun t =>
            let bin : gmap string inode :=
              {[ "syncthing"%string := regular (B (fst t)) ]} in
            fst (md5File (quiet_env []) bin "syncthing") = Ok tt /\
            f_data <$> snd (md5File (quiet_env []) bin "syncthing")
                       !! "syncthing.md5"%string
            = Some (B (snd t) ++ [x0a]))
         rfc1321_suite /\
  Forall (fun t => fmt_hex (rfc1321_digest (B (fst t))) = B (snd t))
         rfc1321_suite.
Proof.
  split; [|split; [apply md5File_progress|split]].
  - intros fs' (bin & Hbin & (side & Hside & Hdata) & Hother)%md5File_Ok.
    rewrite md5_Sum_rfc in Hdata.
    exists bin, side, (fmt_hex (rfc1321_digest (f_data bin))).
    split; [done|]. split; [done|]. split; [done|].
    split; [by rewrite length_fmt_hex, <- md5_Sum_rfc, length_md5_Sum|].
    split; [apply fmt_hex_lower|]. split; [apply unhex_fmt_hex|].
    split; [done|]. split; [done|].
    intros fs'' (bin' & Hbin' & (side' & Hside' & Hdata') & _)%md5File_Ok.
    rewrite Hother in Hbin' by (apply string_app_ne; discriminate).
    rewrite Hbin in Hbin'. injection Hbin' as <-.
    exists side'. split; [done|]. rewrite Hdata', Hdata. by rewrite md5_Sum_rfc.
  - unfold rfc1321_suite.
    repeat (apply List.Forall_cons; [split; vm_compute; reflexivity|]).
    apply List.Forall_nil.
  - unfold rfc1321_suite.
    repeat (apply List.Forall_cons; [vm_compute; reflexivity|]).
    apply List.Forall_nil.
Qed.

(** ** Literal replacement *)

Lemma replace_loop_skip old new left l : forall s,
  replace_loop old new left (length l) (l ++ s) = replace_loop old new left 0 s.
Proof.
  induction l as [|c l IH]; intros s; simpl; [|apply IH].
  destruct s; reflexivity.
Qed.

(** Text in which the first byte of [old] does not occur is copied. *)
Lemma replace_loop_pass o old new a : forall s,
  Forall (fun b => b <> o) a ->
  replace_loop (o :: old) new None 0 (a ++ s)
  = a ++ replace_loop (o :: old) new None 0 s.
Proof.
  intros s. induction 1 as [|c a Hc _ IH]; [done|].
  cbn [app replace_loop has_prefix].
  destruct (Byte.eqb o c) eqn:Heq; [apply byte_dec_bl in Heq; congruence|].
  simpl. by rewrite IH.
Qed.

Lemma has_prefix_self old s : has_prefix old (old ++ s) = true.
Proof.
  induction old as [|a old IH]; simpl; [done|].
  by rewrite (byte_dec_lb (eq_refl a)), IH.
Qed.

(** An occurrence of [old] is replaced by [new]. *)
Lemma replace_loop_hit o old new s :
  replace_loop (o :: old) new None 0 ((o :: old) ++ s)
  = new ++ replace_loop (o :: old) new None 0 s.
Proof.
  cbn [app replace_loop].
  change (o :: old ++ s) with ((o :: old) ++ s). rewrite has_prefix_self.
  cbn [option_map length Nat.sub]. rewrite Nat.sub_0_r.
  by rewrite replace_loop_skip.
Qed.

Lemma strings_Replace_bytes s old new :
  B (strings_Replace s old new (-1))
  = bytes_Replace (B s) (B old) (B new) (-1).
Proof. unfold strings_Replace. apply list_byte_of_string_of_list_byte. Qed.

Lemma no_brace_debarch goarch : no_brace goarch -> no_brace (debarch goarch).
Proof.
  unfold debarch. destruct (String.eqb goarch "386"); [|done].
  intros _. unfold no_brace. repeat constructor; discriminate.
Qed.

Lemma control_rendered arch v :
  no_brace arch ->
  strings_Replace (strings_Replace control_template "{{arch}}" arch (-1))
                  "{{version}}" v (-1)
  = "Package: syncthing" +:+ nl +:+
    "Architecture: " +:+ arch +:+ nl +:+
    "Depends: libc6" +:+ nl +:+
    "Version: " +:+ v +:+ nl +:+
    "Maintainer: Syncthing Release Management <release@syncthing.net>" +:+ nl +:+
    "Description: Open Source Continuous File Synchronization" +:+ nl +:+
    tab +:+ "Syncthing does bidirectional synchronization of files between two or" +:+ nl +:+
    tab +:+ "more computers." +:+ nl.
Proof.
  intros Harch.
  set (c1 := B ("Package: syncthing" +:+ nl +:+ "Architecture: ")).
  set (c2 := B (nl +:+ "Depends: libc6" +:+ nl +:+ "Version: ")).
  set (c3 := B (nl +:+
    "Maintainer: Syncthing Release Management <release@syncthing.net>" +:+ nl +:+
    "Description: Open Source Continuous File Synchronization" +:+ nl +:+
    tab +:+ "Syncthing does bidirectional synchronization of files between two or" +:+ nl +:+
    tab +:+ "more computers." +:+ nl)).
  assert (B control_template
          = c1 ++ B "{{arch}}" ++ c2 ++ B "{{version}}" ++ c3) as Htpl
    by (vm_compute; reflexivity).
  rewrite <- (string_of_list_byte_of_string (_ +:+ _)).
  unfold strings_Replace at 1. f_equal.
  rewrite strings_Replace_bytes, Htpl.
  unfold bytes_Replace.
  change (B "{{arch}}") with ("{"%byte :: B "{arch}}").
  change (B "{{version}}") with ("{"%byte :: B "{version}}").
  cbn [Z.ltb Z.compare].
  (* first pass: {{arch}} *)
  assert (forall old new rest,
            replace_loop ("{"%byte :: old) new None 0 (c1 ++ rest)
            = c1 ++ replace_loop ("{"%byte :: old) new None 0 rest) as P1
    by (intros; reflexivity).
  assert (forall old new rest,
            replace_loop ("{"%byte :: old) new None 0 (c2 ++ rest)
            = c2 ++ replace_loop ("{"%byte :: old) new None 0 rest) as P2
    by (intros; reflexivity).
  assert (forall old new,
            replace_loop ("{"%byte :: old) new None 0 c3 = c3) as P3
    by (intros; reflexivity).
  assert (forall new rest,
            replace_loop ("{"%byte :: B "{arch}}") new None 0
              (("{"%byte :: B "{version}}") ++ rest)
            = ("{"%byte :: B "{version}}")
              ++ replace_loop ("{"%byte :: B "{arch}}") new None 0 rest) as M1
    by (intros; reflexivity).
  rewrite P1, replace_loop_hit, P2, M1, P3.
  (* second pass: {{version}} *)
  rewrite P1, (replace_loop_pass _ _ _ (B arch)) by exact Harch.
  rewrite P2, replace_loop_hit, P3.
  subst c1 c2 c3. rewrite !list_byte_of_string_app. rewrite <- !app_assoc.
  reflexivity.
Qed.

Lemma changelog_rendered arch v date :
  no_brace v ->
  strings_Replace
    (strings_Replace (strings_Replace changelog_template "{{arch}}" arch (-1))
                     "{{version}}" v (-1))
    "{{date}}" date (-1)
  = "syncthing (" +:+ v +:+ "); urgency=medium" +:+ nl +:+
    nl +:+
    "  * Packaging of " +:+ v +:+ "." +:+ nl +:+
    nl +:+
    " -- Jakob Borg <jakob@nym.se>  " +:+ date +:+ nl.
Proof.
  intros Hv.
  set (g1 := B "syncthing (").
  set (g2 := B ("); urgency=medium" +:+ nl +:+ nl +:+ "  * Packaging of ")).
  set (g3 := B ("." +:+ nl +:+ nl +:+ " -- Jakob Borg <jakob@nym.se>  ")).
  set (g4 := B nl).
  assert (B changelog_template
          = g1 ++ B "{{version}}" ++ g2 ++ B "{{version}}" ++ g3
               ++ B "{{date}}" ++ g4) as Htpl
    by (vm_compute; reflexivity).
  rewrite <- (string_of_list_byte_of_string (_ +:+ _)).
  unfold strings_Replace at 1. f_equal.
  rewrite !strings_Replace_bytes, Htpl.
  unfold bytes_Replace.
  change (B "{{arch}}") with ("{"%byte :: B "{arch}}").
  change (B "{{version}}") with ("{"%byte :: B "{version}}").
  change (B "{{date}}") with ("{"%byte :: B "{date}}").
  cbn [Z.ltb Z.compare].
  assert (forall old new rest,
            replace_loop ("{"%byte :: old) new None 0 (g1 ++ rest)
            = g1 ++ replace_loop ("{"%byte :: old) new None 0 rest) as P1
    by (intros; reflexivity).
  assert (forall old new rest,
            replace_loop ("{"%byte :: old) new None 0 (g2 ++ rest)
            = g2 ++ replace_loop ("{"%byte :: old) new None 0 rest) as P2
    by (intros; reflexivity).
  assert (forall old new rest,
            replace_loop ("{"%byte :: old) new None 0 (g3 ++ rest)
            = g3 ++ replace_loop ("{"%byte :: old) new None 0 rest) as P3
    by (intros; reflexivity).
  assert (forall old new,
            replace_loop ("{"%byte :: old) new None 0 g4 = g4) as P4
    by (intros; reflexivity).
  assert (forall new rest,
            replace_loop ("{"%byte :: B "{arch}}") new None 0
              (("{"%byte :: B "{version}}") ++ rest)
            = ("{"%byte :: B "{version}}")
              ++ replace_loop ("{"%byte :: B "{arch}}") new None 0 rest) as M1
    by (intros; reflexivity).
  assert (forall new rest,
            replace_loop ("{"%byte :: B "{arch}}") new None 0
              (("{"%byte :: B "{date}}") ++ rest)
            = ("{"%byte :: B "{date}}")
              ++ replace_loop ("{"%byte :: B "{arch}}") new None 0 rest) as M2
    by (intros; reflexivity).
  assert (forall new rest,
            replace_loop ("{"%byte :: B "{version}}") new None 0
              (("{"%byte :: B "{date}}") ++ rest)
            = ("{"%byte :: B "{date}}")
              ++ replace_loop ("{"%byte :: B "{version}}") new None 0 rest) as M3
    by (intros; reflexivity).
  (* first pass: {{arch}}, which the changelog does not hold *)
  rewrite P1, M1, P2, M1, P3, M2, P4.
  (* second pass: {{version}} *)
  rewrite P1, replace_loop_hit, P2, replace_loop_hit, P3, M3, P4.
  (* third pass: {{date}} *)
  rewrite P1, (replace_loop_pass _ _ _ (B v)) by exact Hv.
  rewrite P2, (replace_loop_pass _ _ _ (B v)) by exact Hv.
  rewrite P3, replace_loop_hit, P4.
  subst g1 g2 g3 g4. rewrite !list_byte_of_string_app. rewrite <- !app_assoc.
  reflexivity.
Qed.

(** C6: in the control files of the deb tree the architecture is
    [goarch], with [386] written [i386] and every other value as it is;
    the version is [version] without its first byte; and both are put in
    place of the placeholders of the two fixed texts, as is the date, the
    rest of the texts staying as they are.  (The values hold no opening
    brace, so that no placeholder arises from them.) *)
Theorem deb_templates_rendered (goarch version date : string)
    (c : ascii) (v : string) :
  version = String c v -> no_brace goarch -> no_brace v ->
  debarch "386" = "i386"%string /\
  (goarch <> "386"%string -> debarch goarch = goarch) /\
  deb_templates goarch version date
  = Some ("Package: syncthing" +:+ nl +:+
          "Architecture: " +:+ debarch goarch +:+ nl +:+
          "Depends: libc6" +:+ nl +:+
          "Version: " +:+ v +:+ nl +:+
          "Maintainer: Syncthing Release Management <release@syncthing.net>" +:+ nl +:+
          "Description: Open Source Continuous File Synchronization" +:+ nl +:+
          tab +:+ "Syncthing does bidirectional synchronization of files between two or" +:+ nl +:+
          tab +:+ "more computers." +:+ nl,
          "syncthing (" +:+ v +:+ "); urgency=medium" +:+ nl +:+
          nl +:+
          "  * Packaging of " +:+ v +:+ "." +:+ nl +:+
          nl +:+
          " -- Jakob Borg <jakob@nym.se>  " +:+ date +:+ nl).
Proof.
  intros -> Harch Hv. split; [reflexivity|]. split.
  - intros Hne. unfold debarch. destruct (String.eqb_spec goarch "386"); done.
  - unfold deb_templates. cbn [from1].
    rewrite (control_rendered _ _ (no_brace_debarch _ Harch)).
    by rewrite (changelog_rendered _ _ _ Hv).
Qed.

Lemma deb_templates_rendered_witness :
  "v0.10.5"%string = String "v" "0.10.5" /\
  no_brace "386" /\ no_brace "0.10.5" /\
  deb_templates "386" "v0.10.5" "Mon, 02 Feb 2015 10:00:00 UTC"
  = Some ("Package: syncthing" +:+ nl +:+
          "Architecture: i386" +:+ nl +:+
          "Depends: libc6" +:+ nl +:+
          "Version: 0.10.5" +:+ nl +:+
          "Maintainer: Syncthing Release Management <release@syncthing.net>" +:+ nl +:+
          "Description: Open Source Continuous File Synchronization" +:+ nl +:+
          tab +:+ "Syncthing does bidirectional synchronization of files between two or" +:+ nl +:+
          tab +:+ "more computers." +:+ nl,
          "syncthing (0.10.5); urgency=medium" +:+ nl +:+
          nl +:+
          "  * Packaging of 0.10.5." +:+ nl +:+
          nl +:+
          " -- Jakob Borg <jakob@nym.se>  Mon, 02 Feb 2015 10:00:00 UTC" +:+ nl).
Proof.
  assert (no_brace "386") as H1 by (repeat constructor; discriminate).
  assert (no_brace "0.10.5") as H2 by (repeat constructor; discriminate).
  split; [reflexivity|]. split; [exact H1|]. split; [exact H2|].
  exact (proj2 (proj2 (deb_templates_rendered "386" "v0.10.5"
                         "Mon, 02 Feb 2015 10:00:00 UTC" "v" "0.10.5"
                         eq_refl H1 H2))).
Defined.

(** On a binary holding [abc], [md5File] writes the reference digest of
    RFC 1321 for that message, and a newline. *)
Theorem md5File_reference_digest :
  let fs : gmap string inode := {[ "syncthing"%string := regular (B "abc") ]} in
  fst (md5File (quiet_env []) fs "syncthing") = Ok tt /\
  f_data <$> snd (md5File (quiet_env []) fs "syncthing") !! "syncthing.md5"%string
  = Some (B "900150983cd24fb0d6963f7d28e17f72" ++ [x0a]).
Proof. split; vm_compute; reflexivity. Qed.

(** * Further properties of the script *)

(** ** The command loop of [main] *)

Lemma dispatch_unknown noupgrade cmd rest :
  known_command cmd = false ->
  dispatch noupgrade (cmd :: rest) = ([], Some (FatalUnknownCommand cmd)).
Proof.
  unfold known_command, known_commands. cbn [existsb dispatch].
  intros H.
  repeat match goal with
         | |- context [String.eqb cmd ?c] =>
             destruct (String.eqb cmd c); [discriminate H|]
         end.
  reflexivity.
Qed.

Lemma dispatch_known noupgrade cmd rest :
  known_command cmd = true ->
  dispatch noupgrade (cmd :: rest)
  = (fst (dispatch noupgrade [cmd]) ++ fst (dispatch noupgrade rest),
     snd (dispatch noupgrade rest)) /\
  fst (dispatch noupgrade [cmd]) <> [] /\
  snd (dispatch noupgrade [cmd]) = None.
Proof.
  unfold known_command, known_commands. cbn [existsb dispatch].
  intros H.
  repeat match goal with
         | |- context [String.eqb cmd ?c] =>
             destruct (String.eqb cmd c);
             [destruct (dispatch noupgrade rest); done|]
         end.
  discriminate H.
Qed.

(** The commands are run in the order given; the first one that [main]
    does not know ends the process, after the steps of the commands
    before it and before any step of those after it.  Known commands alone
    never end it this way. *)
Theorem dispatch_stops_at_unknown (noupgrade : bool)
    (before : list string) (bad : string) (after : list string) :
  Forall (fun c => known_command c = true) before ->
  known_command bad = false ->
  snd (dispatch noupgrade before) = None /\
  dispatch noupgrade (before ++ bad :: after)
  = (fst (dispatch noupgrade before), Some (FatalUnknownCommand bad)).
Proof.
  intros Hknown Hbad. induction Hknown as [|c before Hc _ [IH1 IH2]].
  - split; [done|]. by apply dispatch_unknown.
  - destruct (dispatch_known noupgrade c before Hc) as (-> & _ & _).
    destruct (dispatch_known noupgrade c (before ++ bad :: after) Hc) as (Hd & _ & _).
    cbn [app fst snd]. split; [done|]. rewrite Hd, IH2. reflexivity.
Qed.

Lemma dispatch_stops_at_unknown_witness :
  Forall (fun c => known_command c = true) ["build"%string; "vet"%string] /\
  known_command "publish" = false /\
  dispatch false ["build"; "vet"; "publish"; "tar"]%string
  = ([ StepBuild "./cmd/syncthing" [];
       StepVet "./cmd/syncthing"; StepVet "./internal/..." ],
     Some (FatalUnknownCommand "publish")).
Proof.
  assert (Forall (fun c => known_command c = true) ["build"%string; "vet"%string])
    as Hk by (repeat constructor).
  split; [exact Hk|]. split; [reflexivity|].
  exact (proj2 (dispatch_stops_at_unknown false ["build"%string; "vet"%string]
                  "publish" ["tar"%string] Hk eq_refl)).
Defined.

(** ** Manifests *)

Lemma bytes_HasSuffix_app a t s :
  length s <= length t -> bytes_HasSuffix (a ++ t) s = bytes_HasSuffix t s.
Proof.
  intros Hlen. unfold bytes_HasSuffix. rewrite length_app.
  rewrite drop_app_ge by lia.
  replace (length a + length t - length s - length a)
    with (length t - length s) by lia.
  destruct (Nat.leb_spec (length s) (length a + length t)); [|lia].
  destruct (Nat.leb_spec (length s) (length t)); [done|lia].
Qed.

Lemma length_list_byte_of_string (s : string) : length (B s) = String.length s.
Proof.
  unfold list_byte_of_string. rewrite length_map.
  induction s as [|c s IH]; simpl; [done|]. by rewrite IH.
Qed.

Lemma strings_HasSuffix_app (a t s : string) :
  String.length s <= String.length t ->
  strings_HasSuffix (a +:+ t) s = strings_HasSuffix t s.
Proof.
  intros Hlen. unfold strings_HasSuffix. rewrite list_byte_of_string_app.
  apply bytes_HasSuffix_app. by rewrite !length_list_byte_of_string.
Qed.

Lemma buildZip_text_entries (name : string) (extra : list string) :
  map (fun f => (src f, strings_HasSuffix (dst f) ".txt"))
      (take 5 (buildZip_files name extra))
  = [ ("README.md", true); ("LICENSE", true); ("AUTHORS", true);
      ("syncthing.exe", false); ("syncthing.exe.md5", false) ]%string.
Proof.
  cbn [buildZip_files app take map entry src dst].
  rewrite !strings_HasSuffix_app by (simpl; lia).
  reflexivity.
Qed.

Lemma archive_base_out goos goarch version noupgrade ext :
  exists rest,
    archive_base goos goarch version noupgrade +:+ ext
    = ("syncthing-" +:+ rest)%string.
Proof.
  unfold archive_base, archiveName. destruct noupgrade; simpl; eauto.
Qed.

(** When [buildZip] returns, the fourth and fifth entries of the archive
    are the binary and its checksum under the archive's directory, byte
    for byte as they are in the tree: the conversion of line endings,
    which the three documents before them undergo, never touches them,
    whatever the archive's name. *)
Theorem buildZip_binary_verbatim (E : env) (fs : gmap string inode)
    (goos goarch version : string) (noupgrade : bool) (extra : list string)
    (archive : list (zip_FileHeader * bytes)) :
  buildZip E fs goos goarch version noupgrade extra = Done archive ->
  exists bin sum e1 e2 e3 e4 e5 rest,
    archive = e1 :: e2 :: e3 :: e4 :: e5 :: rest /\
    fs !! "syncthing.exe"%string = Some bin /\
    fs !! "syncthing.exe.md5"%string = Some sum /\
    zName (fst e4)
    = archive_base goos goarch version noupgrade +:+ "/syncthing.exe" /\
    snd e4 = f_data bin /\
    UncompressedSize64 (fst e4) = uint64 (Z.of_nat (length (f_data bin))) /\
    zName (fst e5)
    = archive_base goos goarch version noupgrade +:+ "/syncthing.exe.md5" /\
    snd e5 = f_data sum /\
    length rest = length extra.
Proof.
  unfold buildZip.
  intros (fs' & Hc & Hl & _)%zipFile_Done.
  apply os_Create_Ok in Hc as [_ Hfs].
  destruct (archive_base_out goos goarch version noupgrade ".zip") as [out Hout].
  set (name := archive_base goos goarch version noupgrade) in *.
  pose proof (buildZip_text_entries name extra) as Htext.
  cbn [buildZip_files app take map entry src dst] in Htext.
  injection Htext as _ _ _ H4 H5.
  cbn [buildZip_files app] in Hl.
  apply zipFile_loop_cons in Hl as (f1 & r1 & _ & _ & _ & _ & _ & _ & _ & Hl & ->).
  apply zipFile_loop_cons in Hl as (f2 & r2 & _ & _ & _ & _ & _ & _ & _ & Hl & ->).
  apply zipFile_loop_cons in Hl as (f3 & r3 & _ & _ & _ & _ & _ & _ & _ & Hl & ->).
  apply zipFile_loop_cons in Hl as (bin & r4 & Hbin & _ & _ & _ & _ & _ & _ & Hl & ->).
  apply zipFile_loop_cons in Hl as (sum & r5 & Hsum & _ & _ & _ & _ & _ & _ & Hl & ->).
  cbn [entry src dst] in *.
  rewrite Hfs in Hbin by (rewrite Hout; discriminate).
  rewrite Hfs in Hsum by (rewrite Hout; discriminate).
  apply zipFile_loop_Done, Forall2_length in Hl. rewrite length_map in Hl.
  eexists bin, sum, _, _, _, _, _, r5.
  split; [reflexivity|]. unfold zip_entry, entry. cbn [dst fst snd].
  rewrite H4, H5. cbn [fst snd zName UncompressedSize64]. by repeat split.
Qed.

Lemma buildZip_binary_verbatim_witness :
  let archive :=
    match buildZip (quiet_env []) windows_fs "windows" "386" "v0.10.5" false [] with
    | Done a => a
    | Exit _ _ => []
    end in
  buildZip (quiet_env []) windows_fs "windows" "386" "v0.10.5" false []
  = Done archive /\
  map snd archive
  = [ B "readme" ++ [x0a; x0d]; B "license" ++ [x0a; x0d];
      B "authors" ++ [x0a; x0d]; [x4d; x5a; x0a; x00];
      B "checksum" ++ [x0a] ] /\
  exists bin sum e1 e2 e3 e4 e5 rest,
    archive = e1 :: e2 :: e3 :: e4 :: e5 :: rest /\
    windows_fs !! "syncthing.exe"%string = Some bin /\
    windows_fs !! "syncthing.exe.md5"%string = Some sum /\
    zName (fst e4)
    = archive_base "windows" "386" "v0.10.5" false +:+ "/syncthing.exe" /\
    snd e4 = f_data bin /\
    UncompressedSize64 (fst e4) = uint64 (Z.of_nat (length (f_data bin))) /\
    zName (fst e5)
    = archive_base "windows" "386" "v0.10.5" false +:+ "/syncthing.exe.md5" /\
    snd e5 = f_data sum /\
    length rest = length (@nil string).
Proof.
  intros archive.
  assert (buildZip (quiet_env []) windows_fs "windows" "386" "v0.10.5" false []
          = Done archive) as Hz by (vm_compute; reflexivity).
  split; [exact Hz|]. split; [vm_compute; reflexivity|].
  exact (buildZip_binary_verbatim (quiet_env []) windows_fs "windows" "386"
           "v0.10.5" false [] archive Hz).
Defined.

Lemma take_drop_while p s : s = take_while p s ++ drop_while p s.
Proof.
  induction s as [|c s IH]; simpl; [done|].
  destruct (p c); simpl; [by rewrite <- IH|done].
Qed.

Lemma take_while_Forall p s : Forall (fun b => p b = true) (take_while p s).
Proof.
  induction s as [|c s IH]; simpl; [constructor|].
  destruct (p c) eqn:Hc; by constructor.
Qed.

Lemma drop_while_head p s :
  match drop_while p s with [] => True | c :: _ => p c = false end.
Proof.
  induction s as [|c s IH]; simpl; [done|].
  by destruct (p c) eqn:Hc.
Qed.

Lemma drop_while_nil p s :
  drop_while p s = [] -> Forall (fun b => p b = true) s.
Proof.
  induction s as [|c s IH]; simpl; [constructor|].
  destruct (p c) eqn:Hc; [|done]. intros H. constructor; auto.
Qed.

(** [filepath.Base] of a path that is not made of separators only: the
    last element of the path, which is not empty and holds no separator;
    after it come separators only, and before it nothing or a
    separator. *)
Lemma filepath_Base_last path :
  (exists b, In b (B path) /\ is_sep b = false) ->
  exists pre post,
    B path = pre ++ B (filepath_Base path) ++ post /\
    filepath_Base path <> ""%string /\
    no_sep (filepath_Base path) /\
    Forall (fun b => is_sep b = true) post /\
    (pre = [] \/ exists pre', pre = pre' ++ ["/"%byte]).
Proof.
  intros (b & Hb & Hsep). unfold filepath_Base, no_sep.
  destruct (B path) as [|c0 p0] eqn:Hp; [done|]. rewrite <- Hp in *. clear c0 p0 Hp.
  set (p := B path) in *.
  pose proof (take_drop_while is_sep (rev p)) as H1.
  set (stripped := drop_while is_sep (rev p)) in *.
  pose proof (take_drop_while (fun b => negb (is_sep b)) stripped) as H2.
  set (lastr := take_while (fun b => negb (is_sep b)) stripped) in *.
  assert (lastr <> []) as Hne.
  { subst lastr. pose proof (drop_while_head is_sep (rev p)) as Hh.
    fold stripped in Hh. destruct stripped as [|c t] eqn:Hs.
    - apply drop_while_nil in Hs. rewrite Forall_forall in Hs.
      assert (is_sep b = true); [|congruence].
      apply Hs. apply list_elem_of_In. by apply -> in_rev.
    - simpl. by rewrite Hh. }
  assert (Forall (fun b => is_sep b = false) (rev lastr)) as Hall.
  { apply Forall_rev. eapply Forall_impl; [apply take_while_Forall|].
    intros c Hc. simpl in Hc. by destruct (is_sep c). }
  destruct (rev lastr) as [|c l] eqn:Hrev.
  { apply (f_equal (@rev byte)) in Hrev. rewrite rev_involutive in Hrev. done. }
  rewrite <- Hrev in *.
  exists (rev (drop_while (fun b => negb (is_sep b)) stripped)),
         (rev (take_while is_sep (rev p))).
  rewrite list_byte_of_string_of_list_byte.
  split; [|split; [|split; [|split]]].
  - rewrite <- (rev_involutive p), H1, H2 at 1. by rewrite !rev_app_distr, app_assoc.
  - rewrite Hrev. discriminate.
  - exact Hall.
  - apply Forall_rev, take_while_Forall.
  - pose proof (drop_while_head (fun b => negb (is_sep b)) stripped) as Hh.
    destruct (drop_while _ stripped) as [|c' t']; [by left|].
    right. exists (rev t'). simpl.
    assert (c' = "/"%byte) as ->; [|done].
    apply byte_dec_bl. unfold is_sep in Hh. by destruct (Byte.eqb c' "/").
Qed.

(** The scanned files in the manifests: a file of [etc] keeps its path
    under the archive's directory; a file of [extra] is put directly into
    that directory under the last element of its path, whatever
    directories it lay in. *)
Theorem scanned_files_destinations (name : string) (etc extra : list string) :
  Forall2 (fun file f => src f = file /\ dst f = name +:+ "/" +:+ file)
          etc (take (length etc) (drop 5 (buildTar_files name etc extra))) /\
  drop (5 + length etc) (buildTar_files name etc extra)
  = drop 5 (buildZip_files name extra) /\
  Forall2 (fun file f =>
             src f = file /\
             dst f = name +:+ "/" +:+ filepath_Base file /\
             ((exists b, In b (B file) /\ is_sep b = false) ->
              no_sep (filepath_Base file) /\
              exists pre post,
                B file = pre ++ B (filepath_Base file) ++ post /\
                Forall (fun b => is_sep b = true) post /\
                (pre = [] \/ exists pre', pre = pre' ++ ["/"%byte])))
          extra (drop 5 (buildZip_files name extra)).
Proof.
  unfold buildTar_files, buildZip_files.
  set (fixed5 := [_; _; _; _; _]).
  set (fixed5' := [_; _; _; _; _]).
  change 5 with (length fixed5) at 1 2.
  change 5 with (length fixed5') at 1 2.
  rewrite !drop_app_length.
  split; [|split].
  - rewrite <- (length_map (fun file => entry file (name +:+ "/" +:+ file)) etc).
    rewrite take_app_length.
    induction etc as [|file etc IH]; simpl; by constructor.
  - rewrite (app_assoc fixed5).
    replace (length fixed5 + length etc)
      with (length (fixed5 ++ map (fun file => entry file (name +:+ "/" +:+ file)) etc))
      by (by rewrite length_app, length_map).
    by rewrite drop_app_length.
  - induction extra as [|file extra IH]; simpl; constructor; [|done].
    split; [done|]. split; [done|].
    intros Hfile.
    destruct (filepath_Base_last file Hfile) as (pre & post & H1 & _ & H3 & H4 & H5).
    split; [done|]. by exists pre, post.
Qed.

(** ** What [md5File] leaves alone *)

(** Whether [md5File] returns an error or not, the only file it can have
    changed is [<file>.md5]; the binary in particular is as it was.  When
    the binary is missing it returns the error of opening it and has
    changed nothing; when the binary is there and the write to the
    sidecar fails, what the sidecar held before is gone all the same (it
    was truncated when it was opened): what is left is at most a beginning
    of the new line. *)
Theorem md5File_frame (E : env) (fs : gmap string inode) (file : string) :
  (forall p, p <> file +:+ ".md5" -> snd (md5File E fs file) !! p = fs !! p) /\
  snd (md5File E fs file) !! file = fs !! file /\
  (fs !! file = None -> md5File E fs file = (Err (ENOENT file), fs)) /\
  (is_Some (fs !! file) ->
   fault E (OpOpen file) = false -> fault E (OpCopy file) = false ->
   fault E (OpCreate (file +:+ ".md5")) = false ->
   fault E (OpFprintf (file +:+ ".md5")) = true ->
   exists bin left,
     fs !! file = Some bin /\
     fst (md5File E fs file) = Err (EIO (OpFprintf (file +:+ ".md5"))) /\
     f_data <$> snd (md5File E fs file) !! (file +:+ ".md5") = Some left /\
     left `prefix_of` fmt_hex (md5_Sum (f_data bin)) ++ [x0a]).
Proof.
  assert (forall p, p <> file +:+ ".md5" ->
                    snd (md5File E fs file) !! p = fs !! p) as Hframe.
  { intros p Hp. unfold md5File, os_Open, io_Copy, os_Create, attempt.
    destruct (fs !! file) as [bin|]; simpl; [|done].
    destruct (fault E (OpOpen file)); simpl; [done|].
    destruct (fault E (OpCopy file)); simpl; [done|].
    destruct (fault E (OpCreate (file +:+ ".md5"))); simpl; [done|].
    destruct (fault E (OpFprintf (file +:+ ".md5"))); simpl.
    - by rewrite lookup_insert_ne.
    - by rewrite lookup_alter_ne, lookup_insert_ne. }
  split; [exact Hframe|]. split; [|split].
  - apply Hframe. apply string_app_ne. discriminate.
  - intros Hnone. unfold md5File, os_Open. by rewrite Hnone.
  - intros [bin Hbin] Ho Hc Hcr Hw.
    unfold md5File, os_Open, io_Copy, os_Create, attempt.
    rewrite Hbin. simpl. rewrite Ho. simpl. rewrite Hc. simpl.
    rewrite Hcr. simpl. rewrite Hw. simpl.
    exists bin, []. split; [done|]. split; [done|].
    split; [by rewrite lookup_insert_eq|]. apply prefix_nil.
Qed.

(** ** The build stamp *)

Lemma isDigit_value d :
  isDigit d = true -> (0 <= Z.of_N (Byte.to_N d) - 48 <= 9)%Z.
Proof.
  unfold isDigit, byte_in. intros [H1 H2]%andb_prop.
  apply N.leb_le in H1, H2. lia.
Qed.

Lemma isDigit_nonspace d : isDigit d = true -> ascii_nonspace d = true.
Proof. destruct d; try discriminate; reflexivity. Qed.

Lemma digits_value_ge ds : forall a,
  (0 <= a)%Z -> Forall (fun b => isDigit b = true) ds ->
  (a <= digits_value a ds)%Z.
Proof.
  induction ds as [|d ds IH]; intros a Ha Hds; simpl; [lia|].
  apply Forall_cons in Hds as [Hd%isDigit_value Hds].
  etransitivity; [|apply IH; [lia|done]]. lia.
Qed.

Lemma digits_value_lt ds : forall a,
  (0 <= a)%Z -> Forall (fun b => isDigit b = true) ds ->
  (digits_value a ds < (a + 1) * 10 ^ Z.of_nat (length ds))%Z.
Proof.
  induction ds as [|d ds IH]; intros a Ha Hds.
  - simpl. lia.
  - apply Forall_cons in Hds as [Hd%isDigit_value Hds].
    cbn [digits_value length]. rewrite Nat2Z.inj_succ, Z.pow_succ_r by lia.
    eapply Z.lt_le_trans; [apply IH; [lia|done]|].
    assert (0 < 10 ^ Z.of_nat (length ds))%Z by (apply Z.pow_pos_nonneg; lia).
    nia.
Qed.

Lemma uint64_small z : (0 <= z <= maxUint64)%Z -> uint64 z = z.
Proof. unfold uint64, maxUint64. intros Hz. apply Z.mod_small. lia. Qed.

(** The loop of [ParseUint] on decimal digits: their value, or the
    largest value with a range error when it does not fit 64 bits. *)
Lemma ParseUint_loop_digits ds : forall a,
  Forall (fun b => isDigit b = true) ds -> (0 <= a <= maxUint64)%Z ->
  ParseUint_loop ds a
  = if (digits_value a ds <=? maxUint64)%Z then (digits_value a ds, None)
    else (maxUint64, Some ErrRange).
Proof.
  induction ds as [|d ds IH]; intros a Hds Ha.
  - simpl. destruct (Z.leb_spec a maxUint64); [done|lia].
  - apply Forall_cons in Hds as [Hd Hds].
    pose proof (isDigit_value d Hd) as Hv.
    cbn [ParseUint_loop digits_value]. rewrite Hd.
    set (v := (Z.of_N (Byte.to_N d) - 48)%Z) in *.
    pose proof (digits_value_ge ds (10 * a + v)%Z ltac:(lia) Hds) as Hge.
    assert (maxUint64 / 10 + 1 = 1844674407370955162)%Z as -> by reflexivity.
    assert (maxUint64 = 18446744073709551615)%Z as Hmax by reflexivity.
    destruct (Z.leb_spec 1844674407370955162 a) as [Hcut|Hcut].
    { destruct (Z.leb_spec (digits_value (10 * a + v) ds) maxUint64); [lia|done]. }
    rewrite (uint64_small (a * 10)) by lia.
    destruct (Z.leb_spec (a * 10 + v) maxUint64) as [Hfit|Hover].
    + rewrite (uint64_small (a * 10 + v)) by lia.
      destruct (Z.ltb_spec (a * 10 + v) (a * 10)); [lia|].
      destruct (Z.ltb_spec maxUint64 (a * 10 + v)); [lia|]. simpl.
      rewrite IH by (done || lia). by rewrite (Z.mul_comm a 10).
    + assert (uint64 (a * 10 + v) = a * 10 + v - 2 ^ 64)%Z as ->.
      { unfold uint64. symmetry. apply (Z.mod_unique _ _ 1); lia. }
      destruct (Z.ltb_spec (a * 10 + v - 2 ^ 64) (a * 10)); [|lia]. simpl.
      destruct (Z.leb_spec (digits_value (10 * a + v) ds) maxUint64); [lia|done].
Qed.

(** Digits that fit are read one after the other. *)
Lemma ParseUint_loop_app ds s : forall a,
  Forall (fun b => isDigit b = true) ds -> (0 <= a)%Z ->
  (digits_value a ds <= maxUint64)%Z ->
  ParseUint_loop (ds ++ s) a = ParseUint_loop s (digits_value a ds).
Proof.
  induction ds as [|d ds IH]; intros a Hds Ha Hfit; [done|].
  apply Forall_cons in Hds as [Hd Hds].
  pose proof (isDigit_value d Hd) as Hv.
  cbn [app ParseUint_loop digits_value] in *. rewrite Hd.
  set (v := (Z.of_N (Byte.to_N d) - 48)%Z) in *.
  pose proof (digits_value_ge ds (10 * a + v)%Z ltac:(lia) Hds) as Hge.
  assert (maxUint64 / 10 + 1 = 1844674407370955162)%Z as -> by reflexivity.
  assert (maxUint64 = 18446744073709551615)%Z as Hmax by reflexivity.
  destruct (Z.leb_spec 1844674407370955162 a); [lia|].
  rewrite (uint64_small (a * 10)), (uint64_small (a * 10 + v)) by lia.
  destruct (Z.ltb_spec (a * 10 + v) (a * 10)); [lia|].
  destruct (Z.ltb_spec maxUint64 (a * 10 + v)); [lia|]. simpl.
  rewrite (Z.mul_comm a 10). apply IH; [done|lia|done].
Qed.

Lemma int64_small z : (- 2 ^ 63 <= z < 2 ^ 63)%Z -> int64 z = z.
Proof. unfold int64. intros Hz. rewrite Z.mod_small; lia. Qed.

(** [ParseInt] on a run of decimal digits: their value, held at the
    largest [int64]. *)
Lemma strconv_ParseInt_digits ds :
  ds <> [] -> Forall (fun b => isDigit b = true) ds ->
  fst (strconv_ParseInt (string_of_list_byte ds))
  = Z.min (digits_value 0 ds) (2 ^ 63 - 1).
Proof.
  intros Hne Hds. unfold strconv_ParseInt.
  rewrite list_byte_of_string_of_list_byte.
  destruct ds as [|c rest]; [done|].
  assert (Byte.eqb c "+" = false /\ Byte.eqb c "-" = false) as [-> ->].
  { apply Forall_cons in Hds as [Hc _]. by destruct c. }
  unfold strconv_ParseUint.
  rewrite ParseUint_loop_digits by (done || (unfold maxUint64; lia)).
  pose proof (digits_value_ge (c :: rest) 0%Z ltac:(lia) Hds) as Hge.
  assert (maxUint64 = 18446744073709551615)%Z as Hmax by reflexivity.
  set (n := digits_value 0 (c :: rest)) in *.
  destruct (Z.leb_spec n maxUint64) as [Hfit|Hover]; cbn [negb andb].
  - destruct (Z.leb_spec (2 ^ 63) n); simpl; [lia|].
    rewrite int64_small by lia. lia.
  - destruct (Z.leb_spec (2 ^ 63) maxUint64); simpl; lia.
Qed.

(** A byte that is not a digit makes [ParseInt] return 0, when it comes
    before the digits read so far have left 64 bits. *)
Lemma strconv_ParseInt_syntax ds c rest :
  Forall (fun b => isDigit b = true) ds -> length ds <= 19 ->
  isDigit c = false ->
  ds <> [] \/ (c <> "+"%byte /\ c <> "-"%byte) ->
  fst (strconv_ParseInt (string_of_list_byte (ds ++ c :: rest))) = 0%Z.
Proof.
  intros Hds Hlen Hc Hsign. unfold strconv_ParseInt.
  rewrite list_byte_of_string_of_list_byte.
  assert (digits_value 0 ds <= maxUint64)%Z as Hfit.
  { pose proof (digits_value_lt ds 0%Z ltac:(lia) Hds) as Hlt.
    assert (10 ^ Z.of_nat (length ds) <= 10 ^ 19)%Z
      by (apply Z.pow_le_mono_r; lia).
    assert (maxUint64 = 18446744073709551615)%Z as -> by reflexivity. lia. }
  assert (ParseUint_loop (ds ++ c :: rest) 0 = (0%Z, Some ErrSyntax)) as Hloop.
  { rewrite ParseUint_loop_app by (done || lia). simpl. by rewrite Hc. }
  destruct ds as [|d ds'].
  - destruct Hsign as [|[Hp Hm]]; [done|]. cbn [app].
    assert (Byte.eqb c "+" = false) as ->.
    { destruct (Byte.eqb c "+") eqn:Heq; [|done]. by apply byte_dec_bl in Heq. }
    assert (Byte.eqb c "-" = false) as ->.
    { destruct (Byte.eqb c "-") eqn:Heq; [|done]. by apply byte_dec_bl in Heq. }
    unfold strconv_ParseUint. cbn [app] in Hloop. by rewrite Hloop.
  - cbn [app].
    assert (Byte.eqb d "+" = false /\ Byte.eqb d "-" = false) as [-> ->].
    { apply Forall_cons in Hds as [Hd _]. by destruct d. }
    unfold strconv_ParseUint. cbn [app] in Hloop. by rewrite Hloop.
Qed.

(** When [git show] succeeds and prints a run of decimal digits, with
    white space around it or not, [buildStamp] returns the number they
    spell, held at the largest [int64]. *)
Theorem buildStamp_commit_time (E : env) (ws1 ds ws2 : bytes) :
  fault E (OpCommand "git" show_args) = false ->
  output E "git" show_args = ws1 ++ ds ++ ws2 ->
  Forall (fun b => ascii_space b = true) ws1 ->
  Forall (fun b => ascii_space b = true) ws2 ->
  ds <> [] -> Forall (fun b => isDigit b = true) ds ->
  buildStamp E = Z.min (digits_value 0 ds) (2 ^ 63 - 1).
Proof.
  intros Hok Hout H1 H2 Hne Hds. unfold buildStamp, runError.
  fold show_args. rewrite Hok, Hout.
  assert (bytes_TrimSpace (ws1 ++ ds ++ ws2) = ds) as ->.
  { destruct ds as [|a mid]; [done|].
    destruct (exists_last Hne) as (init & z & Hlast).
    apply (bytes_TrimSpace_core ws1 ws2 a mid init z); [done|done| | |done].
    - apply Forall_cons in Hds as [Ha _]. by apply isDigit_nonspace.
    - rewrite Hlast in Hds. apply Forall_app in Hds as [_ Hz].
      apply Forall_cons in Hz as [Hz _]. by apply isDigit_nonspace. }
  by apply strconv_ParseInt_digits.
Qed.

Lemma buildStamp_commit_time_witness :
  buildStamp (stamp_env (B "1424000000" ++ [x0a])) = 1424000000%Z.
Proof.
  exact (buildStamp_commit_time (stamp_env (B "1424000000" ++ [x0a]))
           [] (B "1424000000") [x0a]
           eq_refl eq_refl ltac:(repeat constructor) ltac:(repeat constructor)
           ltac:(discriminate)
           ltac:(repeat constructor)).
Defined.

(** [buildStamp] falls back on the clock only when [git show] fails.  When
    the command succeeds, what it printed is not looked at again: empty
    output gives the stamp 0, and so does any output that, once trimmed,
    is not a number from its first to its last byte, such as a warning
    followed by the commit time. *)
Theorem buildStamp_fallbacks (E : env) :
  (fault E (OpCommand "git" show_args) = true -> buildStamp E = clock E) /\
  (fault E (OpCommand "git" show_args) = false ->
   (bytes_TrimSpace (output E "git" show_args) = [] -> buildStamp E = 0%Z) /\
   (forall ds c rest,
      bytes_TrimSpace (output E "git" show_args) = ds ++ c :: rest ->
      Forall (fun b => isDigit b = true) ds -> length ds <= 19 ->
      isDigit c = false ->
      ds <> [] \/ (c <> "+"%byte /\ c <> "-"%byte) ->
      buildStamp E = 0%Z)).
Proof.
  unfold buildStamp, runError. fold show_args. split.
  - by intros ->.
  - intros ->. split.
    + by intros ->.
    + intros ds c rest -> Hds Hlen Hc Hsign.
      by apply strconv_ParseInt_syntax.
Qed.

(** ** The link flags *)

Lemma split_loop_word c w : forall cur s,
  Forall (fun b => b <> c) w ->
  split_loop [c] 0 cur (w ++ s) = split_loop [c] 0 (rev w ++ cur) s.
Proof.
  induction w as [|d w IH]; intros cur s Hw; [done|].
  apply Forall_cons in Hw as [Hd Hw].
  cbn [app split_loop has_prefix].
  destruct (Byte.eqb c d) eqn:Heq; [apply byte_dec_bl in Heq; congruence|].
  cbn [andb]. rewrite IH by done. cbn [rev]. by rewrite <- app_assoc.
Qed.

(** Words without the separator, joined by it, are split into the same
    words. *)
Lemma bytes_Split_Join c (words : list string) :
  words <> [] ->
  Forall (fun w => Forall (fun b => b <> c) (B w)) words ->
  bytes_Split (B (strings_Join words (string_of_list_byte [c]))) [c]
  = map B words.
Proof.
  intros Hne Hwords. unfold bytes_Split.
  induction words as [|w words IH]; [done|].
  apply Forall_cons in Hwords as [Hw Hwords].
  destruct words as [|w' words].
  - cbn [strings_Join map]. rewrite <- (app_nil_r (B w)).
    rewrite split_loop_word by done. cbn [split_loop].
    by rewrite !app_nil_r, rev_involutive.
  - change (strings_Join (w :: w' :: words) (string_of_list_byte [c]))
      with (w +:+ string_of_list_byte [c] +:+ strings_Join (w' :: words) (string_of_list_byte [c])).
    rewrite !list_byte_of_string_app, list_byte_of_string_of_list_byte.
    rewrite split_loop_word by done. cbn [app split_loop has_prefix].
    rewrite (byte_dec_lb (eq_refl c)). cbn [andb length Nat.sub].
    rewrite app_nil_r, rev_involutive. cbn [map]. f_equal.
    by apply IH.
Qed.

(** Replacing one byte by another changes the bytes one by one. *)
Lemma replace_byte a b s :
  bytes_Replace s [a] [b] (-1)
  = map (fun c => if Byte.eqb a c then b else c) s.
Proof.
  unfold bytes_Replace. simpl.
  induction s as [|c s IH]; [done|].
  cbn [replace_loop has_prefix map length Nat.sub option_map app].
  rewrite andb_true_r. destruct (Byte.eqb a c) eqn:Hc.
  - destruct s; simpl in *; by rewrite <- ?IH.
  - by rewrite IH.
Qed.

Lemma buildUser_no_space (H : host) : no_space (buildUser H).
Proof.
  unfold buildUser, no_space. destruct (sysfault H SysUserCurrent).
  - repeat (constructor; [discriminate|]). constructor.
  - rewrite strings_Replace_bytes.
    change (B " ") with [x20]. change (B "-") with [x2d].
    rewrite replace_byte. apply Forall_map, Forall_forall. intros c _. simpl.
    destruct (Byte.eqb x20 c) eqn:Hc; [discriminate|].
    intros ->. discriminate.
Qed.

Lemma byte_of_Z_digit k :
  (0 <= k <= 9)%Z -> isDigit (byte_of_Z (48 + k)) = true.
Proof.
  intros Hk.
  assert (k = 0 \/ k = 1 \/ k = 2 \/ k = 3 \/ k = 4 \/ k = 5 \/ k = 6 \/
          k = 7 \/ k = 8 \/ k = 9)%Z as Hcases by lia.
  repeat (destruct Hcases as [->|Hcases]; [reflexivity|]). by subst.
Qed.

Lemma fmt_digits_digits fuel : forall n acc,
  (0 <= n)%Z -> Forall (fun b => isDigit b = true) acc ->
  Forall (fun b => isDigit b = true) (fmt_digits fuel n acc).
Proof.
  induction fuel as [|fuel IH]; intros n acc Hn Hacc; simpl; [done|].
  assert (isDigit (byte_of_Z (48 + n mod 10)) = true) as Hd.
  { apply byte_of_Z_digit. pose proof (Z.mod_pos_bound n 10). lia. }
  destruct (n <? 10)%Z.
  - by constructor.
  - apply IH; [apply Z.div_pos; lia|by constructor].
Qed.

Lemma fmt_d_no_space n : no_space (fmt_d n).
Proof.
  unfold no_space, fmt_d. rewrite list_byte_of_string_of_list_byte.
  assert (forall l, Forall (fun b => isDigit b = true) l ->
                    Forall (fun b => b <> x20) l) as Hdigits.
  { intros l Hl. eapply Forall_impl; [exact Hl|]. intros b Hb ->. discriminate. }
  destruct (Z.ltb_spec n 0).
  - constructor; [discriminate|].
    apply Hdigits, fmt_digits_digits; [lia|constructor].
  - apply Hdigits, fmt_digits_digits; [lia|constructor].
Qed.

Lemma buildHost_no_space (H : host) :
  no_space (hostname H) -> no_space (buildHost H).
Proof.
  unfold buildHost. destruct (sysfault H SysHostname); [|done]. intros _.
  repeat (constructor; [discriminate|]). constructor.
Qed.

Lemma buildEnvironment_no_space (vars : gmap string string) :
  no_space (os_Getenv vars "ENVIRONMENT") -> no_space (buildEnvironment vars).
Proof.
  unfold buildEnvironment. destruct (0 <? _); [done|]. intros _.
  repeat (constructor; [discriminate|]). constructor.
Qed.

(** When the version, the host name and the [ENVIRONMENT] variable hold no
    space, the link flags are sixteen words with one space between them:
    [-w] and five times [-X], a name and a value.  The stamp and the user
    name never hold a space, the latter because [buildUser] puts hyphens
    in their place; nothing of the kind is done for the other three. *)
Theorem ldflags_words (E : env) (H : host) (O : options)
    (vars : gmap string string) :
  no_space (opt_version O) ->
  no_space (hostname H) ->
  no_space (os_Getenv vars "ENVIRONMENT") ->
  bytes_Split (B (ldflags E H O vars)) (B " ")
  = map B [ "-w"; "-X"; "main.Version"; opt_version O;
            "-X"; "main.BuildStamp"; fmt_d (buildStamp E);
            "-X"; "main.BuildUser"; buildUser H;
            "-X"; "main.BuildHost"; buildHost H;
            "-X"; "main.BuildEnv"; buildEnvironment vars ]%string.
Proof.
  intros Hv Hh%buildHost_no_space He%buildEnvironment_no_space.
  rewrite <- (bytes_Split_Join x20); [|done|].
  - reflexivity.
  - pose proof (buildUser_no_space H). pose proof (fmt_d_no_space (buildStamp E)).
    repeat (constructor;
            [first [done | repeat (constructor; [discriminate|]); constructor]|]).
    constructor.
Qed.

Lemma ldflags_words_witness :
  bytes_Split (B (ldflags (stamp_env (B "1424000000")) sample_host linux_amd64 ∅))
              (B " ")
  = map B [ "-w"; "-X"; "main.Version"; "v0.10.23";
            "-X"; "main.BuildStamp"; "1424000000";
            "-X"; "main.BuildUser"; "Jakob-Borg";
            "-X"; "main.BuildHost"; "build01";
            "-X"; "main.BuildEnv"; "default" ]%string.
Proof.
  exact (ldflags_words (stamp_env (B "1424000000")) sample_host linux_amd64 ∅
           ltac:(repeat (constructor; [discriminate|]); constructor)
           ltac:(repeat (constructor; [discriminate|]); constructor)
           ltac:(constructor)).
Defined.

(** ** Environment variables *)

Lemma os_Setenv_insert (vars : gmap string string) key value :
  no_nul value -> os_Setenv vars key value = <[key := value]> vars.
Proof.
  intros Hv. unfold os_Setenv.
  destruct (existsb (Byte.eqb x00) (B value)) eqn:Hex; [|done].
  apply existsb_exists in Hex as (b & Hin & Hb). apply byte_dec_bl in Hb as <-.
  unfold no_nul in Hv. rewrite List.Forall_forall in Hv. by destruct (Hv _ Hin).
Qed.

Lemma no_nul_app a b : no_nul a -> no_nul b -> no_nul (a +:+ b).
Proof.
  unfold no_nul. rewrite list_byte_of_string_app. intros. by apply Forall_app.
Qed.

Lemma os_Getenv_insert (vars : gmap string string) key value :
  os_Getenv (<[key := value]> vars) key = value.
Proof. unfold os_Getenv. by rewrite lookup_insert_eq. Qed.

Lemma os_Getenv_insert_ne (vars : gmap string string) key key' value :
  key <> key' -> os_Getenv (<[key := value]> vars) key' = os_Getenv vars key'.
Proof. intros. unfold os_Getenv. by rewrite lookup_insert_ne. Qed.

(** One call of [setBuildEnv] on values without NUL. *)
Lemma setBuildEnv_step (H : host) (O : options) (vars : gmap string string) :
  no_nul (opt_goos O) -> no_nul (opt_goarch O) ->
  no_nul (godeps_workspace H) -> no_nul (os_Getenv vars "GOPATH") ->
  setBuildEnv H O vars
  = <["GOPATH" := godeps_workspace H +:+ ":" +:+ os_Getenv vars "GOPATH"]>
      (<["GOARCH" := opt_goarch O]> (<["GOOS" := opt_goos O]> vars)).
Proof.
  intros Hos Harch Hws Hold. unfold setBuildEnv. fold (godeps_workspace H).
  rewrite (os_Setenv_insert vars) by done.
  rewrite (os_Setenv_insert _ "GOARCH") by done.
  rewrite !os_Getenv_insert_ne by done.
  rewrite os_Setenv_insert; [done|].
  apply no_nul_app; [done|]. apply no_nul_app; [|done].
  repeat constructor. discriminate.
Qed.

(** Every call of [setBuildEnv] puts the workspace directory in front of
    [GOPATH] once more: after [n] calls the variable starts with [n]
    copies of it, followed by what it held at first.  [GOOS] and [GOARCH]
    hold the target, and no other variable is touched. *)
Theorem setBuildEnv_prepends (H : host) (O : options)
    (vars : gmap string string) (n : nat) :
  no_nul (opt_goos O) -> no_nul (opt_goarch O) ->
  no_nul (godeps_workspace H) -> no_nul (os_Getenv vars "GOPATH") ->
  os_Getenv (Nat.iter n (setBuildEnv H O) vars) "GOPATH"
  = Nat.iter n (fun s => godeps_workspace H +:+ ":" +:+ s) (os_Getenv vars "GOPATH") /\
  (0 < n ->
   os_Getenv (Nat.iter n (setBuildEnv H O) vars) "GOOS" = opt_goos O /\
   os_Getenv (Nat.iter n (setBuildEnv H O) vars) "GOARCH" = opt_goarch O) /\
  (forall key, key <> "GOOS"%string -> key <> "GOARCH"%string ->
               key <> "GOPATH"%string ->
     Nat.iter n (setBuildEnv H O) vars !! key = vars !! key).
Proof.
  intros Hos Harch Hws Hold.
  assert (forall m, no_nul (Nat.iter m (fun s => godeps_workspace H +:+ ":" +:+ s)
                                     (os_Getenv vars "GOPATH"))) as Hnul.
  { induction m as [|m IH]; [done|]. simpl.
    apply no_nul_app; [done|]. apply no_nul_app; [|done].
    repeat constructor. discriminate. }
  induction n as [|n (IH1 & IH2 & IH3)].
  - split; [done|]. split; [lia|done].
  - rewrite !Nat.iter_succ.
    rewrite setBuildEnv_step; [|done|done|done|by rewrite IH1].
    split; [|split; [intros _; split|]].
    + by rewrite os_Getenv_insert, IH1.
    + do 2 rewrite os_Getenv_insert_ne by done. by rewrite os_Getenv_insert.
    + rewrite os_Getenv_insert_ne by done. by rewrite os_Getenv_insert.
    + intros key H1 H2 H3. rewrite !lookup_insert_ne by done. by apply IH3.
Qed.

Lemma setBuildEnv_prepends_witness :
  os_Getenv (Nat.iter 2 (setBuildEnv sample_host linux_amd64)
                      {[ "GOPATH"%string := "/home/jb"%string ]}) "GOPATH"
  = ("/home/jb/src/github.com/syncthing/syncthing/Godeps/_workspace:" +:+
     "/home/jb/src/github.com/syncthing/syncthing/Godeps/_workspace:" +:+
     "/home/jb")%string.
Proof.
  exact (proj1 (setBuildEnv_prepends sample_host linux_amd64
                  {[ "GOPATH"%string := "/home/jb"%string ]} 2
                  ltac:(repeat (constructor; [discriminate|]); constructor)
                  ltac:(repeat (constructor; [discriminate|]); constructor)
                  ltac:(repeat (constructor; [discriminate|]); constructor)
                  ltac:(repeat (constructor; [discriminate|]); constructor))).
Defined.

(** ** The workspace of [main] *)

Lemma string_app_assoc (a b c : string) : (a +:+ b) +:+ c = a +:+ (b +:+ c).
Proof.
  induction a as [|x a IH]; [done|].
  change (String x ((a +:+ b) +:+ c) = String x (a +:+ (b +:+ c))).
  by rewrite IH.
Qed.

Lemma strings_Join_cons e els sep :
  els <> [] -> strings_Join (e :: els) sep = e +:+ sep +:+ strings_Join els sep.
Proof. by destruct els. Qed.

Lemma strings_Join_app l1 l2 sep :
  l1 <> [] -> l2 <> [] ->
  strings_Join (l1 ++ l2) sep
  = strings_Join l1 sep +:+ sep +:+ strings_Join l2 sep.
Proof.
  intros H1 H2. induction l1 as [|e l1 IH]; [done|].
  destruct l1 as [|e' l1].
  - cbn [app]. by rewrite strings_Join_cons.
  - cbn [app] in *. rewrite (strings_Join_cons e (e' :: l1 ++ l2)) by done.
    rewrite IH by done. rewrite (strings_Join_cons e (e' :: l1)) by done.
    by rewrite !string_app_assoc.
Qed.

(** The elements of a path that is written as elements without separator
    joined by separators. *)
Lemma path_elems_Join els :
  els <> [] -> Forall no_sep els -> path_elems (strings_Join els "/") = els.
Proof.
  intros Hne Hels. unfold path_elems.
  change (bytes_Split (B (strings_Join els "/")) (B "/"))
    with (bytes_Split (B (strings_Join els (string_of_list_byte [x2f]))) [x2f]).
  rewrite (bytes_Split_Join x2f els Hne).
  - rewrite map_map. rewrite <- (map_id els) at 2. apply map_ext.
    intros e. apply string_of_list_byte_of_string.
  - eapply Forall_impl; [exact Hels|]. intros e He.
    eapply Forall_impl; [exact He|]. intros b Hb ->. discriminate.
Qed.

Lemma clean_step_proper rooted out e :
  proper_elem e -> clean_step rooted out e = e :: out.
Proof.
  intros (H1 & H2 & H3 & _). unfold clean_step.
  apply String.eqb_neq in H1, H2, H3. by rewrite H1, H2, H3.
Qed.

Lemma clean_fold_proper rooted els : forall out,
  Forall proper_elem els ->
  fold_left (clean_step rooted) els out = rev els ++ out.
Proof.
  induction els as [|e els IH]; intros out Hels; [done|].
  apply Forall_cons in Hels as [He Hels].
  cbn [fold_left rev]. rewrite clean_step_proper, IH by done.
  by rewrite <- app_assoc.
Qed.

Lemma clean_step_dotdot rooted out e :
  proper_elem e -> clean_step rooted (e :: out) ".." = out.
Proof.
  intros (_ & _ & H3 & _). unfold clean_step. simpl.
  apply String.eqb_neq in H3. by rewrite H3.
Qed.

Lemma proper_no_sep els : Forall proper_elem els -> Forall no_sep els.
Proof.
  intros Hels. eapply Forall_impl; [exact Hels|]. by intros e (_ & _ & _ & He & _).
Qed.

Lemma slash_Join els :
  els <> [] -> "/" +:+ strings_Join els "/" = strings_Join (""%string :: els) "/".
Proof. intros Hne. by rewrite strings_Join_cons. Qed.

(** Cleaning a rooted path of proper elements followed by elements of any
    kind: the proper ones are kept, and the others are worked off from
    there. *)
Lemma filepath_Clean_rooted els more :
  Forall proper_elem els -> Forall no_sep more -> els ++ more <> [] ->
  filepath_Clean (strings_Join (""%string :: els ++ more) "/")
  = "/" +:+ strings_Join
              (rev (fold_left (clean_step true) more (rev els))) "/".
Proof.
  intros Hels Hmore Hne. unfold filepath_Clean.
  assert (B (strings_Join (""%string :: els ++ more) "/")
          = x2f :: B (strings_Join (els ++ more) "/")) as ->.
  { by rewrite strings_Join_cons. }
  change (is_sep x2f) with true. cbv iota.
  rewrite path_elems_Join; [|done|].
  - cbn [fold_left]. unfold clean_step at 2. cbn [String.eqb orb].
    rewrite fold_left_app, (clean_fold_proper true els) by done.
    by rewrite app_nil_r.
  - constructor; [constructor|]. apply Forall_app. split; [|done].
    by apply proper_no_sep.
Qed.

Lemma no_nul_Join els :
  Forall proper_elem els -> no_nul ("/" +:+ strings_Join els "/").
Proof.
  intros Hels. apply no_nul_app; [repeat constructor; discriminate|].
  induction els as [|e els IH]; [constructor|].
  apply Forall_cons in Hels as [(_ & _ & _ & _ & He) Hels].
  destruct els as [|e' els]; [done|].
  rewrite strings_Join_cons by done.
  apply no_nul_app; [done|]. apply no_nul_app; [|by apply IH].
  repeat constructor. discriminate.
Qed.

(** The workspace that [main] derives from a working directory four
    levels below it. *)
Lemma gopath_of_cwd (root : list string) (a b c d : string) :
  Forall proper_elem (root ++ [a; b; c; d]) ->
  filepath_Clean
    (filepath_Join ["/" +:+ strings_Join (root ++ [a; b; c; d]) "/"; "../../../../"])
  = "/" +:+ strings_Join root "/".
Proof.
  intros Hels. pose proof Hels as Hels'.
  apply Forall_app in Hels' as [Hroot Habcd].
  set (dots := [".."; ".."; ".."; ".."; ""]%string).
  assert (Forall no_sep dots) as Hdots.
  { repeat (constructor; [repeat (constructor; [done|]); constructor|]).
    constructor. }
  assert (root ++ [a; b; c; d] <> []) as Hne by (by destruct root).
  assert (forall X, filepath_Join ["/" +:+ X; "../../../../"]%string
                    = filepath_Clean (("/" +:+ X) +:+ "/" +:+ strings_Join dots "/"))
    as -> by reflexivity.
  rewrite slash_Join by done.
  rewrite <- strings_Join_app by done.
  change ((""%string :: root ++ [a; b; c; d]) ++ dots)
    with (""%string :: (root ++ [a; b; c; d]) ++ dots).
  rewrite filepath_Clean_rooted; [|done|done|by destruct root].
  assert (fold_left (clean_step true) dots (rev (root ++ [a; b; c; d])) = rev root)
    as ->.
  { rewrite rev_app_distr. cbn [rev app fold_left dots].
    do 4 apply Forall_cons in Habcd as [? Habcd].
    rewrite !clean_step_dotdot by done. reflexivity. }
  rewrite rev_involutive.
  destruct root as [|r root]; [reflexivity|].
  rewrite slash_Join by done.
  rewrite <- (app_nil_r (r :: root)) at 1.
  rewrite filepath_Clean_rooted; [|done|constructor|done].
  cbn [fold_left]. rewrite rev_involutive. by rewrite slash_Join.
Qed.

(** When [GOPATH] is not set and the script is started four directories
    below a workspace, as it is in [src/github.com/syncthing/syncthing],
    [main] sets [GOPATH] to that workspace; in every case that it goes on
    it puts the [bin] of [GOPATH] in front of [PATH]. *)
Theorem main_workspace_from_cwd (H : host) (vars : gmap string string)
    (root : list string) (a b c d : string) :
  Forall proper_elem (root ++ [a; b; c; d]) ->
  sysfault H SysGetwd = false ->
  getwd H = "/" +:+ strings_Join (root ++ [a; b; c; d]) "/" ->
  os_Getenv vars "GOPATH" = ""%string ->
  no_nul (os_Getenv vars "PATH") ->
  exists vars',
    main_environment H vars = Some vars' /\
    os_Getenv vars' "GOPATH" = "/" +:+ strings_Join root "/" /\
    os_Getenv vars' "PATH"
    = "/" +:+ strings_Join root "/" +:+ "/bin:" +:+ os_Getenv vars "PATH" /\
    (forall key, key <> "GOPATH"%string -> key <> "PATH"%string ->
                 vars' !! key = vars !! key).
Proof.
  intros Hels Hwd Hcwd Hunset Hpath.
  pose proof Hels as [Hroot _]%Forall_app.
  unfold main_environment. rewrite Hunset, Hwd, Hcwd. cbn [String.eqb].
  rewrite gopath_of_cwd by done.
  rewrite (os_Setenv_insert vars) by (by apply no_nul_Join).
  rewrite os_Getenv_insert, os_Getenv_insert_ne by done.
  rewrite os_Setenv_insert.
  2: { apply no_nul_app; [by apply no_nul_Join|].
       repeat (apply no_nul_app; [repeat constructor; discriminate|]). done. }
  eexists. split; [done|]. repeat split.
  - by rewrite os_Getenv_insert_ne, os_Getenv_insert.
  - rewrite os_Getenv_insert. by rewrite !string_app_assoc.
  - intros key H1 H2. by rewrite !lookup_insert_ne.
Qed.

Lemma main_workspace_from_cwd_witness :
  exists vars',
    main_environment sample_host {[ "PATH"%string := "/usr/bin"%string ]} = Some vars' /\
    os_Getenv vars' "GOPATH" = "/home/jb"%string /\
    os_Getenv vars' "PATH" = "/home/jb/bin:/usr/bin"%string.
Proof.
  destruct (main_workspace_from_cwd sample_host {[ "PATH"%string := "/usr/bin"%string ]}
              ["home"; "jb"]%string "src" "github.com" "syncthing" "syncthing")
    as (vars' & Hmain & Hgopath & Hpath & _).
  - repeat (constructor;
            [repeat split; first [discriminate
                                 | repeat (constructor; [done || discriminate|]); constructor]|]).
    constructor.
  - reflexivity.
  - reflexivity.
  - reflexivity.
  - repeat (constructor; [discriminate|]). constructor.
  - exists vars'. repeat split; [exact Hmain|exact Hgopath|exact Hpath].
Defined.

(** ** [build] *)

Lemma os_RemoveAll_lookup (H : host) (fs : gmap string inode) path p :
  os_RemoveAll H fs path !! p
  = if under path p && negb (sysfault H (SysRemove p)) then None else fs !! p.
Proof.
  unfold os_RemoveAll.
  destruct (under path p && negb (sysfault H (SysRemove p))) eqn:Hc.
  - apply map_lookup_filter_None. right. intros x _. simpl. congruence.
  - destruct (fs !! p) as [x|] eqn:Hp.
    + apply map_lookup_filter_Some. by split.
    + apply map_lookup_filter_None. by left.
Qed.

Lemma under_refl path : under path path = true.
Proof. unfold under. by rewrite String.eqb_refl. Qed.

(** [build] returns when the go command succeeds and the checksum of
    what it left can be written. *)
Lemma build_Done E H O w pkg tags w' :
  build E H O w pkg tags = Done w' <->
  fault E (OpCommand "go" (build_args E H O (w_vars w) pkg tags)) = false /\
  md5File E (built E H O w pkg tags) (binary_name O) = (Ok tt, w_files w') /\
  w_vars w' = setBuildEnv H O (w_vars w).
Proof.
  unfold build, runPrint, build_checksum, built.
  destruct (fault E (OpCommand "go" _)); simpl.
  { split; [done|]. by intros [? _]. }
  destruct (md5File E _ (binary_name O)) as [[[]|e] fs'] eqn:Hmd5; simpl.
  - split.
    + intros [= <-]. by simpl.
    + intros (_ & [= Hfs] & Hvars). destruct w'. simpl in *. by subst.
  - split; [done|]. by intros (_ & [=] & _).
Qed.

(** When [build] returns, the binary is the file that the go command left
    under that name, the checksum beside it is the MD5 digest of that
    binary in hex with a newline, and apart from the checksum the files
    are as the go command left them. *)
Theorem build_checksums_what_it_built (E : env) (H : host) (O : options)
    (w w' : world) (pkg : string) (tags : list string) :
  build E H O w pkg tags = Done w' ->
  exists bin,
    built E H O w pkg tags !! binary_name O = Some bin /\
    w_files w' !! binary_name O = Some bin /\
    f_data <$> w_files w' !! (binary_name O +:+ ".md5")
    = Some (fmt_hex (md5_Sum (f_data bin)) ++ [x0a]) /\
    (forall p, p <> binary_name O +:+ ".md5" ->
               w_files w' !! p = built E H O w pkg tags !! p).
Proof.
  intros (_ & Hmd5 & _)%build_Done.
  apply md5File_Ok in Hmd5 as (bin & Hbin & (side & Hside & Hdata) & Hframe).
  exists bin. split; [done|]. split; [|split; [|done]].
  - rewrite Hframe; [done|]. apply string_app_ne. discriminate.
  - by rewrite Hside; simpl; rewrite Hdata.
Qed.

Lemma build_checksums_what_it_built_witness :
  let w' := match build (quiet_env []) toolchain_host linux_amd64 stale_world
                        "./cmd/syncthing" [] with
            | Done w' => w'
            | Exit _ _ => stale_world
            end in
  build (quiet_env []) toolchain_host linux_amd64 stale_world "./cmd/syncthing" []
  = Done w' /\
  f_data <$> w_files w' !! "syncthing"%string = Some (B "fresh") /\
  exists bin,
    built (quiet_env []) toolchain_host linux_amd64 stale_world "./cmd/syncthing" []
      !! binary_name linux_amd64 = Some bin /\
    w_files w' !! binary_name linux_amd64 = Some bin /\
    f_data <$> w_files w' !! (binary_name linux_amd64 +:+ ".md5")
    = Some (fmt_hex (md5_Sum (f_data bin)) ++ [x0a]) /\
    (forall p, p <> binary_name linux_amd64 +:+ ".md5" ->
               w_files w' !! p
               = built (quiet_env []) toolchain_host linux_amd64 stale_world
                   "./cmd/syncthing" [] !! p).
Proof.
  intros w'.
  assert (build (quiet_env []) toolchain_host linux_amd64 stale_world
            "./cmd/syncthing" [] = Done w') as Hb by (vm_compute; reflexivity).
  split; [exact Hb|]. split; [vm_compute; reflexivity|].
  exact (build_checksums_what_it_built (quiet_env []) toolchain_host linux_amd64
           stale_world w' "./cmd/syncthing" [] Hb).
Defined.

Lemma rmr_binary_gone (H : host) (O : options) (fs : gmap string inode) :
  sysfault H (SysRemove (binary_name O)) = false ->
  rmr H fs [binary_name O; binary_name O +:+ ".md5"] !! binary_name O = None.
Proof.
  intros Hrm. unfold rmr. cbn [fold_left].
  rewrite os_RemoveAll_lookup.
  destruct (under _ _ && _); [done|].
  rewrite os_RemoveAll_lookup. by rewrite under_refl, Hrm.
Qed.

(** [build] never writes the checksum of a binary left from an earlier
    run: when the old binary can be removed and the go command writes no
    new one, [build] does not return.  If the go command does not fail
    either, the process ends on the missing binary. *)
Theorem build_rejects_stale_binary (E : env) (H : host) (O : options)
    (w : world) (pkg : string) (tags : list string) :
  sysfault H (SysRemove (binary_name O)) = false ->
  (forall vars args fs,
     fs !! binary_name O = None ->
     effect H vars "go" args fs !! binary_name O = None) ->
  (forall w', build E H O w pkg tags <> Done w') /\
  (fault E (OpCommand "go" (build_args E H O (w_vars w) pkg tags)) = false ->
   build E H O w pkg tags = Exit 1 (FatalErr (ENOENT (binary_name O)))).
Proof.
  intros Hrm Hgo.
  assert (built E H O w pkg tags !! binary_name O = None) as Hnone.
  { apply Hgo. by apply rmr_binary_gone. }
  split.
  - intros w' (_ & Hmd5 & _)%build_Done.
    apply md5File_Ok in Hmd5 as (bin & Hbin & _). congruence.
  - intros Hcmd. unfold build, runPrint. rewrite Hcmd.
    cbn [proc_bind w_files w_vars]. fold (built E H O w pkg tags).
    unfold build_checksum, md5File, os_Open. by rewrite Hnone.
Qed.

Lemma build_rejects_stale_binary_witness :
  stale_fs !! "syncthing"%string = Some (regular (B "old")) /\
  build (quiet_env []) sample_host linux_amd64 stale_world "./cmd/syncthing" []
  = Exit 1 (FatalErr (ENOENT "syncthing")).
Proof.
  split; [reflexivity|].
  exact (proj2 (build_rejects_stale_binary (quiet_env []) sample_host linux_amd64
                  stale_world "./cmd/syncthing" [] eq_refl
                  (fun _ _ _ Hnone => Hnone)) eq_refl).
Defined.

(** ** The commands [tar] and [zip] *)

Lemma binary_name_unix (O : options) :
  opt_goos O <> "windows"%string -> binary_name O = "syncthing"%string.
Proof. intros Hos%String.eqb_neq. unfold binary_name. by rewrite Hos. Qed.

Lemma binary_name_windows (O : options) :
  opt_goos O = "windows"%string -> binary_name O = "syncthing.exe"%string.
Proof. intros Hos. unfold binary_name. by rewrite Hos. Qed.

(** The binary and checksum entries of the archive [buildTar] writes. *)
Lemma buildTar_entries (E : env) (fs : gmap string inode)
    (goos goarch version : string) (noupgrade : bool) (etc extra : list string)
    (archive : list (tar_Header * bytes)) :
  buildTar E fs goos goarch version noupgrade etc extra = Done archive ->
  exists bin sum e1 e2 e3 e4 e5 rest,
    archive = e1 :: e2 :: e3 :: e4 :: e5 :: rest /\
    fs !! "syncthing"%string = Some bin /\
    fs !! "syncthing.md5"%string = Some sum /\
    Name (fst e4) = archive_base goos goarch version noupgrade +:+ "/syncthing" /\
    snd e4 = f_data bin /\
    Name (fst e5) = archive_base goos goarch version noupgrade +:+ "/syncthing.md5" /\
    snd e5 = f_data sum.
Proof.
  unfold buildTar.
  intros (fs' & Hc & Hl & _)%tarGz_Done.
  apply os_Create_Ok in Hc as [_ Hfs].
  destruct (archive_base_out goos goarch version noupgrade ".tar.gz") as [out Hout].
  set (name := archive_base goos goarch version noupgrade) in *.
  cbn [buildTar_files app] in Hl.
  apply tarGz_loop_cons in Hl as (f1 & r1 & _ & _ & _ & _ & _ & Hl & ->).
  apply tarGz_loop_cons in Hl as (f2 & r2 & _ & _ & _ & _ & _ & Hl & ->).
  apply tarGz_loop_cons in Hl as (f3 & r3 & _ & _ & _ & _ & _ & Hl & ->).
  apply tarGz_loop_cons in Hl as (bin & r4 & Hbin & _ & _ & _ & _ & Hl & ->).
  apply tarGz_loop_cons in Hl as (sum & r5 & Hsum & _ & _ & _ & _ & Hl & ->).
  cbn [entry src dst] in *.
  rewrite Hfs in Hbin by (rewrite Hout; discriminate).
  rewrite Hfs in Hsum by (rewrite Hout; discriminate).
  eexists bin, sum, _, _, _, _, _, r5.
  split; [reflexivity|]. by repeat split.
Qed.

(** The binary and checksum entries of the archive [buildZip] writes. *)
Lemma buildZip_entries (E : env) (fs : gmap string inode)
    (goos goarch version : string) (noupgrade : bool) (extra : list string)
    (archive : list (zip_FileHeader * bytes)) :
  buildZip E fs goos goarch version noupgrade extra = Done archive ->
  exists bin sum e1 e2 e3 e4 e5 rest,
    archive = e1 :: e2 :: e3 :: e4 :: e5 :: rest /\
    fs !! "syncthing.exe"%string = Some bin /\
    fs !! "syncthing.exe.md5"%string = Some sum /\
    zName (fst e4)
    = archive_base goos goarch version noupgrade +:+ "/syncthing.exe" /\
    snd e4 = f_data bin /\
    zName (fst e5)
    = archive_base goos goarch version noupgrade +:+ "/syncthing.exe.md5" /\
    snd e5 = f_data sum.
Proof.
  unfold buildZip.
  intros (fs' & Hc & Hl & _)%zipFile_Done.
  apply os_Create_Ok in Hc as [_ Hfs].
  destruct (archive_base_out goos goarch version noupgrade ".zip") as [out Hout].
  set (name := archive_base goos goarch version noupgrade) in *.
  pose proof (buildZip_text_entries name extra) as Htext.
  cbn [buildZip_files app take map entry src dst] in Htext.
  injection Htext as _ _ _ H4 H5.
  cbn [buildZip_files app] in Hl.
  apply zipFile_loop_cons in Hl as (f1 & r1 & _ & _ & _ & _ & _ & _ & _ & Hl & ->).
  apply zipFile_loop_cons in Hl as (f2 & r2 & _ & _ & _ & _ & _ & _ & _ & Hl & ->).
  apply zipFile_loop_cons in Hl as (f3 & r3 & _ & _ & _ & _ & _ & _ & _ & Hl & ->).
  apply zipFile_loop_cons in Hl as (bin & r4 & Hbin & _ & _ & _ & _ & _ & _ & Hl & ->).
  apply zipFile_loop_cons in Hl as (sum & r5 & Hsum & _ & _ & _ & _ & _ & _ & Hl & ->).
  cbn [entry src dst] in *.
  rewrite Hfs in Hbin by (rewrite Hout; discriminate).
  rewrite Hfs in Hsum by (rewrite Hout; discriminate).
  eexists bin, sum, _, _, _, _, _, r5.
  split; [reflexivity|]. unfold zip_entry, entry. cbn [dst fst snd].
  rewrite H4, H5. cbn [fst snd zName]. by repeat split.
Qed.

(** What [build] leaves at the binary and beside it. *)
Lemma build_Done_files E H O w pkg tags w' :
  build E H O w pkg tags = Done w' ->
  exists bin side,
    w_files w' !! binary_name O = Some bin /\
    w_files w' !! (binary_name O +:+ ".md5") = Some side /\
    f_data side = fmt_hex (md5_Sum (f_data bin)) ++ [x0a] /\
    (forall p, p <> binary_name O +:+ ".md5" ->
               w_files w' !! p = built E H O w pkg tags !! p).
Proof.
  intros (_ & Hmd5 & _)%build_Done.
  apply md5File_Ok in Hmd5 as (bin & Hbin & (side & Hside & Hdata) & Hframe).
  exists bin, side. repeat split; try done.
  rewrite Hframe; [done|]. apply string_app_ne. discriminate.
Qed.

(** The command [tar] for a target other than windows: the checksum in
    the archive is the MD5 digest, in hex and with a newline, of the
    binary in the archive, which is the binary as the go command of this
    run left it. *)
Theorem tar_checksum_matches_binary
    (listFiles : gmap string inode -> string -> list string)
    (E : env) (H : host) (O : options) (w : world)
    (archive : list (tar_Header * bytes)) :
  opt_goos O <> "windows"%string ->
  tar_command listFiles E H O w = Done archive ->
  exists bin e1 e2 e3 e4 e5 rest,
    archive = e1 :: e2 :: e3 :: e4 :: e5 :: rest /\
    built E H O w "./cmd/syncthing" (upgrade_tags (opt_noupgrade O))
      !! "syncthing"%string = Some bin /\
    snd e4 = f_data bin /\
    snd e5 = fmt_hex (md5_Sum (snd e4)) ++ [x0a].
Proof.
  intros Hos. unfold tar_command.
  intros (w' & Hbuild & Htar)%proc_bind_Done.
  apply build_Done_files in Hbuild as (bin & side & Hbin & Hside & Hdata & Hframe).
  rewrite (binary_name_unix O Hos) in *.
  apply buildTar_entries in Htar
    as (bin' & sum & e1 & e2 & e3 & e4 & e5 & rest & -> & Hb & Hs & _ & H4 & _ & H5).
  change ("syncthing" +:+ ".md5") with "syncthing.md5"%string in *.
  rewrite Hbin in Hb. injection Hb as <-. rewrite Hside in Hs. injection Hs as <-.
  exists bin, e1, e2, e3, e4, e5, rest. split; [done|]. split.
  - by rewrite <- Hframe.
  - split; [done|]. by rewrite H5, H4.
Qed.

Lemma tar_checksum_matches_binary_witness :
  let archive :=
    match tar_command nothing_scanned (quiet_env []) toolchain_host linux_amd64
                      stale_world with
    | Done a => a
    | Exit _ _ => []
    end in
  tar_command nothing_scanned (quiet_env []) toolchain_host linux_amd64 stale_world
  = Done archive /\
  map snd archive
  = [ B "readme" ++ [x0a]; B "license" ++ [x0a]; B "authors" ++ [x0a];
      B "fresh"; B "76010858c8362d7302ef5f9436aa6639" ++ [x0a] ] /\
  exists bin e1 e2 e3 e4 e5 rest,
    archive = e1 :: e2 :: e3 :: e4 :: e5 :: rest /\
    built (quiet_env []) toolchain_host linux_amd64 stale_world "./cmd/syncthing"
          (upgrade_tags (opt_noupgrade linux_amd64))
      !! "syncthing"%string = Some bin /\
    snd e4 = f_data bin /\
    snd e5 = fmt_hex (md5_Sum (snd e4)) ++ [x0a].
Proof.
  intros archive.
  assert (tar_command nothing_scanned (quiet_env []) toolchain_host linux_amd64
            stale_world = Done archive) as Ht by (vm_compute; reflexivity).
  split; [exact Ht|]. split; [vm_compute; reflexivity|].
  exact (tar_checksum_matches_binary nothing_scanned (quiet_env []) toolchain_host
           linux_amd64 stale_world archive ltac:(discriminate) Ht).
Defined.

(** The command [zip] for the target windows: the checksum in the archive
    is the MD5 digest, in hex and with a newline, of the binary in the
    archive, which is the binary as the go command of this run left it. *)
Theorem zip_checksum_matches_binary
    (listFiles : gmap string inode -> string -> list string)
    (E : env) (H : host) (O : options) (w : world)
    (archive : list (zip_FileHeader * bytes)) :
  opt_goos O = "windows"%string ->
  zip_command listFiles E H O w = Done archive ->
  exists bin e1 e2 e3 e4 e5 rest,
    archive = e1 :: e2 :: e3 :: e4 :: e5 :: rest /\
    built E H O w "./cmd/syncthing" (upgrade_tags (opt_noupgrade O))
      !! "syncthing.exe"%string = Some bin /\
    snd e4 = f_data bin /\
    snd e5 = fmt_hex (md5_Sum (snd e4)) ++ [x0a].
Proof.
  intros Hos. unfold zip_command.
  intros (w' & Hbuild & Hzip)%proc_bind_Done.
  apply build_Done_files in Hbuild as (bin & side & Hbin & Hside & Hdata & Hframe).
  rewrite (binary_name_windows O Hos) in *.
  apply buildZip_entries in Hzip
    as (bin' & sum & e1 & e2 & e3 & e4 & e5 & rest & -> & Hb & Hs & _ & H4 & _ & H5).
  change ("syncthing.exe" +:+ ".md5") with "syncthing.exe.md5"%string in *.
  rewrite Hbin in Hb. injection Hb as <-. rewrite Hside in Hs. injection Hs as <-.
  exists bin, e1, e2, e3, e4, e5, rest. split; [done|]. split.
  - by rewrite <- Hframe.
  - split; [done|]. by rewrite H5, H4.
Qed.

Lemma zip_checksum_matches_binary_witness :
  let archive :=
    match zip_command nothing_scanned (quiet_env []) toolchain_host windows_386
                      stale_world with
    | Done a => a
    | Exit _ _ => []
    end in
  zip_command nothing_scanned (quiet_env []) toolchain_host windows_386 stale_world
  = Done archive /\
  map snd archive
  = [ B "readme" ++ [x0a; x0d]; B "license" ++ [x0a; x0d];
      B "authors" ++ [x0a; x0d];
      B "fresh"; B "76010858c8362d7302ef5f9436aa6639" ++ [x0a] ] /\
  exists bin e1 e2 e3 e4 e5 rest,
    archive = e1 :: e2 :: e3 :: e4 :: e5 :: rest /\
    built (quiet_env []) toolchain_host windows_386 stale_world "./cmd/syncthing"
          (upgrade_tags (opt_noupgrade windows_386))
      !! "syncthing.exe"%string = Some bin /\
    snd e4 = f_data bin /\
    snd e5 = fmt_hex (md5_Sum (snd e4)) ++ [x0a].
Proof.
  intros archive.
  assert (zip_command nothing_scanned (quiet_env []) toolchain_host windows_386
            stale_world = Done archive) as Hz by (vm_compute; reflexivity).
  split; [exact Hz|]. split; [vm_compute; reflexivity|].
  exact (zip_checksum_matches_binary nothing_scanned (quiet_env []) toolchain_host
           windows_386 stale_world archive eq_refl Hz).
Defined.

(** What [build] does not touch: a file that is neither the binary nor
    below it, nor the checksum or below it, and that the go command
    leaves alone. *)
Lemma build_keeps E H O w pkg tags w' p :
  build E H O w pkg tags = Done w' ->
  under (binary_name O) p = false ->
  under (binary_name O +:+ ".md5") p = false ->
  toolchain_keeps H (setBuildEnv H O (w_vars w)) p ->
  w_files w' !! p = w_files w !! p.
Proof.
  intros Hbuild Hbin Hsum Hkeeps.
  apply build_Done_files in Hbuild as (_ & _ & _ & _ & _ & Hframe).
  rewrite Hframe.
  2: { intros ->. by rewrite under_refl in Hsum. }
  unfold built. rewrite Hkeeps. unfold rmr. cbn [fold_left].
  by rewrite !os_RemoveAll_lookup, Hsum, Hbin.
Qed.

(** The command [zip] for a target other than windows: [build] writes and
    checksums [syncthing], while the manifest names [syncthing.exe].  So
    when the command returns, the binary in the archive is the file of
    that name that lay in the tree before the command started, not one
    built in this run (the go command is taken not to write it); and
    there must have been one, or the command would not have returned. *)
Theorem zip_packs_stale_binary
    (listFiles : gmap string inode -> string -> list string)
    (E : env) (H : host) (O : options) (w : world)
    (archive : list (zip_FileHeader * bytes)) :
  opt_goos O <> "windows"%string ->
  toolchain_keeps H (setBuildEnv H O (w_vars w)) "syncthing.exe" ->
  zip_command listFiles E H O w = Done archive ->
  exists old e1 e2 e3 e4 rest,
    archive = e1 :: e2 :: e3 :: e4 :: rest /\
    w_files w !! "syncthing.exe"%string = Some old /\
    zName (fst e4)
    = archive_base (opt_goos O) (opt_goarch O) (opt_version O) (opt_noupgrade O)
      +:+ "/syncthing.exe" /\
    snd e4 = f_data old.
Proof.
  intros Hos Hkeeps. unfold zip_command.
  intros (w' & Hbuild & Hzip)%proc_bind_Done.
  apply buildZip_entries in Hzip
    as (bin & sum & e1 & e2 & e3 & e4 & e5 & rest & -> & Hb & _ & Hn & H4 & _).
  assert (w_files w' !! "syncthing.exe"%string = w_files w !! "syncthing.exe"%string)
    as Heq.
  { eapply build_keeps; [exact Hbuild| | |done];
      rewrite (binary_name_unix O Hos); reflexivity. }
  rewrite Heq in Hb. by exists bin, e1, e2, e3, e4, (e5 :: rest).
Qed.

Lemma zip_packs_stale_binary_witness :
  let archive :=
    match zip_command nothing_scanned (quiet_env []) toolchain_host linux_amd64
                      stale_world with
    | Done a => a
    | Exit _ _ => []
    end in
  zip_command nothing_scanned (quiet_env []) toolchain_host linux_amd64 stale_world
  = Done archive /\
  map snd archive
  = [ B "readme" ++ [x0a; x0d]; B "license" ++ [x0a; x0d];
      B "authors" ++ [x0a; x0d]; B "old exe"; B "old exe sum" ] /\
  exists old e1 e2 e3 e4 rest,
    archive = e1 :: e2 :: e3 :: e4 :: rest /\
    w_files stale_world !! "syncthing.exe"%string = Some old /\
    zName (fst e4)
    = archive_base (opt_goos linux_amd64) (opt_goarch linux_amd64)
        (opt_version linux_amd64) (opt_noupgrade linux_amd64)
      +:+ "/syncthing.exe" /\
    snd e4 = f_data old.
Proof.
  intros archive.
  assert (zip_command nothing_scanned (quiet_env []) toolchain_host linux_amd64
            stale_world = Done archive) as Hz by (vm_compute; reflexivity).
  split; [exact Hz|]. split; [vm_compute; reflexivity|].
  refine (zip_packs_stale_binary nothing_scanned (quiet_env []) toolchain_host
            linux_amd64 stale_world archive ltac:(discriminate) _ Hz).
  intros args fs.
  assert (os_Getenv (setBuildEnv toolchain_host linux_amd64 (w_vars stale_world)) "GOOS"
          = "linux"%string) as Hgoos by (vm_compute; reflexivity).
  unfold toolchain_host at 1. cbn [effect String.eqb Ascii.eqb Bool.eqb].
  rewrite Hgoos. cbn [String.eqb Ascii.eqb Bool.eqb].
  apply lookup_insert_ne. discriminate.
Defined.

(** The command [tar] for the target windows: [build] writes and
    checksums [syncthing.exe], while the manifest names [syncthing].  So
    when the command returns, the binary in the archive is the file of
    that name that lay in the tree before the command started. *)
Theorem tar_packs_stale_binary
    (listFiles : gmap string inode -> string -> list string)
    (E : env) (H : host) (O : options) (w : world)
    (archive : list (tar_Header * bytes)) :
  opt_goos O = "windows"%string ->
  toolchain_keeps H (setBuildEnv H O (w_vars w)) "syncthing" ->
  tar_command listFiles E H O w = Done archive ->
  exists old e1 e2 e3 e4 rest,
    archive = e1 :: e2 :: e3 :: e4 :: rest /\
    w_files w !! "syncthing"%string = Some old /\
    Name (fst e4)
    = archive_base (opt_goos O) (opt_goarch O) (opt_version O) (opt_noupgrade O)
      +:+ "/syncthing" /\
    snd e4 = f_data old.
Proof.
  intros Hos Hkeeps. unfold tar_command.
  intros (w' & Hbuild & Htar)%proc_bind_Done.
  apply buildTar_entries in Htar
    as (bin & sum & e1 & e2 & e3 & e4 & e5 & rest & -> & Hb & _ & Hn & H4 & _).
  assert (w_files w' !! "syncthing"%string = w_files w !! "syncthing"%string)
    as Heq.
  { eapply build_keeps; [exact Hbuild| | |done];
      rewrite (binary_name_windows O Hos); reflexivity. }
  rewrite Heq in Hb. by exists bin, e1, e2, e3, e4, (e5 :: rest).
Qed.

Lemma tar_packs_stale_binary_witness :
  let archive :=
    match tar_command nothing_scanned (quiet_env []) toolchain_host windows_386
                      stale_world with
    | Done a => a
    | Exit _ _ => []
    end in
  tar_command nothing_scanned (quiet_env []) toolchain_host windows_386 stale_world
  = Done archive /\
  map snd archive
  = [ B "readme" ++ [x0a]; B "license" ++ [x0a]; B "authors" ++ [x0a];
      B "old"; B "old sum" ] /\
  exists old e1 e2 e3 e4 rest,
    archive = e1 :: e2 :: e3 :: e4 :: rest /\
    w_files stale_world !! "syncthing"%string = Some old /\
    Name (fst e4)
    = archive_base (opt_goos windows_386) (opt_goarch windows_386)
        (opt_version windows_386) (opt_noupgrade windows_386)
      +:+ "/syncthing" /\
    snd e4 = f_data old.
Proof.
  intros archive.
  assert (tar_command nothing_scanned (quiet_env []) toolchain_host windows_386
            stale_world = Done archive) as Ht by (vm_compute; reflexivity).
  split; [exact Ht|]. split; [vm_compute; reflexivity|].
  refine (tar_packs_stale_binary nothing_scanned (quiet_env []) toolchain_host
            windows_386 stale_world archive eq_refl _ Ht).
  intros args fs.
  assert (os_Getenv (setBuildEnv toolchain_host windows_386 (w_vars stale_world)) "GOOS"
          = "windows"%string) as Hgoos by (vm_compute; reflexivity).
  unfold toolchain_host at 1. cbn [effect String.eqb Ascii.eqb Bool.eqb].
  rewrite Hgoos. cbn [String.eqb Ascii.eqb Bool.eqb].
  apply lookup_insert_ne. discriminate.
Defined.

(** ** [copyFile] *)

Lemma os_OpenFile_Ok E (fs : gmap string inode) name perm fs1 :
  os_OpenFile E fs name perm = Ok fs1 <->
  fault E (OpCreate name) = false /\
  fs1 = <[name := {| f_data := [];
                     f_mode := match fs !! name with
                               | Some f => f_mode f
                               | None => Z.land perm (Z.lnot (umask E))
                               end;
                     f_modTime := clock E |}]> fs.
Proof.
  unfold os_OpenFile, attempt. destruct (fault E (OpCreate name)); simpl.
  - split; [done|]. by intros [? _].
  - split; [by intros [= <-]|]. by intros [_ ->].
Qed.

(** [copyFile] returns nil when the source is there and the three
    operations succeed; the tree it leaves differs at the destination
    only. *)
Lemma copyFile_Ok E (fs : gmap string inode) src dst perm fs' :
  copyFile E fs src dst perm = (Ok tt, fs') <->
  exists from,
    fs !! src = Some from /\
    fault E (OpOpen src) = false /\ fault E (OpCreate dst) = false /\
    fault E (OpCopy src) = false /\
    fs' = <[dst := copied E fs src dst perm from]> fs.
Proof.
  unfold copyFile.
  destruct (os_Open E fs src) as [srcFd|e] eqn:Hopen.
  2: { split; [done|]. intros (from & Hfrom & Ho & _).
       assert (os_Open E fs src = Ok {| fd_path := src; fd_file := from |}) as Hok
         by (apply os_Open_Ok; eauto).
       congruence. }
  apply os_Open_Ok in Hopen as (from & Hfrom & Ho & ->).
  destruct (os_OpenFile E fs dst perm) as [fs1|e] eqn:Hcreate.
  2: { split; [done|]. intros (from' & _ & _ & Hc & _).
       assert (os_OpenFile E fs dst perm = Ok (<[dst := _]> fs)) as Hok
         by (apply os_OpenFile_Ok; eauto).
       congruence. }
  apply os_OpenFile_Ok in Hcreate as [Hc ->].
  unfold attempt. destruct (fault E (OpCopy src)) eqn:Hcopy.
  { split; [done|]. by intros (? & _ & _ & _ & ? & _). }
  cbn [fd_path]. rewrite alter_insert_eq. cbn [f_mode f_modTime].
  assert (match <[dst := {| f_data := [];
                            f_mode := match fs !! dst with
                                      | Some f => f_mode f
                                      | None => Z.land perm (Z.lnot (umask E))
                                      end;
                            f_modTime := clock E |}]> fs !! src with
          | Some f => f_data f
          | None => []
          end = if String.eqb src dst then [] else f_data from) as ->.
  { destruct (String.eqb_spec src dst) as [->|Hne].
    - by rewrite lookup_insert_eq.
    - rewrite lookup_insert_ne by done. by rewrite Hfrom. }
  fold (copied E fs src dst perm from). split.
  - intros [= <-]. exists from. by repeat split.
  - intros (from' & Hfrom' & _ & _ & _ & ->). by simplify_eq.
Qed.

(** When [copyFile] returns nil, the destination holds the bytes of the
    source, and nothing else has changed.  Its mode is [perm] less the
    umask only when the destination did not exist: a destination that
    was there keeps the mode it had.  When the source is the destination
    itself, the file is left empty. *)
Theorem copyFile_result (E : env) (fs fs' : gmap string inode)
    (src dst : string) (perm : Z) :
  copyFile E fs src dst perm = (Ok tt, fs') ->
  exists from to,
    fs !! src = Some from /\ fs' !! dst = Some to /\
    (src <> dst -> f_data to = f_data from /\ fs' !! src = Some from) /\
    (src = dst -> f_data to = []) /\
    (fs !! dst = None -> f_mode to = Z.land perm (Z.lnot (umask E))) /\
    (forall old, fs !! dst = Some old -> f_mode to = f_mode old) /\
    (forall p, p <> dst -> fs' !! p = fs !! p).
Proof.
  intros (from & Hfrom & _ & _ & _ & ->)%copyFile_Ok.
  exists from, (copied E fs src dst perm from).
  split; [done|]. split; [by rewrite lookup_insert_eq|].
  unfold copied. cbn [f_data f_mode]. repeat split.
  - apply String.eqb_neq in H. by rewrite H.
  - by rewrite lookup_insert_ne.
  - intros ->. by rewrite String.eqb_refl.
  - by intros ->.
  - by intros old ->.
  - intros p Hp. by rewrite lookup_insert_ne.
Qed.

Lemma copyFile_result_witness :
  let fs' := snd (copyFile (quiet_env []) installed_fs "README.md"
                           "deb/README.txt" 420) in
  copyFile (quiet_env []) installed_fs "README.md" "deb/README.txt" 420
  = (Ok tt, fs') /\
  fs' !! "deb/README.txt"%string
  = Some {| f_data := B "new text"; f_mode := 292; f_modTime := 0 |} /\
  exists from to,
    installed_fs !! "README.md"%string = Some from /\
    fs' !! "deb/README.txt"%string = Some to /\
    ("README.md"%string <> "deb/README.txt"%string ->
     f_data to = f_data from /\ fs' !! "README.md"%string = Some from) /\
    ("README.md"%string = "deb/README.txt"%string -> f_data to = []) /\
    (installed_fs !! "deb/README.txt"%string = None ->
     f_mode to = Z.land 420 (Z.lnot (umask (quiet_env [])))) /\
    (forall old, installed_fs !! "deb/README.txt"%string = Some old ->
                 f_mode to = f_mode old) /\
    (forall p, p <> "deb/README.txt"%string -> fs' !! p = installed_fs !! p).
Proof.
  intros fs'.
  assert (copyFile (quiet_env []) installed_fs "README.md" "deb/README.txt" 420
          = (Ok tt, fs')) as Hc by (vm_compute; reflexivity).
  split; [exact Hc|]. split; [vm_compute; reflexivity|].
  exact (copyFile_result (quiet_env []) installed_fs fs' "README.md"
           "deb/README.txt" 420 Hc).
Defined.

(** ** [copyFile] and the directories *)

Lemma os_Mkdir_mono E dirs name : dirs ⊆ snd (os_Mkdir E dirs name).
Proof.
  unfold os_Mkdir. destruct (_ || _); simpl; set_solver.
Qed.

Lemma os_MkdirAll_rec_mono E fs : forall fuel dirs path,
  dirs ⊆ snd (os_MkdirAll_rec fuel E fs dirs path).
Proof.
  induction fuel as [|fuel IH]; intros dirs path; cbn [os_MkdirAll_rec].
  - destruct (is_dir dirs _); [done|].
    destruct (bool_decide _); [done|]. cbn [fst snd].
    apply os_Mkdir_mono.
  - destruct (is_dir dirs _); [done|].
    destruct (bool_decide _); [done|].
    destruct (mkdir_parent path) as [parent|]; cbn [fst snd].
    + pose proof (IH dirs parent) as Hp.
      destruct (os_MkdirAll_rec fuel E fs dirs parent) as [[[]|e] dirs1];
        cbn [fst snd] in *; [|done].
      etrans; [exact Hp|apply os_Mkdir_mono].
    + apply os_Mkdir_mono.
Qed.

Lemma os_Mkdir_Ok E dirs name :
  fst (os_Mkdir E dirs name) = Ok tt -> is_dir (snd (os_Mkdir E dirs name)) name = true.
Proof.
  unfold os_Mkdir, is_dir. destruct (_ || _); simpl; [done|]. intros _.
  rewrite bool_decide_eq_true_2 by set_solver. by rewrite orb_true_r.
Qed.

Lemma os_MkdirAll_rec_Ok E fs fuel dirs path :
  fst (os_MkdirAll_rec fuel E fs dirs path) = Ok tt ->
  is_dir (snd (os_MkdirAll_rec fuel E fs dirs path)) (string_of_list_byte path) = true.
Proof.
  destruct fuel as [|fuel]; cbn [os_MkdirAll_rec].
  - destruct (is_dir dirs _) eqn:Hd; [done|].
    destruct (bool_decide _); [done|]. cbn [fst snd]. apply os_Mkdir_Ok.
  - destruct (is_dir dirs _) eqn:Hd; [done|].
    destruct (bool_decide _); [done|].
    destruct (match mkdir_parent path with
              | Some parent => os_MkdirAll_rec fuel E fs dirs parent
              | None => (Ok tt, dirs)
              end) as [[[]|e] dirs1]; cbn [fst snd]; [|done].
    apply os_Mkdir_Ok.
Qed.

Lemma copyFile_tree_files E fs dirs src dst perm :
  copyFile_tree E fs dirs src dst perm
  = (copyFile E fs src dst perm, snd (os_MkdirAll E fs dirs (filepath_Dir dst))).
Proof.
  unfold copyFile_tree, copyFile.
  destruct (os_Open E fs src) as [srcFd|e]; [|done].
  destruct (os_OpenFile E fs dst perm) as [fs1|e]; [|done].
  by destruct (attempt E (OpCopy src)).
Qed.

(** [copyFile] makes the directories of [dst] before anything else and
    drops the error: whatever it returns, the directories there were are
    still there and those that [os.MkdirAll] could make have been added
    (all of them, the directory of [dst] included, when it did not fail).
    What it leaves when it returns an error: when the source is not there
    or cannot be opened, or the destination cannot be opened for writing,
    no file has changed; when the copy itself fails, the destination has
    been emptied or created already, so what it held before is lost. *)
Theorem copyFile_errors (E : env) (fs : gmap string inode) (dirs : gset string)
    (src dst : string) (perm : Z) :
  copyFile_tree E fs dirs src dst perm
  = (copyFile E fs src dst perm, snd (os_MkdirAll E fs dirs (filepath_Dir dst))) /\
  dirs ⊆ snd (os_MkdirAll E fs dirs (filepath_Dir dst)) /\
  (fst (os_MkdirAll E fs dirs (filepath_Dir dst)) = Ok tt ->
   is_dir (snd (copyFile_tree E fs dirs src dst perm)) (filepath_Dir dst) = true) /\
  (fs !! src = None ->
   copyFile_tree E fs dirs src dst perm
   = (Err (ENOENT src), fs, snd (os_MkdirAll E fs dirs (filepath_Dir dst)))) /\
  (fault E (OpOpen src) = true \/ fault E (OpCreate dst) = true ->
   exists e, fst (copyFile_tree E fs dirs src dst perm) = (Err e, fs)) /\
  (is_Some (fs !! src) -> fault E (OpOpen src) = false ->
   fault E (OpCreate dst) = false -> fault E (OpCopy src) = true ->
   exists left,
     fst (fst (copyFile_tree E fs dirs src dst perm)) = Err (EIO (OpCopy src)) /\
     snd (fst (copyFile_tree E fs dirs src dst perm)) !! dst = Some left /\
     (forall from, fs !! src = Some from -> f_data left `prefix_of` f_data from) /\
     (forall p, p <> dst ->
        snd (fst (copyFile_tree E fs dirs src dst perm)) !! p = fs !! p)) /\
  copyFile_tree (quiet_env []) ∅ ∅ "syncthing" "deb/usr/bin/syncthing" 493
  = (Err (ENOENT "syncthing"), ∅,
     {[ "deb"; "deb/usr"; "deb/usr/bin" ]}%string).
Proof.
  split; [apply copyFile_tree_files|]. rewrite copyFile_tree_files. cbn [fst snd].
  split; [apply os_MkdirAll_rec_mono|].
  split.
  { intros Hok. apply os_MkdirAll_rec_Ok in Hok.
    by rewrite string_of_list_byte_of_string in Hok. }
  unfold copyFile, os_Open, os_OpenFile, attempt. split; [|split; [|split]].
  - by intros ->.
  - intros Hfault. destruct (fs !! src) as [from|]; [|eauto].
    destruct (fault E (OpOpen src)); simpl; [eauto|].
    destruct Hfault as [Hf | ->]; [done|]. simpl. eauto.
  - intros [sf ->] -> -> ->. simpl. eexists. split; [done|].
    split; [by rewrite lookup_insert_eq|]. split.
    + intros from' _. apply prefix_nil.
    + intros p Hp. by rewrite lookup_insert_ne.
  - vm_compute. reflexivity.
Qed.

(** ** The copy loop of [buildDeb] *)

Lemma buildDeb_copy_cons E (fs : gmap string inode) af files fs' :
  buildDeb_copy E fs (af :: files) = Done fs' <->
  exists fs1, copyFile E fs (src af) (dst af) (perm af) = (Ok tt, fs1) /\
              buildDeb_copy E fs1 files = Done fs'.
Proof.
  cbn [buildDeb_copy].
  destruct (copyFile E fs (src af) (dst af) (perm af)) as [[[]|e] fs1].
  - split; [eauto|]. by intros (fs1' & [= <-] & ?).
  - split; [done|]. by intros (? & [=] & _).
Qed.

Lemma buildDeb_copy_app E l1 : forall (fs : gmap string inode) l2 fs',
  buildDeb_copy E fs (l1 ++ l2) = Done fs' <->
  exists fs1, buildDeb_copy E fs l1 = Done fs1 /\ buildDeb_copy E fs1 l2 = Done fs'.
Proof.
  induction l1 as [|af l1 IH]; intros fs l2 fs'.
  - simpl. split; [eauto|]. by intros (fs1 & [= <-] & ?).
  - cbn [app]. rewrite buildDeb_copy_cons. split.
    + intros (fs1 & Hc & (fs2 & H1 & H2)%IH). exists fs2. split; [|done].
      apply buildDeb_copy_cons. eauto.
    + intros (fs2 & (fs1 & Hc & H1)%buildDeb_copy_cons & H2).
      exists fs1. split; [done|]. apply IH. eauto.
Qed.

(** The loop changes the destinations of the manifest only. *)
Lemma buildDeb_copy_frame E files : forall (fs fs' : gmap string inode) p,
  buildDeb_copy E fs files = Done fs' ->
  Forall (fun g => dst g <> p) files ->
  fs' !! p = fs !! p.
Proof.
  induction files as [|af files IH]; intros fs fs' p.
  - by intros [= <-].
  - intros (fs1 & (sf & _ & _ & _ & _ & ->)%copyFile_Ok & Hrest)%buildDeb_copy_cons
           [Haf Hfiles]%Forall_cons.
    rewrite (IH _ _ _ Hrest Hfiles). by rewrite lookup_insert_ne.
Qed.

(** In the tree that [buildDeb] fills, a destination that several entries
    of the manifest share holds the bytes of the last of them: each copy
    replaces the one before.  (No source of the manifest is also a
    destination; those of [buildDeb] lie below [deb], which is removed
    before the sources are listed.)  Files that are no destination are
    left as they are. *)
Theorem buildDeb_copy_last_wins (E : env) (fs fs' : gmap string inode)
    (files : list archiveFile) :
  buildDeb_copy E fs files = Done fs' ->
  Forall (fun f => Forall (fun g => src f <> dst g) files) files ->
  (forall before af after,
     files = before ++ af :: after ->
     Forall (fun g => dst g <> dst af) after ->
     exists sf to,
       fs !! src af = Some sf /\ fs' !! dst af = Some to /\
       f_data to = f_data sf) /\
  (forall p, Forall (fun g => dst g <> p) files -> fs' !! p = fs !! p).
Proof.
  intros Hloop Hdisjoint. split.
  - intros before af after -> Hlast.
    apply buildDeb_copy_app in Hloop as (fs1 & Hbefore & Hloop).
    apply buildDeb_copy_cons in Hloop as (fs2 & Hcopy & Hafter).
    apply copyFile_Ok in Hcopy as (sf & Hsf & _ & _ & _ & ->).
    assert (Forall (fun g => src af <> dst g) (before ++ af :: after)) as Haf.
    { rewrite List.Forall_forall in Hdisjoint. apply Hdisjoint.
      apply in_or_app. right. by left. }
    apply Forall_app in Haf as [Hb Ha]. apply Forall_cons in Ha as [Hself _].
    rewrite (buildDeb_copy_frame _ _ _ _ _ Hbefore) in Hsf.
    2: { eapply Forall_impl; [exact Hb|]. intros g Hg Heq. congruence. }
    exists sf, (copied E fs1 (src af) (dst af) (perm af) sf).
    split; [done|]. split.
    + rewrite (buildDeb_copy_frame _ _ _ _ _ Hafter Hlast).
      by rewrite lookup_insert_eq.
    + unfold copied. cbn [f_data].
      apply String.eqb_neq in Hself. by rewrite Hself.
  - intros p Hp. by apply (buildDeb_copy_frame E files).
Qed.

Lemma buildDeb_copy_last_wins_witness :
  let fs' := match buildDeb_copy (quiet_env []) clash_fs clash_manifest with
             | Done fs' => fs'
             | Exit _ _ => clash_fs
             end in
  buildDeb_copy (quiet_env []) clash_fs clash_manifest = Done fs' /\
  f_data <$> fs' !! "deb/usr/share/doc/syncthing/README.txt"%string
  = Some (B "second") /\
  clash_manifest
  = take 1 (buildDeb_files ["extra/a/README.txt"; "extra/b/README.txt"]%string)
    ++ drop 4 (buildDeb_files ["extra/a/README.txt"; "extra/b/README.txt"]%string) /\
  exists sf to,
    clash_fs !! "extra/b/README.txt"%string = Some sf /\
    fs' !! "deb/usr/share/doc/syncthing/README.txt"%string = Some to /\
    f_data to = f_data sf.
Proof.
  intros fs'.
  assert (buildDeb_copy (quiet_env []) clash_fs clash_manifest = Done fs') as Hc
    by (vm_compute; reflexivity).
  split; [exact Hc|]. split; [vm_compute; reflexivity|].
  split; [vm_compute; reflexivity|].
  refine (proj1 (buildDeb_copy_last_wins (quiet_env []) clash_fs fs' clash_manifest
                   Hc _)
            (take 2 clash_manifest)
            {| src := "extra/b/README.txt";
               dst := "deb/usr/share/doc/syncthing/README.txt"; perm := 420 |}
            [] eq_refl _).
  - repeat (constructor; [repeat (constructor; [discriminate|]); constructor|]).
    constructor.
  - constructor.
Defined.

(** ** [buildDeb] *)

Lemma ioutil_WriteFile_frame E H (fs : gmap string inode) filename data perm p :
  p <> filename ->
  snd (ioutil_WriteFile E H fs filename data perm) !! p = fs !! p.
Proof.
  intros Hp. unfold ioutil_WriteFile, os_OpenFile, attempt.
  destruct (fault E (OpCreate filename)); simpl; [done|].
  destruct (sysfault H (SysWrite filename)); simpl.
  - by rewrite lookup_insert_ne.
  - rewrite lookup_alter_ne by done. by rewrite lookup_insert_ne.
Qed.


(** [buildDeb] returns without a panic when the build and the copies
    succeed and the version is not empty. *)
Lemma buildDeb_Done listFiles E H O w w' :
  buildDeb listFiles E H O w = Done (Some w') <->
  exists w1 fs2 control changelog,
    build E H O {| w_vars := w_vars w;
                   w_files := os_RemoveAll H (w_files w) "deb" |}
          "./cmd/syncthing" ["noupgrade"] = Done w1 /\
    buildDeb_copy E (w_files w1)
      (buildDeb_files (listFiles (w_files w1) "extra")) = Done fs2 /\
    deb_templates (opt_goarch O) (opt_version O) (now_RFC1123 H)
    = Some (control, changelog) /\
    w' = {| w_vars := w_vars w1;
            w_files := buildDeb_control E H fs2 control changelog |}.
Proof.
  unfold buildDeb. rewrite proc_bind_Done. split.
  - intros (w1 & Hbuild & Hrest). apply proc_bind_Done in Hrest as (fs2 & Hcopy & Hrest).
    destruct (deb_templates _ _ _) as [[control changelog]|]; [|done].
    injection Hrest as <-. by exists w1, fs2, control, changelog.
  - intros (w1 & fs2 & control & changelog & Hbuild & Hcopy & Ht & ->).
    exists w1. split; [done|]. apply proc_bind_Done. exists fs2. split; [done|].
    by rewrite Ht.
Qed.

(** The documents of the deb tree go to one directory, the binary to
    another, and the control files to a third. *)
Lemma buildDeb_files_dst (extra : list string) (p : string) :
  In p ("deb/usr/bin/syncthing"%string :: "syncthing"%string :: control_files) ->
  Forall (fun g => dst g <> p) (drop 4 (buildDeb_files extra)) /\
  Forall (fun g => dst g <> p) (take 3 (buildDeb_files extra)).
Proof.
  intros Hp. split.
  - cbn [buildDeb_files app drop]. apply Forall_map, Forall_forall.
    intros file _. cbn [dst]. simpl in Hp.
    repeat (destruct Hp as [<-|Hp]; [discriminate|]). done.
  - cbn [buildDeb_files app take]. simpl in Hp.
    repeat (destruct Hp as [<-|Hp];
            [repeat (constructor; [discriminate|]); constructor|]).
    done.
Qed.

Lemma buildDeb_control_frame E H (fs : gmap string inode) control changelog p :
  ~ In p control_files ->
  buildDeb_control E H fs control changelog !! p = fs !! p.
Proof.
  intros Hp. unfold buildDeb_control.
  rewrite !ioutil_WriteFile_frame; [done|..];
    intros ->; apply Hp; simpl; tauto.
Qed.

(** When [buildDeb] is run for a target other than windows and returns,
    the tree holds the binary that this run has built at
    [deb/usr/bin/syncthing], a new file with the mode 0755 less the
    umask.  (Nothing keeps [os.RemoveAll] from removing the file of an
    earlier run, and the go command does not write there.) *)
Theorem buildDeb_installs_binary
    (listFiles : gmap string inode -> string -> list string)
    (E : env) (H : host) (O : options) (w w' : world) :
  opt_goos O <> "windows"%string ->
  sysfault H (SysRemove "deb/usr/bin/syncthing") = false ->
  toolchain_keeps H (setBuildEnv H O (w_vars w)) "deb/usr/bin/syncthing" ->
  buildDeb listFiles E H O w = Done (Some w') ->
  exists bin,
    built E H O {| w_vars := w_vars w;
                   w_files := os_RemoveAll H (w_files w) "deb" |}
          "./cmd/syncthing" ["noupgrade"] !! "syncthing"%string = Some bin /\
    w_files w' !! "syncthing"%string = Some bin /\
    w_files w' !! "deb/usr/bin/syncthing"%string
    = Some {| f_data := f_data bin;
              f_mode := Z.land 493 (Z.lnot (umask E));
              f_modTime := clock E |}.
Proof.
  intros Hos Hrm Hkeeps
    (w1 & fs2 & control & changelog & Hbuild & Hcopy & _ & ->)%buildDeb_Done.
  set (P := "deb/usr/bin/syncthing"%string) in *.
  assert (w_files w1 !! P = None) as Hnone.
  { erewrite build_keeps; [|exact Hbuild| | |exact Hkeeps];
      [|rewrite (binary_name_unix O Hos); reflexivity..].
    cbn [w_files]. rewrite os_RemoveAll_lookup.
    change (under "deb" P) with true. by rewrite Hrm. }
  pose proof (build_Done_files _ _ _ _ _ _ _ Hbuild)
    as (bin & side & Hbin & _ & _ & Hframe).
  rewrite (binary_name_unix O Hos) in *.
  exists bin. split; [by rewrite <- Hframe|].
  cbn [w_files].
  rewrite !buildDeb_control_frame by (simpl; intuition discriminate).
  change (buildDeb_files (listFiles (w_files w1) "extra"))
    with (take 4 (buildDeb_files (listFiles (w_files w1) "extra"))
          ++ drop 4 (buildDeb_files (listFiles (w_files w1) "extra"))) in Hcopy.
  apply buildDeb_copy_app in Hcopy as (fs1 & Hfixed & Hextra).
  destruct (buildDeb_files_dst (listFiles (w_files w1) "extra") P
              ltac:(by left)) as [HP _].
  destruct (buildDeb_files_dst (listFiles (w_files w1) "extra") "syncthing"
              ltac:(right; by left)) as [HS _].
  rewrite (buildDeb_copy_frame _ _ _ _ _ Hextra HP).
  rewrite (buildDeb_copy_frame _ _ _ _ _ Hextra HS).
  cbn [buildDeb_files app take] in Hfixed.
  apply buildDeb_copy_cons in Hfixed
    as (fa & (f1 & _ & _ & _ & _ & ->)%copyFile_Ok & Hfixed).
  apply buildDeb_copy_cons in Hfixed
    as (fb & (f2 & _ & _ & _ & _ & ->)%copyFile_Ok & Hfixed).
  apply buildDeb_copy_cons in Hfixed
    as (fc & (f3 & _ & _ & _ & _ & ->)%copyFile_Ok & Hfixed).
  apply buildDeb_copy_cons in Hfixed
    as (fd & (f4 & H4 & _ & _ & _ & ->)%copyFile_Ok & Hfixed).
  injection Hfixed as <-. cbn [src dst perm] in *.
  rewrite !lookup_insert_ne in H4 by discriminate.
  rewrite Hbin in H4. injection H4 as <-.
  split.
  - rewrite !lookup_insert_ne by discriminate. done.
  - fold P. rewrite lookup_insert_eq. unfold copied. f_equal.
    rewrite !lookup_insert_ne by discriminate. by rewrite Hnone.
Qed.

Lemma buildDeb_installs_binary_witness :
  let w' := match buildDeb nothing_scanned (quiet_env []) toolchain_host linux_amd64
                           stale_world with
            | Done (Some w') => w'
            | _ => stale_world
            end in
  buildDeb nothing_scanned (quiet_env []) toolchain_host linux_amd64 stale_world
  = Done (Some w') /\
  w_files w' !! "deb/usr/bin/syncthing"%string
  = Some {| f_data := B "fresh"; f_mode := 493; f_modTime := 0 |} /\
  exists bin,
    built (quiet_env []) toolchain_host linux_amd64
          {| w_vars := w_vars stale_world;
             w_files := os_RemoveAll toolchain_host (w_files stale_world) "deb" |}
          "./cmd/syncthing" ["noupgrade"] !! "syncthing"%string = Some bin /\
    w_files w' !! "syncthing"%string = Some bin /\
    w_files w' !! "deb/usr/bin/syncthing"%string
    = Some {| f_data := f_data bin;
              f_mode := Z.land 493 (Z.lnot (umask (quiet_env [])));
              f_modTime := clock (quiet_env []) |}.
Proof.
  intros w'.
  assert (buildDeb nothing_scanned (quiet_env []) toolchain_host linux_amd64
            stale_world = Done (Some w')) as Hd by (vm_compute; reflexivity).
  split; [exact Hd|]. split; [vm_compute; reflexivity|].
  refine (buildDeb_installs_binary nothing_scanned (quiet_env []) toolchain_host
            linux_amd64 stale_world w' ltac:(discriminate) eq_refl _ Hd).
  intros args fs.
  assert (os_Getenv (setBuildEnv toolchain_host linux_amd64 (w_vars stale_world)) "GOOS"
          = "linux"%string) as Hgoos by (vm_compute; reflexivity).
  unfold toolchain_host at 1. cbn [effect String.eqb Ascii.eqb Bool.eqb].
  rewrite Hgoos. cbn [String.eqb Ascii.eqb Bool.eqb].
  apply lookup_insert_ne. discriminate.
Defined.



(** ** [run] *)

Lemma trim_left_drop encs : forall fuel s,
  exists k, trim_left encs fuel s = drop k s.
Proof.
  induction fuel as [|fuel IH]; intros s; simpl.
  - by exists 0.
  - destruct (leading_width encs s) as [|w]; [by exists 0|].
    destruct (IH (drop (S w) s)) as [k ->]. exists (S w + k).
    by rewrite drop_drop.
Qed.

Lemma has_prefix_take e : forall s n,
  has_prefix e (take n s) = true -> has_prefix e s = true.
Proof.
  induction e as [|a e IH]; intros s n; [done|].
  destruct s as [|c s], n as [|n]; simpl; try done.
  intros [-> He]%andb_prop. simpl. by apply (IH s n).
Qed.

(** A text that does not start with white space has no beginning that
    does. *)
Lemma leading_width_take encs s n :
  Forall (fun e => e <> []) encs ->
  leading_width encs s = 0 -> leading_width encs (take n s) = 0.
Proof.
  intros Hne. unfold leading_width.
  destruct (List.find (fun e => has_prefix e (take n s)) encs) as [e|] eqn:Hf;
    [|done].
  apply List.find_some in Hf as [Hin Hp]. apply has_prefix_take in Hp.
  destruct (List.find (fun e => has_prefix e s) encs) as [e'|] eqn:Hf'.
  - apply List.find_some in Hf' as [Hin' _].
    rewrite List.Forall_forall in Hne. specialize (Hne _ Hin').
    destruct e'; [done|]. discriminate.
  - intros _. eapply List.find_none in Hf'; [|exact Hin]. simpl in Hf'. congruence.
Qed.

(** Trimming what has been trimmed changes nothing. *)
Lemma bytes_TrimSpace_idemp s :
  bytes_TrimSpace (bytes_TrimSpace s) = bytes_TrimSpace s.
Proof.
  assert (Forall (fun e : bytes => e <> []) space_encodings) as Hne.
  { repeat (constructor; [discriminate|]). constructor. }
  unfold bytes_TrimSpace at 2.
  set (t := trim_left space_encodings (length s) s).
  assert (leading_width space_encodings t = 0) as Ht
    by (by apply trim_left_enough).
  set (u := trim_left (map (@rev byte) space_encodings) (length t) (rev t)).
  assert (leading_width (map (@rev byte) space_encodings) u = 0) as Hu.
  { apply trim_left_enough. by rewrite length_rev. }
  destruct (trim_left_drop (map (@rev byte) space_encodings) (length t) (rev t))
    as [k Hk].
  fold u in Hk.
  assert (rev u = take (length t - k) t) as Hr.
  { rewrite Hk, List.skipn_rev. apply rev_involutive. }
  unfold bytes_TrimSpace.
  rewrite (trim_left_fixed space_encodings _ (rev u)).
  2: { rewrite Hr. by apply leading_width_take. }
  rewrite rev_involutive. by rewrite trim_left_fixed.
Qed.

(** [run] ends the process when the command fails; otherwise it returns
    what [runError] returned, the command's output without the white
    space around it: trimming it a second time, as [run] does, changes
    nothing. *)
Theorem run_returns_trimmed_output (E : env) (cmd : string) (args : list string) :
  (fault E (OpCommand cmd args) = true ->
   run E cmd args = Exit 1 (FatalErr (EIO (OpCommand cmd args)))) /\
  (fault E (OpCommand cmd args) = false ->
   run E cmd args = Done (fst (runError E cmd args)) /\
   fst (runError E cmd args) = bytes_TrimSpace (output E cmd args)) /\
  (forall bs, run E cmd args = Done bs -> bytes_TrimSpace bs = bs).
Proof.
  unfold run, runError. destruct (fault E (OpCommand cmd args)).
  - split; [done|]. split; [done|]. intros bs. discriminate.
  - split; [done|]. split.
    + intros _. cbn [fst]. by rewrite bytes_TrimSpace_idemp.
    + intros bs [= <-]. by rewrite !bytes_TrimSpace_idemp.
Qed.

(** ** [vet] and [lint] *)

Lemma exec_None_iff re s pos : exec re s pos = None <-> exec re s 0 = None.
Proof.
  rewrite (exec_pos re s pos). by destruct (exec re s 0).
Qed.

Lemma find_None_inv re : forall s pos,
  find re s pos = None ->
  forall i, i <= length s -> exec re (drop i s) 0 = None.
Proof.
  induction s as [|c s IH]; intros pos Hf i Hi; simpl in Hf.
  - destruct (exec re [] pos) as [[caps e]|] eqn:He; [done|].
    apply exec_None_iff in He. by destruct i.
  - destruct (exec re (c :: s) pos) as [[caps e]|] eqn:He; [done|].
    apply exec_None_iff in He. destruct i as [|i]; [done|].
    apply (IH (S pos) Hf). simpl in Hi. lia.
Qed.

Lemma find_Some_inv re : forall s pos r,
  find re s pos = Some r ->
  exists i n, i <= length s /\ matches re (drop i s) n.
Proof.
  induction s as [|c s IH]; intros pos r Hf; simpl in Hf.
  - destruct (exec re [] pos) as [[caps e]|] eqn:He; [|done].
    apply exec_sound in He as (n & _ & Hm). exists 0, n. by split.
  - destruct (exec re (c :: s) pos) as [[caps e]|] eqn:He.
    + apply exec_sound in He as (n & _ & Hm). exists 0, n. split; [lia|done].
    + apply IH in Hf as (i & n & Hi & Hm). exists (S i), n.
      split; [simpl; lia|done].
Qed.

(** [Match] reports whether the pattern matches from some offset on. *)
Lemma regexp_Match_spec re s :
  regexp_Match re s = true <->
  exists i n, i <= length s /\ matches re (drop i s) n.
Proof.
  unfold regexp_Match. split.
  - destruct (find re s 0) as [r|] eqn:Hf; [intros _|done].
    by apply find_Some_inv in Hf.
  - intros (i & n & Hi & Hm).
    destruct (find re s 0) as [r|] eqn:Hf; [done|].
    pose proof (find_None_inv re s 0 Hf i Hi) as He.
    destruct (exec_complete re _ n Hm 0) as [r Hr]. congruence.
Qed.

(** A run of literals matches the text it spells. *)
Lemma matches_map_lit l re : forall s m,
  matches (map lit l ++ re) s m <->
  exists t n, s = l ++ t /\ matches re t n /\ m = length l + n.
Proof.
  induction l as [|c l IH]; intros s m; cbn [map app].
  - split; [intros Hm; by exists s, m|]. by intros (t & n & -> & Hm & ->).
  - split.
    + intros (t & n & -> & (t' & n' & -> & Hm & ->)%IH & ->)%matches_lit_inv.
      exists t', n'. split; [done|]. split; [done|]. simpl. lia.
    + intros (t & n & -> & Hm & ->).
      change (length (c :: l) + n) with (1 + (length l + n)).
      apply matches_lit_intro, IH. by exists t, n.
Qed.

Lemma occurs_drop p s :
  occurs p s <-> exists i t, i <= length s /\ drop i s = p ++ t.
Proof.
  unfold occurs. split.
  - intros (pre & post & ->). exists (length pre), post.
    rewrite drop_app_length, length_app. split; [lia|done].
  - intros (i & t & _ & Hd). exists (take i s), t.
    by rewrite <- Hd, take_drop.
Qed.

(** A pattern without operators matches where its text occurs. *)
Lemma regexp_Match_lits (p : string) s :
  regexp_Match (lits p) s = true <-> occurs (B p) s.
Proof.
  rewrite regexp_Match_spec, occurs_drop. unfold lits.
  rewrite <- (app_nil_r (map lit (B p))). split.
  - intros (i & n & Hi & (t & _ & Hs & _)%matches_map_lit). by exists i, t.
  - intros (i & t & Hi & Hd). exists i, (length (B p) + 0). split; [done|].
    apply matches_map_lit. exists t, 0. split; [done|]. split; [constructor|done].
Qed.

Lemma bytes_Contains_spec sub : forall b,
  bytes_Contains b sub = true <-> occurs sub b.
Proof.
  induction b as [|c b IH]; cbn [bytes_Contains].
  - rewrite orb_false_r. split.
    + intros Hp%has_prefix_app. exists [], (drop (length sub) []). by rewrite Hp at 1.
    + intros (pre & post & Heq). symmetry in Heq.
      destruct pre; [|done]. by destruct sub.
  - rewrite orb_true_iff, IH. split.
    + intros [Hp%has_prefix_app|(pre & post & ->)].
      * by exists [], (drop (length sub) (c :: b)).
      * by exists (c :: pre), post.
    + intros ([|c' pre] & post & Heq).
      * left. simpl in Heq. rewrite Heq. apply has_prefix_self.
      * right. injection Heq as -> ->. by exists pre, post.
Qed.

(** The loops of [vet] and [lint] keep the lines that do not match, in
    their order. *)
Lemma vet_lines_filter lines :
  vet_lines lines
  = map Line (List.filter
                (fun line => negb (regexp_Match falseAlarmComposites line
                                   || regexp_Match exitStatus line)) lines).
Proof.
  induction lines as [|line lines IH]; [done|]. cbn [vet_lines List.filter].
  destruct (regexp_Match falseAlarmComposites line || regexp_Match exitStatus line);
    cbn [negb map]; by rewrite IH.
Qed.

Lemma lint_lines_filter lines :
  lint_lines lines
  = map Line (List.filter
                (fun line => negb (existsb (fun re => regexp_Match re line)
                                           analCommentPolicy)) lines).
Proof.
  induction lines as [|line lines IH]; [done|]. cbn [lint_lines List.filter].
  destruct (existsb _ analCommentPolicy); cbn [negb map]; by rewrite IH.
Qed.

(** [vet] takes the go command to have no vet tool when the command
    failed with exit status 3, and also whenever its output mentions that
    there is no such tool, whether the command failed or not; it then
    logs the hint and nothing of the output.  Otherwise it logs the lines
    of the output in their order, except those in which one of the two
    phrases occurs anywhere; the error of the command is not looked at
    again.  A go vet that prints nothing makes [vet] log one empty line. *)
Theorem vet_reports (E : env) (H : host) (pkg : string) :
  (vet_no_tool E H pkg -> vet E H pkg = [NoVet]) /\
  (~ vet_no_tool E H pkg ->
   exists keep : bytes -> bool,
     (forall line, keep line = false <->
        occurs (B "composite literal uses unkeyed fields") line \/
        occurs (B "exit status 1") line) /\
     vet E H pkg
     = map Line (List.filter keep
                   (bytes_Split (bytes_TrimSpace (output E "go" ["vet"; pkg])) [x0a]))) /\
  (~ vet_no_tool E H pkg -> bytes_TrimSpace (output E "go" ["vet"; pkg]) = [] ->
   vet E H pkg = [Line []]).
Proof.
  unfold vet, runError, vet_no_tool.
  set (bs := bytes_TrimSpace (output E "go" ["vet"; pkg])).
  set (no_tool := _ \/ occurs no_such_tool_vet bs).
  assert ((if fault E (OpCommand "go" ["vet"; pkg])
           then String.eqb (cmd_error H "go" ["vet"; pkg]) "exit status 3"
           else false) || bytes_Contains bs no_such_tool_vet = true
          <-> no_tool) as Hcond.
  { unfold no_tool. rewrite orb_true_iff, bytes_Contains_spec.
    destruct (fault E (OpCommand "go" ["vet"; pkg])).
    - rewrite String.eqb_eq. tauto.
    - split; [intros [|]; [done|by right]|]. intros [[? _]|]; [done|by right]. }
  destruct (fault E (OpCommand "go" ["vet"; pkg])) eqn:Hfault;
    (destruct (_ || bytes_Contains bs no_such_tool_vet) eqn:Hc;
     [ split; [done|]; split; intros Hno; destruct Hno; by apply Hcond
     | assert (~ no_tool) as Hno' by (rewrite <- Hcond; discriminate);
       split; [done|]; split;
       [ intros _;
         exists (fun line => negb (regexp_Match falseAlarmComposites line
                                   || regexp_Match exitStatus line));
         split; [|apply vet_lines_filter];
         intros line; rewrite negb_false_iff, orb_true_iff;
         unfold falseAlarmComposites, exitStatus;
         by rewrite !regexp_Match_lits
       | by intros _ -> ] ]).
Qed.

(** A pattern of [lint] matches where a complaint of its kind starts. *)
Lemma matches_complaint (kind : string) s m :
  matches (lits "exported " ++ lits kind ++ lits " "
           ++ [Chars not_space 1 None] ++ lits " should have comment") s m <->
  exists name post,
    name <> [] /\ Forall (fun b => not_space b = true) name /\
    s = B "exported " ++ B kind ++ B " " ++ name ++ B " should have comment" ++ post /\
    m = length (B "exported " ++ B kind ++ B " " ++ name ++ B " should have comment").
Proof.
  unfold lits. split.
  - intros (t1 & n1 & -> & (t2 & n2 & -> & (t3 & n3 & -> & Hm & ->)%matches_map_lit
                            & ->)%matches_map_lit & ->)%matches_map_lit.
    change (Chars not_space 1 None :: map lit (B " should have comment"))
      with ([Chars not_space 1 None] ++ map lit (B " should have comment")) in Hm.
    apply matches_chars_inv in Hm as (name & t4 & n4 & -> & Hname & Hlen & _ & Hm & ->).
    rewrite <- (app_nil_r (map lit _)) in Hm.
    apply matches_map_lit in Hm as (post & n5 & -> & Hnil & ->).
    inversion Hnil; subst.
    exists name, post. split; [by destruct name; simpl in Hlen; [lia|]|].
    split; [done|]. split; [done|].
    rewrite !length_app. simpl. lia.
  - intros (name & post & Hne & Hname & -> & ->).
    rewrite !length_app.
    apply matches_map_lit. eexists _, _. split; [reflexivity|]. split; [|reflexivity].
    apply matches_map_lit. eexists _, _. split; [reflexivity|]. split; [|reflexivity].
    apply matches_map_lit. eexists _, _. split; [reflexivity|]. split; [|reflexivity].
    apply (matches_chars_intro not_space 1 None); [done| |done|].
    + destruct name; [done|simpl; lia].
    + rewrite <- (app_nil_r (map lit _)), <- (Nat.add_0_r (length _)).
      apply matches_map_lit. exists post, 0. split; [done|]. split; [constructor|done].
Qed.

Lemma analCommentPolicy_spec line :
  existsb (fun re => regexp_Match re line) analCommentPolicy = true <->
  comment_complaint line.
Proof.
  rewrite existsb_exists. unfold analCommentPolicy, comment_complaint. split.
  - intros (re & (kind & <- & Hkind)%in_map_iff & Hm).
    apply regexp_Match_spec in Hm as (i & n & Hi & Hm).
    apply matches_complaint in Hm as (name & post & Hne & Hname & Hd & _).
    exists (take i line), kind, name, post. repeat split; try done.
    by rewrite <- Hd, take_drop.
  - intros (pre & kind & name & post & Hkind & Hne & Hname & ->).
    eexists. split; [apply in_map_iff; by exists kind|].
    apply regexp_Match_spec. exists (length pre). eexists.
    split; [rewrite length_app; lia|]. rewrite drop_app_length.
    apply matches_complaint. by exists name, post.
Qed.

(** [lint] takes golint to be missing whenever the command fails,
    whatever it printed before.  Otherwise it logs the lines of the output
    in their order, except those that hold a complaint about a missing
    comment on something exported: the word [exported], one of the five
    kinds, a name without white space, and [should have comment], with
    single spaces between them. *)
Theorem lint_reports (E : env) (pkg : string) :
  (fault E (OpCommand "golint" [pkg]) = true -> lint E pkg = [NoGolint]) /\
  (fault E (OpCommand "golint" [pkg]) = false ->
   exists keep : bytes -> bool,
     (forall line, keep line = false <-> comment_complaint line) /\
     lint E pkg
     = map Line (List.filter keep
                   (bytes_Split (bytes_TrimSpace (output E "golint" [pkg])) [x0a]))).
Proof.
  unfold lint, runError. split; intros ->; [done|].
  exists (fun line => negb (existsb (fun re => regexp_Match re line) analCommentPolicy)).
  split; [|apply lint_lines_filter].
  intros line. by rewrite negb_false_iff, analCommentPolicy_spec.
Qed.

(** ** [listFiles] *)

(** The walk is stopped exactly when something in the tree fails. *)
Lemma walk_stopped (t : tree) :
  forall path res, snd (walk t path res) = negb (readable t).
Proof.
  induction t using tree_forest_ind with
    (P0 := fun es => forall path res,
       snd (walk_entries es path res) = negb (readable_entries es));
    intros path res; cbn [walk walk_entries readable readable_entries];
    try done.
  specialize (IHt (filepath_Join [path; name]) res).
  destruct (walk t (filepath_Join [path; name]) res) as [res' err].
  cbn [snd] in IHt. subst err. destruct (readable t); cbn [negb andb]; [|done].
  apply IHt0.
Qed.

(** The walk appends regular files in their order, up to the first
    error. *)
Lemma walk_spec (t : tree) :
  forall path res,
    exists found,
      fst (walk t path res) = res ++ found /\
      found `prefix_of` regular_files t path /\
      (readable t = true -> found = regular_files t path).
Proof.
  induction t using tree_forest_ind with
    (P0 := fun es => forall path res,
       exists found,
         fst (walk_entries es path res) = res ++ found /\
         found `prefix_of` regular_entries es path /\
         (readable_entries es = true -> found = regular_entries es path));
    intros path res; cbn [walk walk_entries regular_files regular_entries
                          readable readable_entries].
  - exists [path]. by repeat split.
  - exists []. rewrite app_nil_r. by repeat split.
  - apply IHt.
  - exists []. rewrite app_nil_r. by repeat split.
  - exists []. rewrite app_nil_r. by repeat split.
  - exists []. rewrite app_nil_r. by repeat split.
  - destruct (IHt (filepath_Join [path; name]) res) as (f1 & H1 & Hp1 & Hr1).
    pose proof (walk_stopped t (filepath_Join [path; name]) res) as Hs.
    destruct (walk t (filepath_Join [path; name]) res) as [res' err].
    cbn [fst snd] in *. subst res' err. destruct (readable t); cbn [negb andb].
    + destruct (IHt0 path (res ++ f1)) as (f2 & H2 & Hp2 & Hr2).
      exists (f1 ++ f2). rewrite app_assoc. split; [done|].
      rewrite <- (Hr1 eq_refl). split.
      * by apply prefix_app.
      * intros Hes. by rewrite (Hr2 Hes).
    + exists f1. split; [done|]. split; [|done]. by apply prefix_app_r.
Qed.

Lemma walk_entries_app es1 : forall es2 path res,
  readable_entries es1 = true ->
  walk_entries (entries_app es1 es2) path res
  = walk_entries es2 path (fst (walk_entries es1 path res)).
Proof.
  induction es1 as [|name child es1 IH]; intros es2 path res Hr; [done|].
  cbn [entries_app walk_entries readable_entries] in *.
  apply andb_prop in Hr as [Hc Hes].
  pose proof (walk_stopped child (filepath_Join [path; name]) res) as Hs.
  destruct (walk child (filepath_Join [path; name]) res) as [res' err].
  cbn [snd] in Hs. subst err. rewrite Hc. cbn [negb]. by apply IH.
Qed.

(** [listFiles] returns the regular files below the directory in the
    order of the walk, but only up to the first thing that cannot be read:
    the function literal hands the error back, which stops the walk, and
    [listFiles] drops the result of [Walk].  So what it returns is always
    a beginning of the full list; it is the full list when everything can
    be read; and when an entry of the directory cannot be read, the
    files of all entries after it are left out, whatever they are. *)
Theorem listFiles_stops_at_first_error (dir : string) (root : tree) :
  listFiles dir root `prefix_of` regular_files root dir /\
  (readable root = true -> listFiles dir root = regular_files root dir) /\
  (forall es1 name es2,
     root = Directory (entries_app es1 (Entry name Unreadable es2)) ->
     readable_entries es1 = true ->
     listFiles dir root = regular_entries es1 dir).
Proof.
  unfold listFiles.
  destruct (walk_spec root dir []) as (found & Hw & Hp & Hr).
  rewrite Hw. cbn [app]. split; [done|]. split; [done|].
  intros es1 name es2 -> Hes1. cbn [walk] in Hw.
  rewrite walk_entries_app in Hw by done. cbn [walk_entries walk fst app] in Hw.
  rewrite <- Hw.
  destruct (walk_spec (Directory es1) dir []) as (f1 & H1 & _ & Hr1).
  cbn [walk readable regular_files app] in *. rewrite H1. by apply Hr1.
Qed.

Example listFiles_broken_etc :
  listFiles "etc" broken_etc = ["etc/a/one"]%string /\
  regular_files broken_etc "etc" = ["etc/a/one"; "etc/c/two"]%string.
Proof. split; reflexivity. Qed.

(** ** [translate] *)

(** When [translate] returns, [lang-en.json] holds what the command wrote
    to its standard output, [lang-en-new.json] is gone, and no other file
    has changed.  When the new file cannot be created or the command
    fails, the process ends with the old [lang-en.json] untouched.  But
    the old file is removed before the new one is renamed: when the
    removal succeeds and the renaming fails, the process ends with no
    [lang-en.json] at all. *)
Theorem translate_replaces (E : env) (H : host) (fs : gmap string inode) :
  (forall fs', translate E H fs = (true, fs') ->
     f_data <$> fs' !! "lang-en.json"%string = Some (stdout H "go" translate_args) /\
     fs' !! "lang-en-new.json"%string = None /\
     (forall p, p <> "lang-en.json"%string -> p <> "lang-en-new.json"%string ->
                fs' !! p = fs !! p)) /\
  (fault E (OpCreate "lang-en-new.json") = true \/
   fault E (OpCommand "go" translate_args) = true ->
   fst (translate E H fs) = false /\
   snd (translate E H fs) !! "lang-en.json"%string = fs !! "lang-en.json"%string) /\
  (fault E (OpCreate "lang-en-new.json") = false ->
   fault E (OpCommand "go" translate_args) = false ->
   sysfault H (SysRemove "lang-en.json") = false ->
   sysfault H (SysRename "lang-en-new.json" "lang-en.json") = true ->
   fst (translate E H fs) = false /\
   snd (translate E H fs) !! "lang-en.json"%string = None /\
   f_data <$> snd (translate E H fs) !! "lang-en-new.json"%string
   = Some (stdout H "go" translate_args)).
Proof.
  unfold translate, runPipe, os_Create, attempt, os_Remove, os_Rename.
  destruct (fault E (OpCreate "lang-en-new.json")); simpl.
  { split; [done|]. split; [done|]. done. }
  destruct (fault E (OpCommand "go" translate_args)); simpl.
  { split; [done|]. split; [|done]. intros _. split; [done|].
    by rewrite lookup_insert_ne. }
  rewrite alter_insert_eq.
  destruct (sysfault H (SysRename "lang-en-new.json" "lang-en.json")) eqn:Hren.
  - split; [done|]. split; [by intros [|]|]. intros _ _ -> _. cbn [fst snd].
    split; [done|]. split.
    + by rewrite lookup_delete_eq.
    + rewrite lookup_delete_ne by done. by rewrite lookup_insert_eq.
  - split; [|split; [by intros [|]|done]].
    destruct (sysfault H (SysRemove "lang-en.json")).
    + rewrite lookup_insert_eq. intros fs' [= <-]. split; [by rewrite lookup_insert_eq|].
      split.
      * rewrite lookup_insert_ne by done. by rewrite lookup_delete_eq.
      * intros p H1 H2. rewrite lookup_insert_ne, lookup_delete_ne by done.
        by rewrite lookup_insert_ne.
    + rewrite lookup_delete_ne by done. rewrite lookup_insert_eq.
      intros fs' [= <-]. split; [by rewrite lookup_insert_eq|]. split.
      * rewrite lookup_insert_ne by done. by rewrite lookup_delete_eq.
      * intros p H1 H2. rewrite lookup_insert_ne, lookup_delete_ne by done.
        rewrite lookup_delete_ne by done. by rewrite lookup_insert_ne.
Qed.
